(** * Markdown to Portable Text converter: shallow embedding and properties

    The development embeds the converter of the blog publishing pipeline:
    [generateKey], [processBoldAndEmphasis], [markdownToPortableText] and
    [createSlug].  JavaScript strings are sequences of UTF-16 code units and
    are modelled as lists of [N]; the built-in string methods the converter
    calls ([replace], [split], [trim], [startsWith], regular expression
    tests) are modelled as total functions on such lists, each one following
    the ECMAScript semantics of the particular call that occurs in the
    source.  The explicit [for] loop of the tokenizer, whose body advances
    its own index, is modelled with an index, a step function and fuel. *)

From Stdlib Require Import Ascii String.
From Stdlib Require Import List NArith ZArith Bool Arith Lia.
Import ListNotations.

Local Open Scope list_scope.

(** ** Strings *)

Definition jsstring := list N.

(** Literals: the code units of an ASCII Rocq string. *)
Definition js (s : string) : jsstring :=
  map N_of_ascii (list_ascii_of_string s).

Definition cSTAR : N := 42.   (* '*' *)
Definition cNL : N := 10.     (* '\n' *)
Definition cDASH : N := 45.   (* '-' *)
Definition cDOT : N := 46.    (* '.' *)
Definition cCOLON : N := 58.  (* ':' *)
Definition cUNDERSCORE : N := 95.

Definition nl : jsstring := [cNL].
Definition nlnl : jsstring := [cNL; cNL].

(** [s.startsWith(p)] *)
Fixpoint startsWith (p s : jsstring) : bool :=
  match p, s with
  | [], _ => true
  | x :: p', y :: s' => N.eqb x y && startsWith p' s'
  | _ :: _, [] => false
  end.

(** Character classes of ECMAScript regular expressions (no [u] flag). *)

(** [\s], which is also what [trim] strips: WhiteSpace and LineTerminator. *)
Definition isSpace (c : N) : bool :=
  ((9 <=? c) && (c <=? 13) || (c =? 32) || (c =? 160) || (c =? 5760)
   || (8192 <=? c) && (c <=? 8202) || (c =? 8232) || (c =? 8233)
   || (c =? 8239) || (c =? 8287) || (c =? 12288) || (c =? 65279))%N.

(** [\d] *)
Definition isDigit (c : N) : bool := ((48 <=? c) && (c <=? 57))%N.

Definition isUpper (c : N) : bool := ((65 <=? c) && (c <=? 90))%N.
Definition isLower (c : N) : bool := ((97 <=? c) && (c <=? 122))%N.

(** [\w] *)
Definition isWord (c : N) : bool :=
  isLower c || isUpper c || isDigit c || (c =? cUNDERSCORE)%N.

(** Line terminators, which [.] does not match. *)
Definition isLineTerminator (c : N) : bool :=
  ((c =? 10) || (c =? 13) || (c =? 8232) || (c =? 8233))%N.

Fixpoint dropWhile (f : N -> bool) (s : jsstring) : jsstring :=
  match s with
  | [] => []
  | c :: r => if f c then dropWhile f r else s
  end.

Fixpoint takeWhile (f : N -> bool) (s : jsstring) : jsstring :=
  match s with
  | [] => []
  | c :: r => if f c then c :: takeWhile f r else []
  end.

(** [s.trim()] *)
Definition trim (s : jsstring) : jsstring :=
  rev (dropWhile isSpace (rev (dropWhile isSpace s))).

(** A JavaScript string is truthy when it is not empty. *)
Definition truthy (s : jsstring) : bool :=
  match s with [] => false | _ :: _ => true end.

(** [s.replace(pat, repl)] with a string pattern: the first occurrence. *)
Fixpoint replaceFirst (pat repl s : jsstring) : jsstring :=
  if startsWith pat s then repl ++ skipn (length pat) s
  else match s with
       | [] => []
       | c :: r => c :: replaceFirst pat repl r
       end.

(** [s.split(sep)] with a non-empty string separator.  [skip] counts the
    code units of a separator occurrence still to be passed over, [cur] is
    the piece being accumulated. *)
Fixpoint split_from (sep : jsstring) (skip : nat) (cur s : jsstring)
  : list jsstring :=
  match s with
  | [] => [cur]
  | c :: r =>
      match skip with
      | S k => split_from sep k cur r
      | O => if startsWith sep s
             then cur :: split_from sep (length sep - 1) [] r
             else split_from sep 0 (cur ++ [c]) r
      end
  end.

Definition split (sep s : jsstring) : list jsstring := split_from sep 0 [] s.

(** [s.replace(re, f)] with a global regular expression that never matches
    the empty string.  [matchAt] tries the expression at the head of its
    argument and yields the length of the match and its replacement; the
    search resumes after the match. *)
Fixpoint replaceAll_from (matchAt : jsstring -> option (nat * jsstring))
    (skip : nat) (s : jsstring) : jsstring :=
  match s with
  | [] => []
  | c :: r =>
      match skip with
      | S k => replaceAll_from matchAt k r
      | O => match matchAt s with
             | Some (len, repl) => repl ++ replaceAll_from matchAt (len - 1) r
             | None => c :: replaceAll_from matchAt 0 r
             end
      end
  end.

Definition replaceAll matchAt (s : jsstring) : jsstring :=
  replaceAll_from matchAt 0 s.

(** ** Regular expressions of the converter *)

(** [(.*?)\*\*]: the shortest run of non-terminators followed by two
    asterisks; yields the captured run. *)
Fixpoint lazyUntilStars (s : jsstring) : option jsstring :=
  match s with
  | [] => None
  | c :: r =>
      if startsWith [cSTAR; cSTAR] s then Some []
      else if isLineTerminator c then None
      else match lazyUntilStars r with
           | Some content => Some (c :: content)
           | None => None
           end
  end.

(** [/\*\*H([1-6]):(.*?)\*\*/] tried at the head of [s], with the
    replacement [`\n\nH${level}:${content}\n\n`]. *)
Definition matchBoldHeading (s : jsstring) : option (nat * jsstring) :=
  if startsWith (js "**H") s then
    match skipn 3 s with
    | level :: colon :: r =>
        if ((49 <=? level) && (level <=? 54) && (colon =? cCOLON))%N then
          match lazyUntilStars r with
          | Some content =>
              Some (5 + length content + 2,
                    nlnl ++ js "H" ++ [level] ++ js ":" ++ content ++ nlnl)
          | None => None
          end
        else None
    | _ => None
    end
  else None.

(** [/\n{3,}/] tried at the head of [s], with the replacement ['\n\n']. *)
Definition matchNewlines (s : jsstring) : option (nat * jsstring) :=
  let run := length (takeWhile (N.eqb cNL) s) in
  if 3 <=? run then Some (run, nlnl) else None.

(** [/^H<d>:/i]: the length of the match at the start of [s]. *)
Definition matchPseudoHeading (d : N) (s : jsstring) : option nat :=
  match s with
  | h :: d' :: c :: _ =>
      if ((h =? 72) || (h =? 104))%N && (d' =? d)%N && (c =? cCOLON)%N
      then Some 3 else None
  | _ => None
  end.

(** [/^[\s]*[-*]\s/] and [/^[\s]*[-*]\s+/]: the length of the match. *)
Definition matchBullet (plus : bool) (s : jsstring) : option nat :=
  let ws := takeWhile isSpace s in
  match skipn (length ws) s with
  | m :: sp :: r =>
      if ((m =? cDASH) || (m =? cSTAR))%N && isSpace sp
      then Some (length ws + 2
                 + (if plus then length (takeWhile isSpace r) else 0))
      else None
  | _ => None
  end.

(** [/^[\s]*\d+\.\s/] and [/^[\s]*\d+\.\s+/]: the length of the match. *)
Definition matchNumbered (plus : bool) (s : jsstring) : option nat :=
  let ws := takeWhile isSpace s in
  let ds := takeWhile isDigit (skipn (length ws) s) in
  match ds, skipn (length ws + length ds) s with
  | _ :: _, dot :: sp :: r =>
      if (dot =? cDOT)%N && isSpace sp
      then Some (length ws + length ds + 2
                 + (if plus then length (takeWhile isSpace r) else 0))
      else None
  | _, _ => None
  end.

(** [re.test(s)] *)
Definition test (re : jsstring -> option nat) (s : jsstring) : bool :=
  match re s with Some _ => true | None => false end.

(** [s.replace(re, '')] for an expression anchored at the start. *)
Definition stripMatch (re : jsstring -> option nat) (s : jsstring) : jsstring :=
  match re s with Some n => skipn n s | None => s end.

(** [s.replace(/^>|^&gt;/g, '')]: the anchor admits a match at index 0
    only, and the first alternative is preferred. *)
Definition stripQuoteMarker (s : jsstring) : jsstring :=
  if startsWith (js ">") s then skipn 1 s
  else if startsWith (js "&gt;") s then skipn 4 s
  else s.

(** ** Portable Text *)

Inductive Mark := strong | em.

(** The constant [_type] tags are left out.  [marks] is optional in the
    source's interface: [None] is a span without the field. *)
Record PortableTextSpan := mkSpan {
  text : jsstring;
  marks : option (list Mark)
}.

Inductive Style := normal | h1 | h2 | h3 | h4 | blockquote.
Inductive ListItem := bullet | number.

Record PortableTextBlock := mkBlock {
  _key : jsstring;
  style : Style;
  listItem : option ListItem;
  level : option Z;
  children : list PortableTextSpan
}.

(** ** The inline tokenizer [processBoldAndEmphasis] *)

(** [text[k]]: [None] stands for [undefined]. *)
Definition charAtIndex (text : jsstring) (k : Z) : option N :=
  if (k <? 0)%Z then None else nth_error text (Z.to_nat k).

(** [text[k] === '*'] *)
Definition isStarAt (text : jsstring) (k : Z) : bool :=
  match charAtIndex text k with
  | Some c => (c =? cSTAR)%N
  | None => false
  end.

(** [[...(isBold ? ['strong'] : []), ...(isItalic ? ['em'] : [])]] *)
Definition marksOf (isBold isItalic : bool) : list Mark :=
  (if isBold then [strong] else []) ++ (if isItalic then [em] else []).

(** The variables of the loop; [idx] is the loop index [i]. *)
Record ScanState := mkScan {
  idx : Z;
  segments : list PortableTextSpan;
  currentText : jsstring;
  isBold : bool;
  isItalic : bool
}.

Definition initScan : ScanState := mkScan 0 [] [] false false.

(** [if (currentText) { segments.push({...}); currentText = ''; }] *)
Definition flush (st : ScanState) : ScanState :=
  if truthy (currentText st)
  then mkScan (idx st)
              (segments st
               ++ [mkSpan (currentText st)
                          (Some (marksOf (isBold st) (isItalic st)))])
              [] (isBold st) (isItalic st)
  else st.

(** One execution of the loop body, up to its [continue] or its end. *)
Definition loopBody (text : jsstring) (st : ScanState) : ScanState :=
  let i := idx st in
  let len := Z.of_nat (length text) in
  if (i <? len - 1)%Z && isStarAt text i && isStarAt text (i + 1) then
    let st' := flush st in
    mkScan (i + 1) (segments st') (currentText st')
           (negb (isBold st')) (isItalic st')
  else if isStarAt text i
          && ((i =? 0)%Z || negb (isStarAt text (i - 1)))
          && ((i =? len - 1)%Z || negb (isStarAt text (i + 1))) then
    let st' := flush st in
    mkScan i (segments st') (currentText st')
           (isBold st') (negb (isItalic st'))
  else
    mkScan i (segments st)
           (currentText st
            ++ match charAtIndex text i with
               | Some c => [c]
               | None => js "undefined"
               end)
           (isBold st) (isItalic st).

(** The update [i++] of the [for] statement. *)
Definition increment (st : ScanState) : ScanState :=
  mkScan (idx st + 1) (segments st) (currentText st) (isBold st) (isItalic st).

(** [for (let i = 0; i < text.length; i++) { ... }]; [None] when the fuel
    runs out before the loop condition fails. *)
Fixpoint scanLoop (fuel : nat) (text : jsstring) (st : ScanState)
  : option ScanState :=
  if (idx st <? Z.of_nat (length text))%Z then
    match fuel with
    | O => None
    | S fuel' => scanLoop fuel' text (increment (loopBody text st))
    end
  else Some st.

(** The statements after the loop. *)
Definition finish (st : ScanState) : list PortableTextSpan :=
  let segs := segments (flush st) in
  if (0 <? length segs) then segs else [mkSpan [] None].

Definition processBoldAndEmphasis (text : jsstring)
  : option (list PortableTextSpan) :=
  match scanLoop (length text) text initScan with
  | Some st => Some (finish st)
  | None => None
  end.

(** ** Key generation and the converter *)

Definition chars : jsstring :=
  js "abcdefghijklmnopqrstuvwxyzABCDEFGHIJKLMNOPQRSTUVWXYZ0123456789".

(** [s.charAt(k)]: the empty string when [k] is out of range. *)
Definition charAt (s : jsstring) (k : nat) : jsstring :=
  match nth_error s k with Some c => [c] | None => [] end.

Section Converter.

(** [random k] is the value of the [k]-th evaluation of
    [Math.floor(Math.random() * chars.length)] during a run. *)
Variable random : nat -> nat.

(** Computations that draw random numbers and may run out of fuel: the
    state is the number of draws made so far. *)
Definition M (A : Type) : Type := nat -> option (A * nat).

Definition ret {A} (a : A) : M A := fun n => Some (a, n).

Definition bind {A B} (m : M A) (f : A -> M B) : M B :=
  fun n => match m n with
           | Some (a, n') => f a n'
           | None => None
           end.

Definition draw : M nat := fun n => Some (random n, S n).

Definition lift {A} (o : option A) : M A :=
  fun n => match o with Some a => Some (a, n) | None => None end.

Notation "x <- m ;; k" := (bind m (fun x => k))
  (at level 61, m at next level, right associativity).

Fixpoint mapM {A B} (f : A -> M B) (l : list A) : M (list B) :=
  match l with
  | [] => ret []
  | a :: l' => b <- f a ;; bs <- mapM f l' ;; ret (b :: bs)
  end.

(** The loop of [generateKey] with [n] iterations left. *)
Fixpoint generateKey_loop (n : nat) (result : jsstring) : M jsstring :=
  match n with
  | O => ret result
  | S n' => k <- draw ;; generateKey_loop n' (result ++ charAt chars k)
  end.

Definition generateKey (length : nat) : M jsstring :=
  generateKey_loop length [].

(** The default argument of [generateKey]. *)
Definition defaultKeyLength : nat := 12.

(** An object literal evaluates [_key] before [children]. *)
Definition makeBlock (st : Style) (li : option ListItem) (lv : option Z)
    (content : jsstring) : M PortableTextBlock :=
  key <- generateKey defaultKeyLength ;;
  spans <- lift (processBoldAndEmphasis content) ;;
  ret (mkBlock key st li lv spans).

(** The branches for headings of level 2 to 4 differ in the marker
    [hashes] and the digit [d] only.  [headingText] is the text of the
    heading before trimming, [isHeading] the condition of the branch. *)
Definition headingText (hashes : jsstring) (d : N) (paragraph : jsstring)
  : jsstring :=
  if startsWith hashes paragraph
  then replaceFirst hashes [] paragraph
  else stripMatch (matchPseudoHeading d) paragraph.

Definition isHeading (hashes : jsstring) (d : N) (paragraph : jsstring)
  : bool :=
  startsWith hashes paragraph || test (matchPseudoHeading d) paragraph.

(** The callback of [.map] yields one block or an array of blocks. *)
Definition blockOfParagraph (paragraph : jsstring)
  : M (PortableTextBlock + list PortableTextBlock) :=
  if startsWith (js "# ") paragraph then
    b <- makeBlock h1 None None (replaceFirst (js "# ") [] paragraph) ;;
    ret (inl b)
  else if isHeading (js "## ") 50 paragraph then
    b <- makeBlock h2 None None (trim (headingText (js "## ") 50 paragraph)) ;;
    ret (inl b)
  else if isHeading (js "### ") 51 paragraph then
    b <- makeBlock h3 None None (trim (headingText (js "### ") 51 paragraph)) ;;
    ret (inl b)
  else if isHeading (js "#### ") 52 paragraph then
    b <- makeBlock h4 None None (trim (headingText (js "#### ") 52 paragraph)) ;;
    ret (inl b)
  else if startsWith (js "> ") paragraph
          || startsWith (js "&gt; ") paragraph then
    b <- makeBlock blockquote None None (trim (stripQuoteMarker paragraph)) ;;
    ret (inl b)
  else if test (matchBullet false) paragraph then
    let listItems := filter (test (matchBullet false)) (split nl paragraph) in
    bs <- mapM (fun item =>
                  makeBlock normal (Some bullet) (Some 1%Z)
                            (stripMatch (matchBullet true) item))
               listItems ;;
    ret (inr bs)
  else if test (matchNumbered false) paragraph then
    let listItems := filter (test (matchNumbered false)) (split nl paragraph) in
    bs <- mapM (fun item =>
                  makeBlock normal (Some number) (Some 1%Z)
                            (stripMatch (matchNumbered true) item))
               listItems ;;
    ret (inr bs)
  else
    b <- makeBlock normal None None paragraph ;;
    ret (inl b).

(** [blocks.flat()] *)
Definition flat (l : list (PortableTextBlock + list PortableTextBlock))
  : list PortableTextBlock :=
  flat_map (fun x => match x with inl b => [b] | inr bs => bs end) l.

Definition cleanMarkdown (markdown : jsstring) : jsstring :=
  replaceAll matchNewlines (replaceAll matchBoldHeading markdown).

Definition markdownToPortableText (markdown : jsstring)
  : M (list PortableTextBlock) :=
  let cleanedMarkdown := cleanMarkdown markdown in
  let paragraphs := split nlnl cleanedMarkdown in
  blocks <- mapM blockOfParagraph
                 (filter (fun p => truthy (trim p)) paragraphs) ;;
  ret (flat blocks).

End Converter.

(** ** [createSlug] *)

(** [/[^\w\s-]/] *)
Definition matchSpecial (s : jsstring) : option (nat * jsstring) :=
  match s with
  | c :: _ => if isWord c || isSpace c || (c =? cDASH)%N
              then None else Some (1, [])
  | [] => None
  end.

(** [/\s+/] and [/-+/], replaced by ['-']. *)
Definition matchRun (f : N -> bool) (s : jsstring) : option (nat * jsstring) :=
  match takeWhile f s with
  | [] => None
  | run => Some (length run, [cDASH])
  end.

Section Slug.

(** [String.prototype.toLowerCase], which follows the Unicode case
    mappings of the runtime. *)
Variable toLowerCase : jsstring -> jsstring.

Definition createSlug (title : jsstring) : jsstring :=
  replaceAll (matchRun (N.eqb cDASH))
    (replaceAll (matchRun isSpace)
       (replaceAll matchSpecial (toLowerCase title))).

End Slug.

(** Lower-casing of the ASCII letters alone. *)
Definition asciiLower (c : N) : N := if isUpper c then (c + 32)%N else c.

(** The result of a computation started before any draw. *)
Definition run {A} (m : M A) : option A :=
  match m 0 with Some (a, _) => Some a | None => None end.

(** ** The tokenizer as a recursion on the text still to be read

    [scanFrom prevStar s st] reads the remaining text [s]; [prevStar] tells
    whether the code unit before [s] is an asterisk.  It is the loop with
    its index arithmetic replaced by pattern matching, and is proved equal
    to [scanLoop] below. *)

Definition onBold (st : ScanState) : ScanState :=
  let st' := flush st in
  mkScan (idx st + 2) (segments st') (currentText st')
         (negb (isBold st')) (isItalic st').

Definition onItalic (st : ScanState) : ScanState :=
  let st' := flush st in
  mkScan (idx st + 1) (segments st') (currentText st')
         (isBold st') (negb (isItalic st')).

Definition onChar (c : N) (st : ScanState) : ScanState :=
  mkScan (idx st + 1) (segments st) (currentText st ++ [c])
         (isBold st) (isItalic st).

Definition headIsStar (s : jsstring) : bool :=
  match s with c :: _ => (c =? cSTAR)%N | [] => false end.

Fixpoint scanFrom (prevStar : bool) (s : jsstring) (st : ScanState)
  : ScanState :=
  match s with
  | [] => st
  | c :: r =>
      if (c =? cSTAR)%N && headIsStar r then
        match r with
        | _ :: r' => scanFrom true r' (onBold st)
        | [] => st
        end
      else if (c =? cSTAR)%N && negb prevStar && negb (headIsStar r) then
        scanFrom true r (onItalic st)
      else scanFrom (c =? cSTAR)%N r (onChar c st)
  end.

Definition tokenize (text : jsstring) : list PortableTextSpan :=
  finish (scanFrom false text initScan).

(** ** Observations on documents *)

(** The concatenation of the span texts. *)
Definition spanText (spans : list PortableTextSpan) : jsstring :=
  flat_map text spans.

Definition markList (sp : PortableTextSpan) : list Mark :=
  match marks sp with Some l => l | None => [] end.

Definition Mark_eqb (a b : Mark) : bool :=
  match a, b with
  | strong, strong | em, em => true
  | _, _ => false
  end.

Definition hasMark (m : Mark) (sp : PortableTextSpan) : bool :=
  existsb (Mark_eqb m) (markList sp).

(** Two spans carry the same set of marks. *)
Definition sameMarks (a b : PortableTextSpan) : bool :=
  Bool.eqb (hasMark strong a) (hasMark strong b)
  && Bool.eqb (hasMark em a) (hasMark em b).

(** No two consecutive spans carry the same set of marks. *)
Fixpoint distinctNeighbours (l : list PortableTextSpan) : bool :=
  match l with
  | a :: (b :: _) as l' => negb (sameMarks a b) && distinctNeighbours l'
  | _ => true
  end.

(** A block with its identifier left out. *)
Definition eraseKey (b : PortableTextBlock)
  : Style * option ListItem * option Z * list PortableTextSpan :=
  (style b, listItem b, level b, children b).

Definition noStar (s : jsstring) : bool :=
  forallb (fun c => negb (c =? cSTAR)%N) s.

(** [s] contains two consecutive asterisks. *)
Fixpoint hasPair (s : jsstring) : bool :=
  match s with
  | [] => false
  | c :: r => (c =? cSTAR)%N && headIsStar r || hasPair r
  end.

(** [s] contains a lone asterisk, one with no asterisk right before or
    right after it; [prevStar] tells whether the code unit before [s] is
    an asterisk. *)
Fixpoint hasLoneStar (prevStar : bool) (s : jsstring) : bool :=
  match s with
  | [] => false
  | c :: r =>
      (c =? cSTAR)%N && negb prevStar && negb (headIsStar r)
      || hasLoneStar (c =? cSTAR)%N r
  end.

(** [s] contains four consecutive asterisks. *)
Fixpoint fourStars (s : jsstring) : bool :=
  match s with
  | [] => false
  | _ :: r => startsWith (js "****") s || fourStars r
  end.

(** The paragraph units the converter turns into blocks. *)
Definition paragraphsOf (markdown : jsstring) : list jsstring :=
  filter (fun p => truthy (trim p)) (split nlnl (cleanMarkdown markdown)).

(** ** The specification's reading of a paragraph *)

(** Section 4.3 in the specification's words: a pair of asterisks and a
    lone asterisk are markers and are dropped, every other code unit is
    kept. *)
Fixpoint removeEmphasisFrom (prevStar : bool) (s : jsstring) : jsstring :=
  match s with
  | [] => []
  | c :: r =>
      if (c =? cSTAR)%N && headIsStar r then
        match r with
        | _ :: r' => removeEmphasisFrom true r'
        | [] => []
        end
      else if (c =? cSTAR)%N && negb prevStar && negb (headIsStar r) then
        removeEmphasisFrom true r
      else c :: removeEmphasisFrom (c =? cSTAR)%N r
  end.

Definition removeEmphasisMarkers (s : jsstring) : jsstring :=
  removeEmphasisFrom false s.

(** The code units of [s] other than asterisks. *)
Definition withoutStars (s : jsstring) : jsstring :=
  filter (fun c => negb (c =? cSTAR)%N) s.

(** Section 4.2 in the specification's words: the texts of the blocks of a
    paragraph unit, with the structural marker of the first matching rule
    stripped.  With [trimmed] the whitespace next to the marker goes with
    it: heading 2 to 4 and quote texts are trimmed, and a list marker takes
    all the whitespace that follows it. *)
Definition withoutStructuralMarkers (trimmed : bool) (p : jsstring)
  : list jsstring :=
  let tr := fun s => if trimmed then trim s else s in
  if startsWith (js "# ") p then [skipn 2 p]
  else if startsWith (js "## ") p then [tr (skipn 3 p)]
  else if test (matchPseudoHeading 50) p then [tr (skipn 3 p)]
  else if startsWith (js "### ") p then [tr (skipn 4 p)]
  else if test (matchPseudoHeading 51) p then [tr (skipn 3 p)]
  else if startsWith (js "#### ") p then [tr (skipn 5 p)]
  else if test (matchPseudoHeading 52) p then [tr (skipn 3 p)]
  else if startsWith (js "> ") p then [tr (skipn 2 p)]
  else if startsWith (js "&gt; ") p then [tr (skipn 5 p)]
  else if test (matchBullet false) p then
    map (stripMatch (matchBullet trimmed))
        (filter (test (matchBullet false)) (split nl p))
  else if test (matchNumbered false) p then
    map (stripMatch (matchNumbered trimmed))
        (filter (test (matchNumbered false)) (split nl p))
  else [p].

(** The first line of a paragraph unit. *)
Definition firstLine (p : jsstring) : jsstring :=
  takeWhile (fun c => negb (c =? cNL)%N) p.

(** ** The part of the callback that draws no random number

    What [blockOfParagraph] hands to [makeBlock]: style, list fields and
    the text that is tokenized, for each block of the paragraph. *)

Definition Source : Type := Style * option ListItem * option Z * jsstring.

Definition blockSources (paragraph : jsstring) : list Source :=
  if startsWith (js "# ") paragraph then
    [(h1, None, None, replaceFirst (js "# ") [] paragraph)]
  else if isHeading (js "## ") 50 paragraph then
    [(h2, None, None, trim (headingText (js "## ") 50 paragraph))]
  else if isHeading (js "### ") 51 paragraph then
    [(h3, None, None, trim (headingText (js "### ") 51 paragraph))]
  else if isHeading (js "#### ") 52 paragraph then
    [(h4, None, None, trim (headingText (js "#### ") 52 paragraph))]
  else if startsWith (js "> ") paragraph
          || startsWith (js "&gt; ") paragraph then
    [(blockquote, None, None, trim (stripQuoteMarker paragraph))]
  else if test (matchBullet false) paragraph then
    map (fun item => (normal, Some bullet, Some 1%Z,
                      stripMatch (matchBullet true) item))
        (filter (test (matchBullet false)) (split nl paragraph))
  else if test (matchNumbered false) paragraph then
    map (fun item => (normal, Some number, Some 1%Z,
                      stripMatch (matchNumbered true) item))
        (filter (test (matchNumbered false)) (split nl paragraph))
  else [(normal, None, None, paragraph)].

Definition sourceText (s : Source) : jsstring := snd s.

(** The block of a source, up to its key. *)
Definition tokenizeSource (s : Source)
  : Style * option ListItem * option Z * list PortableTextSpan :=
  let '(st, li, lv, t) := s in (st, li, lv, tokenize t).

Definition flatOne (x : PortableTextBlock + list PortableTextBlock)
  : list PortableTextBlock :=
  match x with inl b => [b] | inr bs => bs end.

(** ** The invariant of the scan for neighbouring marks *)

(** The last span pushed, if any. *)
Definition lastSpan (l : list PortableTextSpan) : option PortableTextSpan :=
  hd_error (rev l).

(** The marks a span flushed from [st] would carry differ from those of
    the last span pushed. *)
Definition freshMarks (st : ScanState) : Prop :=
  match lastSpan (segments st) with
  | Some y =>
      sameMarks y (mkSpan [] (Some (marksOf (isBold st) (isItalic st))))
      = false
  | None => True
  end.

(** The scanner is about to read a marker. *)
Definition atMarker (ps : bool) (s : jsstring) : bool :=
  match s with
  | [] => false
  | c :: r => (c =? cSTAR)%N && (headIsStar r || negb ps)
  end.

Definition scanInv (ps : bool) (s : jsstring) (st : ScanState) : Prop :=
  distinctNeighbours (segments st) = true
  /\ freshMarks st
  /\ (segments st <> [] -> currentText st = [] -> atMarker ps s = false).

(** No line terminator in [s]. *)
Definition noLineTerminator (s : jsstring) : bool :=
  forallb (fun c => negb (isLineTerminator c)) s.

(** ** Runs of asterisks *)

(** [t] occurs in [s] as a contiguous piece. *)
Definition substring (t s : jsstring) : Prop :=
  exists a b, s = a ++ t ++ b.

(** No four consecutive asterisks in [s] when [k] asterisks precede it. *)
Fixpoint quadFree (k : nat) (s : jsstring) : bool :=
  match s with
  | [] => true
  | c :: r => if (c =? cSTAR)%N then (S k <? 4) && quadFree (S k) r
              else quadFree 0 r
  end.

(** ** Observations on slugs *)

(** A lowercase ASCII letter, a digit, an underscore or a hyphen. *)
Definition slugChar (c : N) : bool :=
  isLower c || isDigit c || (c =? cUNDERSCORE)%N || (c =? cDASH)%N.

Definition headIsDash (s : jsstring) : bool :=
  match s with c :: _ => (c =? cDASH)%N | [] => false end.

(** No two consecutive hyphens. *)
Fixpoint noDoubleHyphen (s : jsstring) : bool :=
  match s with
  | [] => true
  | c :: r => negb ((c =? cDASH)%N && headIsDash r) && noDoubleHyphen r
  end.

(** * The rest of the pipeline *)

(** ** Observations on keys and spans *)

(** An ASCII letter or digit. *)
Definition isAlnum (c : N) : bool := isLower c || isUpper c || isDigit c.

(** The key [generateKey] builds from the draws [k], [k + 1], ...,
    [k + n - 1]. *)
Definition keyAt (random : nat -> nat) (k n : nat) : jsstring :=
  flat_map (fun j => charAt chars (random j)) (seq k n).

(** The mark lists the tokenizer can build. *)
Definition canonicalMarks (m : option (list Mark)) : Prop :=
  m = Some [] \/ m = Some [strong] \/ m = Some [em] \/ m = Some [strong; em].

(** A span pushed by the scanner: it has text, and marks in canonical
    order. *)
Definition properSpan (sp : PortableTextSpan) : Prop :=
  text sp <> [] /\ canonicalMarks (marks sp).

(** The span of a piece of text, if the piece is not empty. *)
Definition spanOf (t : jsstring) (m : list Mark) : list PortableTextSpan :=
  if truthy t then [mkSpan t (Some m)] else [].

(** The draws a run can make: [Math.floor(Math.random() * chars.length)]
    lies below [chars.length]. *)
Definition drawsInRange (random : nat -> nat) : Prop :=
  forall j, random j < length chars.

(** The keys of [n] blocks made one after the other from draw [k] on. *)
Definition keysFrom (random : nat -> nat) (k n : nat) : list jsstring :=
  map (fun i => keyAt random (k + defaultKeyLength * i) defaultKeyLength)
      (seq 0 n).

(** ** Runs of newlines *)

Definition headIsNewline (s : jsstring) : bool :=
  match s with c :: _ => (c =? cNL)%N | [] => false end.

(** What the replacement of [/\n{3,}/g] by two newlines comes to, read one
    code unit at a time: [k] newlines of the current run have been read,
    and a newline is kept when it is the first or the second of its run.
    Proved equal to [replaceAll matchNewlines] below. *)
Fixpoint collapseFrom (k : nat) (s : jsstring) : jsstring :=
  match s with
  | [] => []
  | c :: r =>
      if (c =? cNL)%N
      then if k <? 2 then c :: collapseFrom (S k) r else collapseFrom (S k) r
      else c :: collapseFrom 0 r
  end.

(** The length of the run of newlines at the end of [a], after [k]. *)
Fixpoint trailingNewlines (k : nat) (a : jsstring) : nat :=
  match a with
  | [] => k
  | c :: r => trailingNewlines (if (c =? cNL)%N then S k else 0) r
  end.

(** [s] contains three consecutive newlines. *)
Fixpoint threeNewlines (s : jsstring) : bool :=
  match s with
  | [] => false
  | _ :: r => startsWith [cNL; cNL; cNL] s || threeNewlines r
  end.

(** No three consecutive newlines in [s] when [k] newlines precede it. *)
Fixpoint tripleFree (k : nat) (s : jsstring) : bool :=
  match s with
  | [] => true
  | c :: r => if (c =? cNL)%N then (S k <? 3) && tripleFree (S k) r
              else tripleFree 0 r
  end.

(** ** Keywords *)

Definition cCOMMA : N := 44.

(** [arr.join(sep)] on an array of strings. *)
Fixpoint join (sep : jsstring) (l : list jsstring) : jsstring :=
  match l with
  | [] => []
  | [a] => a
  | a :: l' => a ++ sep ++ join sep l'
  end.

(** [extractKeywords(keywordsString?)]; [None] is the missing argument.
    The newer content module builds its [keywordsArray] by the same
    expression. *)
Definition extractKeywords (keywordsString : option jsstring)
  : list jsstring :=
  match keywordsString with
  | None => []
  | Some s =>
      if negb (truthy s) then []
      else filter truthy (map trim (split [cCOMMA] s))
  end.

(** A keyword as [extractKeywords] returns them: not empty, without comma
    and without whitespace at either end. *)
Definition cleanKeyword (k : jsstring) : Prop :=
  k <> [] /\ ~ In cCOMMA k /\ trim k = k.

(** ** [fetchWithRetry] *)

Section Retry.

(** The type of the values [fn] resolves to, the type of what it throws,
    and the numbers of the runtime with their multiplication by 1.5. *)
Variables T E Num : Type.
Variable timesOneAndHalf : Num -> Num.

(** [fn k] is the outcome of the call of [fn] that follows [k] earlier
    calls: a value, or something thrown. *)
Variable fn : nat -> T + E.

(** The variables of the loop, the number of calls of [fn] made, and the
    delays waited for so far ([console.warn] is left out).  [lastError] is
    [None] until it is assigned. *)
Record RetryState := mkRetry {
  attempt : Z;
  calls : nat;
  delay : Num;
  lastError : option E;
  waits : list Num
}.

Inductive RetryResult :=
| Returned (value : T)
| Thrown (error : option E).

(** [for (let attempt = 1; attempt <= maxRetries; attempt++)] with its
    [try] and [catch], and the [throw lastError] after it. *)
Fixpoint retryLoop (fuel : nat) (maxRetries : Z) (st : RetryState)
  : option (RetryResult * RetryState) :=
  if (attempt st <=? maxRetries)%Z then
    match fuel with
    | O => None
    | S fuel' =>
        match fn (calls st) with
        | inl value =>
            Some (Returned value,
                  mkRetry (attempt st) (S (calls st)) (delay st)
                          (lastError st) (waits st))
        | inr err =>
            retryLoop fuel' maxRetries
              (mkRetry (attempt st + 1) (S (calls st))
                       (timesOneAndHalf (delay st)) (Some err)
                       (waits st ++ [delay st]))
        end
    end
  else Some (Thrown (lastError st), st).

Definition fetchWithRetry (maxRetries : Z) (delay0 : Num)
  : option (RetryResult * RetryState) :=
  retryLoop (Z.to_nat maxRetries) maxRetries (mkRetry 1 0 delay0 None []).

(** The delays of [n] waits in a row that start with [d]. *)
Fixpoint backoff (n : nat) (d : Num) : list Num :=
  match n with
  | O => []
  | S n' => d :: backoff n' (timesOneAndHalf d)
  end.

End Retry.

Arguments mkRetry {E Num}.
Arguments attempt {E Num}.
Arguments calls {E Num}.
Arguments delay {E Num}.
Arguments lastError {E Num}.
Arguments waits {E Num}.
Arguments Returned {T E}.
Arguments Thrown {T E}.
Arguments retryLoop {T E Num}.
Arguments fetchWithRetry {T E Num}.
Arguments backoff {Num}.

(** What the call of [fn] after [k] earlier ones throws, if it throws. *)
Definition thrownAt {T E : Type} (fn : nat -> T + E) (k : nat) : option E :=
  match fn k with inr e => Some e | inl _ => None end.

(** The first calls of [fn] throw the errors [errs], in this order. *)
Definition failsWith {T E : Type} (fn : nat -> T + E) (errs : list E) : Prop :=
  forall i e, nth_error errs i = Some e -> fn i = inr e.

(** ** The document ID of [publishToSanity] *)

(** [a === b] on strings. *)
Fixpoint jsstring_eqb (a b : jsstring) : bool :=
  match a, b with
  | [], [] => true
  | x :: a', y :: b' => (x =? y)%N && jsstring_eqb a' b'
  | _, _ => false
  end.

(** The truth value of an optional string: [undefined] and [''] are
    falsy. *)
Definition truthyOpt (o : option jsstring) : bool :=
  match o with Some s => truthy s | None => false end.

(** An element of [results]; [document] holds the [_id] of the document
    object when there is one. *)
Record SanityResult := mkResult {
  res_id : option jsstring;
  operation : jsstring;
  document : option (option jsstring)
}.

(** The parsed response; a field that the JSON may lack is optional. *)
Record SanityMutationResponse := mkResponse {
  transactionId : option jsstring;
  results : option (list SanityResult)
}.

(** The part of [publishToSanity] that follows the parsing of the
    response: the document ID returned, or the message of the error
    thrown, as rewrapped by the [catch] around it. *)
Definition documentIdOf (random : nat -> nat) (slug : jsstring)
    (result : SanityMutationResponse) : M (jsstring + jsstring) :=
  match results result with
  | Some (firstResult :: _) =>
      if truthyOpt (res_id firstResult) then
        ret (inl (match res_id firstResult with Some i => i | None => [] end))
      else if match document firstResult with
              | Some d => truthyOpt d
              | None => false
              end then
        ret (inl (match document firstResult with
                  | Some (Some i) => i
                  | _ => []
                  end))
      else if jsstring_eqb (operation firstResult) (js "create") then
        bind (generateKey random 8) (fun key =>
        ret (inl (js "post." ++ slug ++ js "-" ++ key)))
      else
        bind (generateKey random 8) (fun key =>
        ret (inl (js "post.unknown-" ++ key)))
  | _ =>
      if truthyOpt (transactionId result) then
        ret (inl (js "post.transaction-"
                  ++ match transactionId result with
                     | Some t => t
                     | None => []
                     end))
      else
        ret (inr (js "Failed to publish to Sanity: Could not determine document ID from Sanity response"))
  end.

(** ** The file name of an uploaded image *)

(** [/[^a-z0-9]/gi]: without the [u] flag the letters the class matches
    under [i] are the ASCII letters. *)
Definition matchNotAlnum (s : jsstring) : option (nat * jsstring) :=
  match s with
  | c :: _ => if isAlnum c then None else Some (1, [cUNDERSCORE])
  | [] => None
  end.

(** [`${altText.replace(/[^a-z0-9]/gi, '_')}.jpg`], the value of the
    header [X-Sanity-Image-Filename] in [uploadImageToSanity]. *)
Definition imageFilename (altText : jsstring) : jsstring :=
  replaceAll matchNotAlnum altText ++ js ".jpg".

(** What the replacement does to one code unit. *)
Definition sanitizeChar (c : N) : N := if isAlnum c then c else cUNDERSCORE.

(** ** Hash headings *)

Definition cHASH : N := 35.
Definition cSPACE : N := 32.

(** A paragraph unit that starts with [n] hashes and a space. *)
Definition hashParagraph (n : nat) (t : jsstring) : jsstring :=
  repeat cHASH n ++ cSPACE :: t.

(** The style such a unit gets and the text that is tokenized. *)
Definition hashHeading (n : nat) (t : jsstring) : Style * jsstring :=
  match n with
  | 1 => (h1, t)
  | 2 => (h2, trim t)
  | 3 => (h3, trim t)
  | 4 => (h4, trim t)
  | _ => (normal, hashParagraph n t)
  end.

(** ** Pseudo-headings of every level *)

(** [**H<d>:<content>**], the heading in bold markers the preprocessor
    looks for, and [H<d>:<content>], the line it rewrites it to. *)
Definition boldPseudoHeading (d : N) (content : jsstring) : jsstring :=
  js "**H" ++ [d] ++ js ":" ++ content ++ js "**".

Definition pseudoHeadingLine (d : N) (content : jsstring) : jsstring :=
  js "H" ++ [d] ++ js ":" ++ content.

(** The style the line gets and the text that is tokenized: the digits 2,
    3 and 4 alone name a heading. *)
Definition pseudoHeading (d : N) (content : jsstring) : Style * jsstring :=
  if (d =? 50)%N then (h2, trim content)
  else if (d =? 51)%N then (h3, trim content)
  else if (d =? 52)%N then (h4, trim content)
  else (normal, pseudoHeadingLine d content).

Definition noNewline (s : jsstring) : bool :=
  forallb (fun c => negb (c =? cNL)%N) s.

(** * Properties *)

(** ** The loop and the recursion agree *)

Lemma skipn_cons_nth (text : jsstring) (n : nat) (c : N) (r : jsstring) :
  skipn n text = c :: r ->
  nth_error text n = Some c /\ skipn (S n) text = r /\ n < length text.
Proof.
  revert text; induction n as [|n IH]; intros [|d text] H; simpl in *;
    try discriminate.
  - inversion H; subst. repeat split; lia.
  - destruct (IH _ H) as (H1 & H2 & H3). repeat split; auto. lia.
Qed.

Lemma skipn_all_nil (text : jsstring) (n : nat) :
  skipn n text = [] -> length text <= n.
Proof.
  revert text; induction n as [|n IH]; intros [|d text] H; simpl in *;
    try discriminate; try lia.
  apply IH in H. lia.
Qed.

Lemma isStarAt_skipn (text : jsstring) (n : nat) :
  isStarAt text (Z.of_nat n) = headIsStar (skipn n text).
Proof.
  unfold isStarAt, charAtIndex.
  destruct (Z.ltb_spec (Z.of_nat n) 0) as [H|_]; [lia|].
  rewrite Nat2Z.id.
  revert text; induction n as [|n IH]; intros [|d text]; simpl; auto.
Qed.

Lemma scanLoop_scanFrom (fuel : nat) :
  forall (text : jsstring) (st : ScanState) (n : nat),
    idx st = Z.of_nat n ->
    n <= length text ->
    length text - n <= fuel ->
    scanLoop fuel text st
    = Some (scanFrom (isStarAt text (idx st - 1)) (skipn n text) st).
Proof.
  induction fuel as [|fuel IH]; intros text st n Hidx Hle Hfuel.
  - simpl. destruct (Z.ltb_spec (idx st) (Z.of_nat (length text))); [lia|].
    replace n with (length text) by lia. now rewrite skipn_all.
  - simpl. destruct (Z.ltb_spec (idx st) (Z.of_nat (length text))) as [Hlt|Hge].
    2:{ replace n with (length text) by lia. now rewrite skipn_all. }
    destruct (skipn n text) as [|c r] eqn:Hs.
    { apply skipn_all_nil in Hs. lia. }
    destruct (skipn_cons_nth _ _ _ _ Hs) as (Hc & Hr & Hn).
    assert (HB : isStarAt text (idx st) = (c =? cSTAR)%N).
    { rewrite Hidx, isStarAt_skipn, Hs. reflexivity. }
    assert (HC : isStarAt text (idx st + 1) = headIsStar r).
    { rewrite Hidx. replace (Z.of_nat n + 1)%Z with (Z.of_nat (S n)) by lia.
      now rewrite isStarAt_skipn, Hr. }
    assert (HA : headIsStar r = true ->
                 (idx st <? Z.of_nat (length text) - 1)%Z = true).
    { intros Hh. destruct r as [|c' r']; [discriminate|].
      destruct (skipn_cons_nth _ _ _ _ Hr) as (_ & _ & Hn').
      apply Z.ltb_lt. lia. }
    assert (HP : ((idx st =? 0)%Z || negb (isStarAt text (idx st - 1)))
                 = negb (isStarAt text (idx st - 1))).
    { destruct (Z.eqb_spec (idx st) 0) as [H0|]; [|reflexivity].
      rewrite H0. reflexivity. }
    assert (HE : ((idx st =? Z.of_nat (length text) - 1)%Z
                  || negb (headIsStar r)) = negb (headIsStar r)).
    { destruct (Z.eqb_spec (idx st) (Z.of_nat (length text) - 1)) as [He|];
        [|reflexivity].
      destruct r as [|c' r']; [reflexivity|].
      destruct (skipn_cons_nth _ _ _ _ Hr) as (_ & _ & Hn'). lia. }
    unfold loopBody. rewrite HB, HC, HP, HE.
    cbn [scanFrom].
    destruct ((c =? cSTAR)%N && headIsStar r) eqn:Hbold.
    + apply andb_prop in Hbold as [Hcs Hh].
      rewrite (HA Hh), Hcs, Hh. cbn [andb].
      destruct r as [|c' r']; [discriminate|].
      destruct (skipn_cons_nth _ _ _ _ Hr) as (_ & Hr' & Hn').
      rewrite (IH text _ (S (S n))); cbn [idx increment]; try lia.
      rewrite Hr'.
      replace (idx st + 1 + 1 - 1)%Z with (idx st + 1)%Z by lia.
      rewrite HC, Hh. unfold onBold, increment. cbn [idx segments currentText isBold isItalic].
      replace (idx st + 1 + 1)%Z with (idx st + 2)%Z by lia.
      reflexivity.
    + replace ((idx st <? Z.of_nat (length text) - 1)%Z && (c =? cSTAR)%N
               && headIsStar r) with false.
      2:{ rewrite <- andb_assoc, Hbold. now rewrite andb_false_r. }
      destruct ((c =? cSTAR)%N && negb (isStarAt text (idx st - 1))
                && negb (headIsStar r)) eqn:Hit.
      * rewrite (IH text _ (S n)); cbn [idx increment]; try lia.
        rewrite Hr.
        replace (idx st + 1 - 1)%Z with (idx st) by lia.
        rewrite HB.
        apply andb_prop in Hit as [Hit _]. apply andb_prop in Hit as [Hcs _].
        rewrite Hcs. reflexivity.
      * rewrite (IH text _ (S n)); cbn [idx increment]; try lia.
        rewrite Hr. unfold charAtIndex.
        destruct (Z.ltb_spec (idx st) 0); [lia|].
        replace (idx st + 1 - 1)%Z with (idx st) by lia.
        rewrite HB.
        replace (Z.to_nat (idx st)) with n by lia. rewrite Hc.
        reflexivity.
Qed.

Theorem processBoldAndEmphasis_tokenize (text : jsstring) :
  processBoldAndEmphasis text = Some (tokenize text).
Proof.
  unfold processBoldAndEmphasis, tokenize.
  rewrite (scanLoop_scanFrom (length text) text initScan 0); simpl; try lia.
  reflexivity.
Qed.

(** ** Running the converter *)

Section Runs.

Variable random : nat -> nat.

Lemma generateKey_loop_run (n : nat) :
  forall (result : jsstring) (k : nat),
    exists key, generateKey_loop random n result k = Some (key, k + n).
Proof.
  induction n as [|n IH]; intros result k.
  - exists result. simpl. unfold ret. now rewrite Nat.add_0_r.
  - simpl. unfold bind, draw.
    destruct (IH (result ++ charAt chars (random k)) (S k)) as [key Hk].
    exists key. rewrite Hk. f_equal. f_equal. lia.
Qed.

Lemma makeBlock_run (st : Style) (li : option ListItem) (lv : option Z)
    (content : jsstring) (k : nat) :
  exists key,
    makeBlock random st li lv content k
    = Some (mkBlock key st li lv (tokenize content), k + defaultKeyLength).
Proof.
  unfold makeBlock, bind, generateKey.
  destruct (generateKey_loop_run defaultKeyLength [] k) as [key Hk].
  exists key. rewrite Hk. unfold lift.
  now rewrite processBoldAndEmphasis_tokenize.
Qed.

Lemma mapM_run {A B : Type} (f : A -> M B) (R : A -> B -> Prop) :
  (forall a k, exists b k', f a k = Some (b, k') /\ R a b) ->
  forall l k, exists bs k', mapM f l k = Some (bs, k') /\ Forall2 R l bs.
Proof.
  intros Hf; induction l as [|a l IH]; intros k.
  - exists [], k. split; [reflexivity|constructor].
  - destruct (Hf a k) as (b & k1 & Hb & HR).
    destruct (IH k1) as (bs & k2 & Hbs & HRs).
    exists (b :: bs), k2. split; [|now constructor].
    simpl. unfold bind. rewrite Hb, Hbs. reflexivity.
Qed.

Lemma Forall2_map_eq {A B C : Type} (f : A -> C) (g : B -> C) l l' :
  Forall2 (fun a b => g b = f a) l l' -> map g l' = map f l.
Proof. induction 1; simpl; congruence. Qed.

Lemma mapM_makeBlock_run (st : Style) (li : option ListItem)
    (lv : option Z) (g : jsstring -> jsstring) (items : list jsstring)
    (k : nat) :
  exists bs k',
    mapM (fun item => makeBlock random st li lv (g item)) items k
    = Some (bs, k')
    /\ map eraseKey bs
       = map (fun item => tokenizeSource (st, li, lv, g item)) items.
Proof.
  destruct (mapM_run (fun item => makeBlock random st li lv (g item))
              (fun item b => eraseKey b = tokenizeSource (st, li, lv, g item)))
    with (l := items) (k := k) as (bs & k' & Hrun & HR).
  - intros a k0. destruct (makeBlock_run st li lv (g a) k0) as [key Hk].
    eexists _, _. split; [exact Hk|reflexivity].
  - exists bs, k'. split; [exact Hrun|].
    now apply Forall2_map_eq.
Qed.

Lemma blockOfParagraph_run (paragraph : jsstring) (k : nat) :
  exists x k',
    blockOfParagraph random paragraph k = Some (x, k')
    /\ map eraseKey (flatOne x) = map tokenizeSource (blockSources paragraph).
Proof.
  unfold blockOfParagraph, blockSources.
  repeat match goal with
  | |- context [if ?c then _ else _] => destruct c
  end;
  match goal with
  | |- context [mapM _ ?items] =>
      unfold bind;
      match goal with
      | |- context [makeBlock random ?st ?li ?lv (?g _)] =>
          destruct (mapM_makeBlock_run st li lv g items k)
            as (bs & k' & Hrun & Hmap)
      end;
      exists (inr bs), k'; rewrite Hrun; split; [reflexivity|];
      simpl flatOne; rewrite Hmap, map_map; reflexivity
  | |- context [makeBlock random ?st ?li ?lv ?content] =>
      unfold bind;
      destruct (makeBlock_run st li lv content k) as [key Hk];
      eexists (inl _), _; rewrite Hk; split; reflexivity
  end.
Qed.

Lemma flat_flatOne l : flat l = flat_map flatOne l.
Proof. reflexivity. Qed.

Lemma markdownToPortableText_run (markdown : jsstring) (k : nat) :
  exists doc k',
    markdownToPortableText random markdown k = Some (doc, k')
    /\ map eraseKey doc
       = map tokenizeSource (flat_map blockSources (paragraphsOf markdown)).
Proof.
  unfold markdownToPortableText, bind. fold (paragraphsOf markdown).
  destruct (mapM_run (blockOfParagraph random)
              (fun p x => map eraseKey (flatOne x)
                          = map tokenizeSource (blockSources p)))
    with (l := paragraphsOf markdown) (k := k) as (xs & k' & Hrun & HR).
  - intros p k0. destruct (blockOfParagraph_run p k0) as (x & k1 & H1 & H2).
    now exists x, k1.
  - exists (flat xs), k'. rewrite Hrun. split; [reflexivity|].
    rewrite flat_flatOne. clear Hrun.
    induction HR as [|p x ps xs' Hpx _ IH]; [reflexivity|].
    simpl. rewrite !map_app. congruence.
Qed.

End Runs.

(** ** Reasoning along the scan *)

Lemma headIsStar_true (s : jsstring) :
  headIsStar s = true -> exists r, s = cSTAR :: r.
Proof.
  destruct s as [|c r]; simpl; [discriminate|].
  intros H; apply N.eqb_eq in H. subst. now exists r.
Qed.

(** The three moves of the scanner as an induction principle. *)
Lemma scan_ind (P : bool -> jsstring -> Prop) :
  (forall ps, P ps []) ->
  (forall ps r, P true r -> P ps (cSTAR :: cSTAR :: r)) ->
  (forall r, headIsStar r = false -> P true r -> P false (cSTAR :: r)) ->
  (forall ps c r,
      (c =? cSTAR)%N && headIsStar r = false ->
      (c =? cSTAR)%N && negb ps && negb (headIsStar r) = false ->
      P (c =? cSTAR)%N r -> P ps (c :: r)) ->
  forall s ps, P ps s.
Proof.
  intros Hnil Hbold Hitalic Hchar s.
  assert (H : forall n s, length s <= n -> forall ps, P ps s).
  { induction n as [|n IH]; intros [|c r] Hlen ps; simpl in Hlen;
      try apply Hnil; try lia.
    destruct ((c =? cSTAR)%N && headIsStar r) eqn:Hb.
    - apply andb_prop in Hb as [Hc Hh]. apply N.eqb_eq in Hc.
      apply headIsStar_true in Hh as [r' ->]. subst c.
      apply Hbold, IH. simpl in Hlen. lia.
    - destruct ((c =? cSTAR)%N && negb ps && negb (headIsStar r)) eqn:Hi.
      + apply andb_prop in Hi as [Hi Hh]. apply andb_prop in Hi as [Hc Hps].
        apply N.eqb_eq in Hc. subst c.
        destruct ps; [discriminate|].
        apply negb_true_iff in Hh.
        apply Hitalic; [exact Hh|]. apply IH. lia.
      + apply Hchar; auto. apply IH. lia. }
  intros ps. now apply (H (length s)).
Qed.

Lemma scanFrom_bold ps r st :
  scanFrom ps (cSTAR :: cSTAR :: r) st = scanFrom true r (onBold st).
Proof. reflexivity. Qed.

Lemma scanFrom_italic r st :
  headIsStar r = false ->
  scanFrom false (cSTAR :: r) st = scanFrom true r (onItalic st).
Proof. intros H. cbn [scanFrom]. rewrite H. reflexivity. Qed.

Lemma scanFrom_char ps c r st :
  (c =? cSTAR)%N && headIsStar r = false ->
  (c =? cSTAR)%N && negb ps && negb (headIsStar r) = false ->
  scanFrom ps (c :: r) st = scanFrom (c =? cSTAR)%N r (onChar c st).
Proof. intros H1 H2. cbn [scanFrom]. rewrite H1, H2. reflexivity. Qed.

Lemma removeEmphasisFrom_bold ps r :
  removeEmphasisFrom ps (cSTAR :: cSTAR :: r) = removeEmphasisFrom true r.
Proof. reflexivity. Qed.

Lemma removeEmphasisFrom_italic r :
  headIsStar r = false ->
  removeEmphasisFrom false (cSTAR :: r) = removeEmphasisFrom true r.
Proof. intros H. cbn [removeEmphasisFrom]. rewrite H. reflexivity. Qed.

Lemma removeEmphasisFrom_char ps c r :
  (c =? cSTAR)%N && headIsStar r = false ->
  (c =? cSTAR)%N && negb ps && negb (headIsStar r) = false ->
  removeEmphasisFrom ps (c :: r) = c :: removeEmphasisFrom (c =? cSTAR)%N r.
Proof. intros H1 H2. cbn [removeEmphasisFrom]. rewrite H1, H2. reflexivity. Qed.

(** ** What the spans spell *)

Lemma spanText_app l l' : spanText (l ++ l') = spanText l ++ spanText l'.
Proof. unfold spanText. now rewrite flat_map_app. Qed.

(** Flushing moves the buffer into the spans and loses nothing. *)
Lemma flush_text st :
  spanText (segments (flush st)) ++ currentText (flush st)
  = spanText (segments st) ++ currentText st.
Proof.
  unfold flush. destruct (currentText st) as [|c cur] eqn:Hcur; simpl.
  - now rewrite Hcur.
  - rewrite spanText_app. simpl. now rewrite !app_nil_r.
Qed.

Lemma flush_empty st : currentText (flush st) = [].
Proof.
  unfold flush. destruct (currentText st) eqn:Hcur; simpl; auto.
Qed.

Lemma scanFrom_text s ps :
  forall st,
    let st' := scanFrom ps s st in
    spanText (segments st') ++ currentText st'
    = spanText (segments st) ++ currentText st ++ removeEmphasisFrom ps s.
Proof.
  revert s ps. apply (scan_ind (fun ps s => forall st, _)); cbv zeta.
  - intros ps st. simpl. now rewrite app_nil_r.
  - intros ps r IH st. rewrite scanFrom_bold, removeEmphasisFrom_bold, IH.
    unfold onBold; cbn [segments currentText].
    rewrite app_assoc, flush_text. now rewrite app_assoc.
  - intros r Hh IH st.
    rewrite scanFrom_italic, removeEmphasisFrom_italic, IH by exact Hh.
    unfold onItalic; cbn [segments currentText].
    rewrite app_assoc, flush_text. now rewrite app_assoc.
  - intros ps c r H1 H2 IH st.
    rewrite scanFrom_char, removeEmphasisFrom_char, IH by assumption.
    unfold onChar; cbn [segments currentText].
    now rewrite <- !app_assoc.
Qed.

Lemma finish_text st :
  spanText (finish st) = spanText (segments st) ++ currentText st.
Proof.
  unfold finish. rewrite <- flush_text, flush_empty, app_nil_r.
  destruct (segments (flush st)); reflexivity.
Qed.

Lemma tokenize_text (t : jsstring) :
  spanText (tokenize t) = removeEmphasisMarkers t.
Proof.
  unfold tokenize. rewrite finish_text.
  exact (scanFrom_text t false initScan).
Qed.

Lemma finish_nonempty st : 1 <= length (finish st).
Proof.
  unfold finish. destruct (segments (flush st)); simpl; lia.
Qed.

Lemma tokenize_nonempty (t : jsstring) : 1 <= length (tokenize t).
Proof. apply finish_nonempty. Qed.

(** ** Marks of neighbouring spans *)

Lemma hasMark_strong t b i :
  hasMark strong (mkSpan t (Some (marksOf b i))) = b.
Proof. destruct b, i; reflexivity. Qed.

Lemma hasMark_em t b i :
  hasMark em (mkSpan t (Some (marksOf b i))) = i.
Proof. destruct b, i; reflexivity. Qed.

Lemma lastSpan_snoc l x : lastSpan (l ++ [x]) = Some x.
Proof. unfold lastSpan. now rewrite rev_app_distr. Qed.

Lemma distinctNeighbours_snoc l x :
  distinctNeighbours (l ++ [x])
  = distinctNeighbours l
    && match lastSpan l with
       | Some y => negb (sameMarks y x)
       | None => true
       end.
Proof.
  induction l as [|a [|b l] IH].
  - reflexivity.
  - simpl. now rewrite andb_true_r.
  - change (distinctNeighbours ((a :: b :: l) ++ [x]))
      with (negb (sameMarks a b) && distinctNeighbours ((b :: l) ++ [x])).
    rewrite IH. cbn [distinctNeighbours]. rewrite andb_assoc.
    f_equal. unfold lastSpan. simpl.
    destruct (rev l ++ [b]) eqn:E; [now destruct (rev l)|reflexivity].
  Qed.

Lemma sameMarks_text a t t' m :
  sameMarks a (mkSpan t m) = sameMarks a (mkSpan t' m).
Proof. reflexivity. Qed.

Lemma flush_distinct st :
  distinctNeighbours (segments st) = true -> freshMarks st ->
  distinctNeighbours (segments (flush st)) = true.
Proof.
  intros Hd Hf. unfold flush. destruct (truthy (currentText st)); auto.
  cbn [segments]. rewrite distinctNeighbours_snoc, Hd. simpl.
  unfold freshMarks in Hf. destruct (lastSpan (segments st)); auto.
  rewrite (sameMarks_text _ _ []), Hf. reflexivity.
Qed.

(** After a toggle the marks differ from those of a span just flushed. *)
Lemma flush_toggle_fresh st b i :
  freshMarks st ->
  (segments st <> [] -> currentText st <> []) ->
  (b = negb (isBold st) /\ i = isItalic st)
  \/ (b = isBold st /\ i = negb (isItalic st)) ->
  freshMarks (mkScan (idx st) (segments (flush st)) (currentText (flush st))
                     b i).
Proof.
  intros Hf Hne Ht. unfold freshMarks, flush. cbn [segments isBold isItalic].
  destruct (currentText st) as [|c cur] eqn:Hcur; cbn [truthy segments].
  - destruct (lastSpan (segments st)) eqn:Hl; [|exact I].
    exfalso. destruct (segments st); [discriminate|].
    now apply Hne.
  - rewrite lastSpan_snoc. unfold sameMarks.
    rewrite !hasMark_strong, !hasMark_em.
    destruct Ht as [[-> ->]|[-> ->]];
      destruct (isBold st), (isItalic st); reflexivity.
Qed.

Lemma fourStars_tail c r : fourStars (c :: r) = false -> fourStars r = false.
Proof.
  cbn [fourStars]. intros H. apply orb_false_elim in H. tauto.
Qed.

Lemma scanFrom_distinct s ps :
  forall st,
    fourStars s = false ->
    scanInv ps s st ->
    distinctNeighbours (segments (flush (scanFrom ps s st))) = true.
Proof.
  revert s ps.
  apply (scan_ind (fun ps s => forall st, fourStars s = false ->
                                          scanInv ps s st -> _)).
  - intros ps st _ (Hd & Hf & _). simpl. now apply flush_distinct.
  - intros ps r IH st H4 (Hd & Hf & Hm). rewrite scanFrom_bold.
    assert (Hne : segments st <> [] -> currentText st <> []).
    { intros Hs Hc. specialize (Hm Hs Hc). discriminate. }
    apply IH.
    + now apply fourStars_tail, fourStars_tail in H4.
    + unfold onBold. repeat split; cbn [segments currentText].
      * now apply flush_distinct.
      * apply (flush_toggle_fresh st (negb (isBold (flush st)))
                 (isItalic (flush st))) in Hf; auto.
        left. unfold flush. destruct (truthy (currentText st)); auto.
      * intros _ _. destruct r as [|c [|c' r']]; try reflexivity.
        -- simpl. now rewrite andb_false_r.
        -- cbn [atMarker headIsStar negb]. rewrite orb_false_r.
           cbn [fourStars] in H4. apply orb_false_elim in H4 as [H4 _].
           destruct (N.eqb_spec c cSTAR) as [->|]; [|reflexivity].
           destruct (N.eqb_spec c' cSTAR) as [->|]; [|reflexivity].
           discriminate H4.
  - intros r Hh IH st H4 (Hd & Hf & Hm). rewrite scanFrom_italic by exact Hh.
    assert (Hne : segments st <> [] -> currentText st <> []).
    { intros Hs Hc. specialize (Hm Hs Hc). cbn [atMarker negb] in Hm.
      rewrite orb_true_r in Hm. discriminate. }
    apply IH.
    + now apply fourStars_tail in H4.
    + unfold onItalic. repeat split; cbn [segments currentText].
      * now apply flush_distinct.
      * apply (flush_toggle_fresh st (isBold (flush st))
                 (negb (isItalic (flush st)))) in Hf; auto.
        right. unfold flush. destruct (truthy (currentText st)); auto.
      * intros _ _. destruct r as [|c r']; [reflexivity|].
        cbn [atMarker negb]. simpl in Hh. rewrite Hh. reflexivity.
  - intros ps c r H1 H2 IH st H4 (Hd & Hf & Hm).
    rewrite scanFrom_char by assumption.
    apply IH.
    + now apply fourStars_tail in H4.
    + unfold onChar. repeat split; cbn [segments currentText]; auto.
      intros _ Hc. now destruct (currentText st).
Qed.

Lemma tokenize_distinct (t : jsstring) :
  fourStars t = false -> distinctNeighbours (tokenize t) = true.
Proof.
  intros H4. unfold tokenize, finish.
  pose proof (scanFrom_distinct t false initScan H4) as Hd.
  destruct (segments (flush (scanFrom false t initScan))); [reflexivity|].
  apply Hd. repeat split; simpl; auto. congruence.
Qed.

(** ** Properties of the converter *)

(** C1. Totality: the tokenizer loop ends within the fuel it is given on
    every text, and for every input string and every sequence of random
    draws [markdownToPortableText] returns a document (a possibly empty
    ordered list of blocks); no path of the model fails.  The empty string
    and a string of whitespace give the empty document. *)
Theorem converter_total :
  (forall text : jsstring,
      exists spans, processBoldAndEmphasis text = Some spans)
  /\ (forall (random : nat -> nat) (markdown : jsstring),
         exists doc, run (markdownToPortableText random markdown) = Some doc)
  /\ (forall random : nat -> nat,
         run (markdownToPortableText random []) = Some []
         /\ run (markdownToPortableText random (js "  " ++ nl ++ js " "))
            = Some []).
Proof.
  split; [|split].
  - intros text. exists (tokenize text). apply processBoldAndEmphasis_tokenize.
  - intros random markdown.
    destruct (markdownToPortableText_run random markdown 0)
      as (doc & k & Hrun & _).
    exists doc. unfold run. now rewrite Hrun.
  - intros random. split; reflexivity.
Qed.

Lemma map_eraseKey_children doc srcs :
  map eraseKey doc = map tokenizeSource srcs ->
  map children doc = map (fun s => tokenize (sourceText s)) srcs.
Proof.
  revert srcs; induction doc as [|b doc IH]; intros [|s srcs] H;
    simpl in *; try discriminate; auto.
  inversion H as [[H1 H2]]. f_equal; auto.
  destruct s as [[[st li] lv] t]. unfold eraseKey in H1. simpl in *.
  congruence.
Qed.

Lemma run_document (random : nat -> nat) (markdown : jsstring) :
  exists doc,
    run (markdownToPortableText random markdown) = Some doc
    /\ map eraseKey doc
       = map tokenizeSource (flat_map blockSources (paragraphsOf markdown)).
Proof.
  destruct (markdownToPortableText_run random markdown 0)
    as (doc & k & Hrun & Hdoc).
  exists doc. unfold run. now rewrite Hrun.
Qed.

Lemma Forall_children (P : list PortableTextSpan -> Prop) doc srcs :
  map eraseKey doc = map tokenizeSource srcs ->
  (forall s, In s srcs -> P (tokenize (sourceText s))) ->
  Forall (fun b => P (children b)) doc.
Proof.
  intros H HP. apply map_eraseKey_children in H.
  apply Forall_forall. intros b Hb.
  apply (in_map children) in Hb. rewrite H in Hb.
  apply in_map_iff in Hb as (s & <- & Hs). now apply HP.
Qed.

(** C3. Every block of every document returned has at least one span; a
    scan that ends with no span pushed returns exactly one span with empty
    text and no marks. *)
Theorem no_empty_children :
  (forall (random : nat -> nat) (markdown : jsstring),
      exists doc,
        run (markdownToPortableText random markdown) = Some doc
        /\ Forall (fun b => 1 <= length (children b)) doc)
  /\ (forall (text : jsstring) (st : ScanState),
         scanLoop (length text) text initScan = Some st ->
         segments (flush st) = [] ->
         processBoldAndEmphasis text = Some [mkSpan [] None]).
Proof.
  split.
  - intros random markdown.
    destruct (run_document random markdown) as (doc & Hrun & Hdoc).
    exists doc. split; [exact Hrun|].
    apply (Forall_children (fun c => 1 <= length c) _ _ Hdoc).
    intros s _. apply tokenize_nonempty.
  - intros text st Hloop Hsegs. unfold processBoldAndEmphasis.
    rewrite Hloop. unfold finish. now rewrite Hsegs.
Qed.

Lemma no_empty_children_witness :
  processBoldAndEmphasis (js "**") = Some [mkSpan [] None].
Proof.
  apply (proj2 no_empty_children (js "**") (mkScan 2 [] [] true false));
    reflexivity.
Defined.

(** C5. The text "a **b** c" is tokenized into "a " without marks, "b"
    with the bold mark alone and " c" without marks.  In general the only
    spans the loop body and the final step push are those of [flush], and a
    flushed span takes the buffer as its text and carries the bold mark
    exactly when [isBold] holds and the italic mark exactly when
    [isItalic] holds at that moment. *)
Theorem bold_italic_toggling :
  processBoldAndEmphasis (js "a **b** c")
  = Some [mkSpan (js "a ") (Some []);
          mkSpan (js "b") (Some [strong]);
          mkSpan (js " c") (Some [])]
  /\ (forall st : ScanState,
         segments (flush st) = segments st
         \/ exists sp, segments (flush st) = segments st ++ [sp]
                       /\ text sp = currentText st
                       /\ hasMark strong sp = isBold st
                       /\ hasMark em sp = isItalic st)
  /\ (forall (text : jsstring) (st : ScanState),
         segments (loopBody text st) = segments (flush st)
         \/ segments (loopBody text st) = segments st)
  /\ (forall st : ScanState,
         finish st = segments (flush st) \/ finish st = [mkSpan [] None]).
Proof.
  split; [reflexivity|]. split; [|split].
  - intros st. unfold flush. destruct (truthy (currentText st)); [|now left].
    right. eexists. split; [reflexivity|]. cbn [text].
    now rewrite hasMark_strong, hasMark_em.
  - intros text st. unfold loopBody.
    repeat match goal with
    | |- context [if ?c then _ else _] => destruct c
    end; cbn [segments]; auto.
  - intros st. unfold finish.
    destruct (0 <? length (segments (flush st))); auto.
Qed.

(** C9. Two runs on the same input under any two sequences of random
    draws return documents with the same number of blocks that agree on
    the style, list item, level and spans of every block; a block being
    its key together with those fields, only keys can differ. *)
Theorem deterministic_up_to_keys
    (random1 random2 : nat -> nat) (markdown : jsstring) :
  exists doc1 doc2,
    run (markdownToPortableText random1 markdown) = Some doc1
    /\ run (markdownToPortableText random2 markdown) = Some doc2
    /\ length doc1 = length doc2
    /\ map eraseKey doc1 = map eraseKey doc2
    /\ Forall2 (fun b1 b2 =>
                  b2 = mkBlock (_key b2) (style b1) (listItem b1) (level b1)
                               (children b1))
               doc1 doc2.
Proof.
  destruct (run_document random1 markdown) as (doc1 & Hrun1 & Hdoc1).
  destruct (run_document random2 markdown) as (doc2 & Hrun2 & Hdoc2).
  exists doc1, doc2.
  assert (Heq : map eraseKey doc1 = map eraseKey doc2) by congruence.
  repeat split; auto.
  - apply (f_equal (@length _)) in Heq. now rewrite !length_map in Heq.
  - clear -Heq. revert doc2 Heq.
    induction doc1 as [|b1 doc1 IH]; intros [|b2 doc2] Heq;
      simpl in Heq; try discriminate; constructor.
    + inversion Heq as [[H1 H2 H3 H4 H5]].
      destruct b2; simpl in *. congruence.
    + apply IH. now inversion Heq.
Qed.

(** ** Structural markers *)

Lemma startsWith_app (pat p : jsstring) :
  startsWith pat p = true -> p = pat ++ skipn (length pat) p.
Proof.
  revert p; induction pat as [|x pat IH]; intros [|y p] H; simpl in *;
    try discriminate; auto.
  apply andb_prop in H as [Hxy H]. apply N.eqb_eq in Hxy. subst.
  f_equal. now apply IH.
Qed.

Lemma replaceFirst_prefix (pat p : jsstring) :
  startsWith pat p = true -> replaceFirst pat [] p = skipn (length pat) p.
Proof.
  intros H. destruct p; simpl; now rewrite H.
Qed.

Lemma stripMatch_pseudoHeading (d : N) (p : jsstring) :
  test (matchPseudoHeading d) p = true ->
  stripMatch (matchPseudoHeading d) p = skipn 3 p.
Proof.
  unfold test, stripMatch, matchPseudoHeading.
  destruct p as [|a [|b [|c p]]]; try discriminate.
  destruct (_ && _ && _); [reflexivity|discriminate].
Qed.

Lemma headingText_skipn (hashes : jsstring) (d : N) (p : jsstring) :
  isHeading hashes d p = true ->
  headingText hashes d p
  = if startsWith hashes p then skipn (length hashes) p else skipn 3 p.
Proof.
  unfold isHeading, headingText. intros H.
  destruct (startsWith hashes p) eqn:Hs.
  - now apply replaceFirst_prefix.
  - now apply stripMatch_pseudoHeading.
Qed.

Lemma trim_space (c : N) (s : jsstring) :
  isSpace c = true -> trim (c :: s) = trim s.
Proof. intros H. unfold trim. simpl. now rewrite H. Qed.

Lemma quote_text (p : jsstring) :
  startsWith (js "> ") p || startsWith (js "&gt; ") p = true ->
  trim (stripQuoteMarker p)
  = if startsWith (js "> ") p then trim (skipn 2 p) else trim (skipn 5 p).
Proof.
  intros H. destruct (startsWith (js "> ") p) eqn:H1.
  - apply startsWith_app in H1. rewrite H1. reflexivity.
  - rewrite ?H1, orb_false_l in H. apply startsWith_app in H.
    rewrite H. reflexivity.
Qed.

Lemma blockSources_text (p : jsstring) :
  map sourceText (blockSources p) = withoutStructuralMarkers true p.
Proof.
  unfold blockSources, withoutStructuralMarkers.
  destruct (startsWith (js "# ") p) eqn:H1.
  { cbn [map sourceText snd]. now rewrite replaceFirst_prefix. }
  destruct (isHeading (js "## ") 50 p) eqn:H2.
  { cbn [map sourceText snd]. rewrite headingText_skipn by exact H2.
    unfold isHeading in H2.
    destruct (startsWith (js "## ") p); [reflexivity|].
    rewrite orb_false_l in H2. now rewrite H2. }
  apply orb_false_elim in H2 as [-> ->].
  destruct (isHeading (js "### ") 51 p) eqn:H3.
  { cbn [map sourceText snd]. rewrite headingText_skipn by exact H3.
    unfold isHeading in H3.
    destruct (startsWith (js "### ") p); [reflexivity|].
    rewrite orb_false_l in H3. now rewrite H3. }
  apply orb_false_elim in H3 as [-> ->].
  destruct (isHeading (js "#### ") 52 p) eqn:H4.
  { cbn [map sourceText snd]. rewrite headingText_skipn by exact H4.
    unfold isHeading in H4.
    destruct (startsWith (js "#### ") p); [reflexivity|].
    rewrite orb_false_l in H4. now rewrite H4. }
  apply orb_false_elim in H4 as [-> ->].
  destruct (startsWith (js "> ") p || startsWith (js "&gt; ") p) eqn:H5.
  { cbn [map sourceText snd]. rewrite quote_text by exact H5.
    destruct (startsWith (js "> ") p); [reflexivity|].
    rewrite orb_false_l in H5. now rewrite H5. }
  apply orb_false_elim in H5 as [-> ->].
  destruct (test (matchBullet false) p).
  { now rewrite map_map. }
  destruct (test (matchNumbered false) p).
  { now rewrite map_map. }
  reflexivity.
Qed.

(** Only asterisks are taken for emphasis markers. *)
Lemma removeEmphasisFrom_keeps s ps :
  withoutStars (removeEmphasisFrom ps s) = withoutStars s.
Proof.
  revert s ps. apply scan_ind.
  - reflexivity.
  - intros ps r IH. now rewrite removeEmphasisFrom_bold, IH.
  - intros r Hh IH. now rewrite removeEmphasisFrom_italic, IH by exact Hh.
  - intros ps c r H1 H2 IH.
    rewrite removeEmphasisFrom_char by assumption.
    unfold withoutStars in *. cbn [filter]. now rewrite IH.
Qed.

(** C2, as amended.  The converter returns a document whose blocks spell,
    span after span, the texts of its paragraph units with the structural
    marker of the unit stripped together with the whitespace next to it
    (heading 2 to 4 and quote texts are trimmed, a list marker takes the
    whitespace that follows it) and with the emphasis markers removed;
    every other code unit is kept, in order, and only asterisks are removed
    as emphasis markers. *)
Theorem span_coverage (random : nat -> nat) (markdown : jsstring) :
  exists doc,
    run (markdownToPortableText random markdown) = Some doc
    /\ map (fun b => spanText (children b)) doc
       = map removeEmphasisMarkers
           (flat_map (withoutStructuralMarkers true) (paragraphsOf markdown))
    /\ map (fun b => withoutStars (spanText (children b))) doc
       = map withoutStars
           (flat_map (withoutStructuralMarkers true) (paragraphsOf markdown)).
Proof.
  destruct (run_document random markdown) as (doc & Hrun & Hdoc).
  exists doc. split; [exact Hrun|].
  apply map_eraseKey_children in Hdoc.
  assert (Htext : map (fun b => spanText (children b)) doc
                  = map removeEmphasisMarkers
                      (flat_map (withoutStructuralMarkers true)
                                (paragraphsOf markdown))).
  { rewrite <- (map_map children spanText), Hdoc, map_map. clear Hdoc.
    induction (paragraphsOf markdown) as [|p ps IH]; [reflexivity|].
    cbn [flat_map]. rewrite !map_app, IH. f_equal.
    rewrite <- blockSources_text, map_map.
    apply map_ext. intros s. apply tokenize_text. }
  split; [exact Htext|].
  rewrite <- (map_map (fun b => spanText (children b)) withoutStars), Htext.
  rewrite map_map. apply map_ext. intros t.
  apply removeEmphasisFrom_keeps.
Qed.

(** C2, as stated, fails on the heading "## A " (with a trailing space):
    its block spells "A", while the paragraph without its marker "## " is
    "A ". *)
Lemma span_coverage_counterexample :
  run (markdownToPortableText (fun _ => 0) (js "## A "))
  = Some [mkBlock (js "aaaaaaaaaaaa") h2 None None [mkSpan (js "A") (Some [])]]
  /\ flat_map (withoutStructuralMarkers false) (paragraphsOf (js "## A "))
     = [js "A "]
  /\ ~ (forall doc,
           run (markdownToPortableText (fun _ => 0) (js "## A ")) = Some doc ->
           map (fun b => spanText (children b)) doc
           = map removeEmphasisMarkers
               (flat_map (withoutStructuralMarkers false)
                         (paragraphsOf (js "## A ")))).
Proof.
  split; [reflexivity|]. split; [reflexivity|].
  intros H. specialize (H _ eq_refl). discriminate H.
Qed.

(** ** Runs of asterisks through the converter *)

Lemma js_four_stars : js "****" = [cSTAR; cSTAR; cSTAR; cSTAR].
Proof. reflexivity. Qed.

Lemma fourStars_nonstar k c r :
  (c =? cSTAR)%N = false -> k < 4 ->
  fourStars (repeat cSTAR k ++ c :: r) = fourStars r.
Proof.
  intros Hc Hk. rewrite N.eqb_sym in Hc.
  destruct k as [|[|[|[|k]]]]; try lia;
    cbn [repeat app fourStars]; rewrite js_four_stars;
    cbn [startsWith]; rewrite ?N.eqb_refl, Hc;
    cbn [andb orb]; rewrite ?andb_false_r; reflexivity.
Qed.

Lemma repeat_snoc_app {A} (x : A) k r :
  repeat x k ++ x :: r = repeat x (S k) ++ r.
Proof.
  induction k as [|k IH]; [reflexivity|]. simpl. f_equal. exact IH.
Qed.

Lemma quadFree_fourStars s :
  forall k, k < 4 -> quadFree k s = negb (fourStars (repeat cSTAR k ++ s)).
Proof.
  induction s as [|c r IH]; intros k Hk.
  - rewrite app_nil_r. now destruct k as [|[|[|[|k]]]]; try lia.
  - cbn [quadFree]. destruct (c =? cSTAR)%N eqn:Hc.
    + apply N.eqb_eq in Hc. subst c. rewrite repeat_snoc_app.
      destruct (Nat.ltb_spec (S k) 4) as [Hlt|Hge].
      * now rewrite IH.
      * assert (k = 3) by lia. subst k. reflexivity.
    + rewrite fourStars_nonstar by assumption. now rewrite (IH 0) by lia.
Qed.

Lemma quadFree_iff s : quadFree 0 s = true <-> fourStars s = false.
Proof.
  rewrite (quadFree_fourStars s 0) by lia. simpl.
  now destruct (fourStars s).
Qed.

Lemma quadFree_mono s :
  forall k k', k' <= k -> quadFree k s = true -> quadFree k' s = true.
Proof.
  induction s as [|c r IH]; intros k k' Hk; [reflexivity|]. cbn [quadFree].
  destruct (c =? cSTAR)%N; [|auto]. intros H.
  apply andb_prop in H as [Hlt H]. apply Nat.ltb_lt in Hlt.
  apply andb_true_intro. split; [apply Nat.ltb_lt; lia|].
  apply (IH (S k)); [lia|exact H].
Qed.

Lemma quadFree_tail k c r : quadFree k (c :: r) = true -> quadFree 0 r = true.
Proof.
  cbn [quadFree]. destruct (c =? cSTAR)%N; [|auto]. intros H.
  apply andb_prop in H as [_ H]. apply (quadFree_mono r (S k)); [lia|exact H].
Qed.

Lemma quadFree_skipn n : forall k s,
  quadFree k s = true -> quadFree 0 (skipn n s) = true.
Proof.
  induction n as [|n IH]; intros k s H.
  - apply (quadFree_mono s k); [lia|exact H].
  - destruct s as [|c r]; [reflexivity|]. simpl.
    apply (IH 0). now apply quadFree_tail in H.
Qed.

Lemma quadFree_prefix a b : forall k,
  quadFree k (a ++ b) = true -> quadFree k a = true.
Proof.
  induction a as [|c a IH]; intros k; [reflexivity|]. cbn [app quadFree].
  destruct (c =? cSTAR)%N; [|apply IH]. intros H.
  apply andb_prop in H as [Hlt H]. rewrite Hlt. now apply IH.
Qed.

(** A code unit that is no asterisk separates the runs on its sides. *)
Lemma quadFree_sep a c b : forall k,
  (c =? cSTAR)%N = false ->
  quadFree k a = true -> quadFree 0 b = true ->
  quadFree k (a ++ c :: b) = true.
Proof.
  induction a as [|x a IH]; intros k Hc Ha Hb.
  - cbn [app quadFree]. now rewrite Hc.
  - cbn [app quadFree] in *. destruct (x =? cSTAR)%N; [|now apply IH].
    apply andb_prop in Ha as [Hlt Ha]. rewrite Hlt. now apply IH.
Qed.

Lemma quadFree_substring t s :
  substring t s -> quadFree 0 s = true -> quadFree 0 t = true.
Proof.
  intros (a & b & ->) H.
  apply (quadFree_skipn (length a)) in H.
  rewrite skipn_app, skipn_all, Nat.sub_diag in H. simpl in H.
  now apply quadFree_prefix in H.
Qed.

(** *** Substrings *)

Lemma substring_refl s : substring s s.
Proof. exists [], []. now rewrite app_nil_r. Qed.

Lemma substring_trans t u s : substring t u -> substring u s -> substring t s.
Proof.
  intros (a & b & ->) (a' & b' & ->).
  exists (a' ++ a), (b ++ b'). now rewrite <- !app_assoc.
Qed.

Lemma substring_skipn n s : substring (skipn n s) s.
Proof.
  exists (firstn n s), []. now rewrite app_nil_r, firstn_skipn.
Qed.

Lemma takeWhile_dropWhile f s : s = takeWhile f s ++ dropWhile f s.
Proof.
  induction s as [|c r IH]; [reflexivity|]. simpl.
  destruct (f c); [|reflexivity]. simpl. now f_equal.
Qed.

Lemma substring_dropWhile f s : substring (dropWhile f s) s.
Proof.
  exists (takeWhile f s), []. rewrite app_nil_r. apply takeWhile_dropWhile.
Qed.

Lemma substring_trim s : substring (trim s) s.
Proof.
  unfold trim. apply substring_trans with (dropWhile isSpace s);
    [|apply substring_dropWhile].
  set (u := dropWhile isSpace s).
  exists [], (rev (takeWhile isSpace (rev u))). simpl.
  rewrite <- rev_app_distr, <- takeWhile_dropWhile. now rewrite rev_involutive.
Qed.

Lemma substring_stripMatch re s : substring (stripMatch re s) s.
Proof.
  unfold stripMatch. destruct (re s); [apply substring_skipn|apply substring_refl].
Qed.

Lemma substring_split_from sep total :
  forall s k cur,
    (exists a, total = a ++ s) ->
    (k = 0 -> exists a, total = a ++ cur ++ s) ->
    (k <> 0 -> cur = []) ->
    Forall (fun piece => substring piece total) (split_from sep k cur s).
Proof.
  induction s as [|c r IH]; intros k cur Hsuf H0 Hk.
  - simpl. constructor; [|constructor].
    destruct k as [|k].
    + destruct (H0 eq_refl) as [a Ha]. now exists a, [].
    + rewrite Hk by discriminate. exists total, []. now rewrite app_nil_r.
  - assert (Hsuf' : exists a, total = a ++ r).
    { destruct Hsuf as [a Ha]. exists (a ++ [c]). now rewrite <- app_assoc. }
    cbn [split_from]. destruct k as [|k].
    + destruct (H0 eq_refl) as [a Ha].
      destruct (startsWith sep (c :: r)).
      * constructor; [now exists a, (c :: r)|].
        apply IH; auto.
      * apply IH; auto; [|intros H; now elim H].
        intros _. exists a. now rewrite <- !app_assoc.
    + apply IH; auto. intros _. rewrite Hk by discriminate. exact Hsuf'.
Qed.

Lemma substring_split sep s :
  Forall (fun piece => substring piece s) (split sep s).
Proof.
  apply substring_split_from.
  - now exists [].
  - intros _. now exists [].
  - intros H. now elim H.
Qed.

(** *** Global replacement *)

Lemma replaceAll_from_skip m : forall s k,
  replaceAll_from m k s = replaceAll_from m 0 (skipn k s).
Proof.
  induction s as [|c r IH]; intros [|k]; try reflexivity.
  cbn [replaceAll_from skipn]. apply IH.
Qed.

Lemma replaceAll_from_cons m c r :
  replaceAll_from m 0 (c :: r)
  = match m (c :: r) with
    | Some (len, repl) => repl ++ replaceAll_from m 0 (skipn (len - 1) r)
    | None => c :: replaceAll_from m 0 r
    end.
Proof.
  cbn [replaceAll_from]. destruct (m (c :: r)) as [[len repl]|]; [|reflexivity].
  now rewrite replaceAll_from_skip.
Qed.

Lemma length_skipn_le {A} n (l : list A) : length (skipn n l) <= length l.
Proof. rewrite length_skipn. lia. Qed.

Section ReplaceQuadFree.

Variable m : jsstring -> option (nat * jsstring).

Hypothesis replacement_quadFree :
  forall s k len repl X,
    m s = Some (len, repl) -> quadFree k s = true ->
    quadFree 0 X = true -> quadFree k (repl ++ X) = true.

Lemma replaceAll_from_quadFree n : forall s k,
  length s <= n -> quadFree k s = true ->
  quadFree k (replaceAll_from m 0 s) = true.
Proof.
  induction n as [|n IH]; intros [|c r] k Hlen H; try reflexivity;
    simpl in Hlen; try lia.
  rewrite replaceAll_from_cons.
  destruct (m (c :: r)) as [[len repl]|] eqn:Hm.
  - apply (replacement_quadFree _ _ _ _ _ Hm H).
    apply IH.
    + pose proof (length_skipn_le (len - 1) r). lia.
    + apply quadFree_tail in H. now apply (quadFree_skipn _ 0).
  - cbn [quadFree] in *. destruct (c =? cSTAR)%N.
    + apply andb_prop in H as [Hlt H]. rewrite Hlt. apply IH; [lia|exact H].
    + apply IH; [lia|exact H].
Qed.

Lemma replaceAll_quadFree s :
  quadFree 0 s = true -> quadFree 0 (replaceAll m s) = true.
Proof. apply (replaceAll_from_quadFree (length s)). lia. Qed.

End ReplaceQuadFree.

Lemma matchNewlines_quadFree s k len repl X :
  matchNewlines s = Some (len, repl) -> quadFree k s = true ->
  quadFree 0 X = true -> quadFree k (repl ++ X) = true.
Proof.
  unfold matchNewlines. destruct (3 <=? _); [|discriminate].
  intros H _ HX. inversion H; subst. exact HX.
Qed.

Lemma lazyUntilStars_prefix : forall r content,
  lazyUntilStars r = Some content -> exists rest, r = content ++ rest.
Proof.
  induction r as [|c r IH]; intros content H; [discriminate|].
  cbn [lazyUntilStars] in H.
  destruct (startsWith [cSTAR; cSTAR] (c :: r)).
  { inversion H. now exists (c :: r). }
  destruct (isLineTerminator c); [discriminate|].
  destruct (lazyUntilStars r) as [content'|] eqn:Hr; [|discriminate].
  inversion H; subst. destruct (IH _ eq_refl) as [rest ->].
  now exists rest.
Qed.

Lemma matchBoldHeading_quadFree s k len repl X :
  matchBoldHeading s = Some (len, repl) -> quadFree k s = true ->
  quadFree 0 X = true -> quadFree k (repl ++ X) = true.
Proof.
  unfold matchBoldHeading. intros H Hs HX.
  destruct (startsWith (js "**H") s) eqn:Hp; [|discriminate].
  destruct (skipn 3 s) as [|level [|colon r]] eqn:Hskip; try discriminate.
  destruct ((49 <=? level)%N && (level <=? 54)%N && (colon =? cCOLON)%N)
    eqn:Hlevel; [|discriminate].
  destruct (lazyUntilStars r) as [content|] eqn:Hr; [|discriminate].
  inversion H; subst len repl. clear H.
  apply andb_prop in Hlevel as [Hlevel _].
  apply andb_prop in Hlevel as [Hlo Hhi].
  apply N.leb_le in Hlo. apply N.leb_le in Hhi.
  assert (Hcontent : quadFree 0 content = true).
  { apply (quadFree_skipn 5) in Hs.
    replace (skipn 5 s) with (skipn 2 (skipn 3 s)) in Hs
      by now rewrite skipn_skipn.
    rewrite Hskip in Hs. cbn [skipn] in Hs.
    destruct (lazyUntilStars_prefix _ _ Hr) as [rest ->].
    now apply quadFree_prefix in Hs. }
  assert (Hl : (level =? cSTAR)%N = false) by (apply N.eqb_neq; unfold cSTAR; lia).
  unfold nlnl. cbn [js map list_ascii_of_string app].
  cbn [quadFree]. rewrite Hl.
  change (N_of_ascii "H" =? cSTAR)%N with false.
  change (N_of_ascii ":" =? cSTAR)%N with false.
  change (cNL =? cSTAR)%N with false. cbn iota.
  rewrite <- app_assoc. apply quadFree_sep; auto.
Qed.

Lemma cleanMarkdown_quadFree markdown :
  quadFree 0 markdown = true -> quadFree 0 (cleanMarkdown markdown) = true.
Proof.
  intros H. unfold cleanMarkdown.
  apply (replaceAll_quadFree _ matchNewlines_quadFree).
  now apply (replaceAll_quadFree _ matchBoldHeading_quadFree).
Qed.

Lemma blockSources_substring p s :
  In s (blockSources p) -> substring (sourceText s) p.
Proof.
  intros Hs. apply (in_map sourceText) in Hs.
  rewrite blockSources_text in Hs. revert Hs. generalize (sourceText s).
  intros t. unfold withoutStructuralMarkers.
  assert (Hlist : forall re re',
             In t (map (stripMatch re') (filter re (split nl p))) ->
             substring t p).
  { intros re re' H. apply in_map_iff in H as (line & <- & Hline).
    apply filter_In in Hline as [Hline _].
    apply substring_trans with line; [apply substring_stripMatch|].
    pose proof (substring_split nl p) as Hall.
    rewrite Forall_forall in Hall. now apply Hall. }
  assert (Htrim : forall n, In t [trim (skipn n p)] -> substring t p).
  { intros n [<-|[]]. eapply substring_trans;
      [apply substring_trim|apply substring_skipn]. }
  repeat match goal with
  | |- context [if ?c then _ else _] => destruct c
  end; eauto.
  - intros [<-|[]]. apply substring_skipn.
  - intros [<-|[]]. apply substring_refl.
Qed.

Lemma paragraphsOf_quadFree markdown p :
  quadFree 0 markdown = true -> In p (paragraphsOf markdown) ->
  quadFree 0 p = true.
Proof.
  intros H Hp. unfold paragraphsOf in Hp. apply filter_In in Hp as [Hp _].
  pose proof (substring_split nlnl (cleanMarkdown markdown)) as Hall.
  rewrite Forall_forall in Hall.
  apply (quadFree_substring _ _ (Hall _ Hp)).
  now apply cleanMarkdown_quadFree.
Qed.

(** C4, as amended.  When the input holds no four consecutive asterisks,
    no two consecutive spans of any block of the document carry the same
    set of marks. *)
Theorem distinct_marks_without_adjacent_markers
    (random : nat -> nat) (markdown : jsstring) :
  fourStars markdown = false ->
  exists doc,
    run (markdownToPortableText random markdown) = Some doc
    /\ Forall (fun b => distinctNeighbours (children b) = true) doc.
Proof.
  intros H4. apply quadFree_iff in H4.
  destruct (run_document random markdown) as (doc & Hrun & Hdoc).
  exists doc. split; [exact Hrun|].
  apply (Forall_children (fun c => distinctNeighbours c = true) _ _ Hdoc).
  intros s Hs. apply in_flat_map in Hs as (p & Hp & Hs).
  apply tokenize_distinct, quadFree_iff.
  apply (quadFree_substring _ p); [now apply blockSources_substring|].
  now apply (paragraphsOf_quadFree markdown).
Qed.

Lemma distinct_marks_without_adjacent_markers_witness :
  exists doc,
    run (markdownToPortableText (fun k => k) (js "a **b** *c* d")) = Some doc
    /\ Forall (fun b => distinctNeighbours (children b) = true) doc.
Proof.
  apply (distinct_marks_without_adjacent_markers (fun k => k)
           (js "a **b** *c* d")).
  reflexivity.
Defined.

(** C4, as stated, fails on "a****b": the bold toggle is switched on and
    off with nothing in between, and the block holds the neighbouring
    spans "a" and "b", both without marks. *)
Lemma distinct_marks_counterexample :
  run (markdownToPortableText (fun _ => 0) (js "a****b"))
  = Some [mkBlock (js "aaaaaaaaaaaa") normal None None
                  [mkSpan (js "a") (Some []); mkSpan (js "b") (Some [])]]
  /\ sameMarks (mkSpan (js "a") (Some [])) (mkSpan (js "b") (Some [])) = true
  /\ ~ (forall doc,
           run (markdownToPortableText (fun _ => 0) (js "a****b")) = Some doc ->
           Forall (fun b => distinctNeighbours (children b) = true) doc).
Proof.
  split; [reflexivity|]. split; [reflexivity|].
  intros H. specialize (H _ eq_refl).
  inversion H as [|b l Hb _]. discriminate Hb.
Qed.

(** ** Text without asterisks *)

Lemma scanFrom_noStar : forall s ps st,
  noStar s = true ->
  scanFrom ps s st
  = mkScan (idx st + Z.of_nat (length s)) (segments st) (currentText st ++ s)
           (isBold st) (isItalic st).
Proof.
  induction s as [|c r IH]; intros ps st H.
  - destruct st. cbn. now rewrite Z.add_0_r, app_nil_r.
  - cbn [noStar forallb] in H. apply andb_prop in H as [Hc H].
    apply negb_true_iff in Hc.
    rewrite scanFrom_char by now rewrite Hc.
    rewrite IH by exact H. unfold onChar; cbn [idx segments currentText isBold isItalic].
    rewrite <- app_assoc. f_equal. cbn [length]. lia.
Qed.

Lemma scanFrom_noStar_app : forall pre s st,
  noStar pre = true ->
  scanFrom false (pre ++ s) st
  = scanFrom false s
      (mkScan (idx st + Z.of_nat (length pre)) (segments st)
              (currentText st ++ pre) (isBold st) (isItalic st)).
Proof.
  induction pre as [|c r IH]; intros s st H.
  - destruct st. cbn. now rewrite Z.add_0_r, app_nil_r.
  - cbn [noStar forallb] in H. apply andb_prop in H as [Hc H].
    apply negb_true_iff in Hc.
    cbn [app]. rewrite scanFrom_char by now rewrite Hc.
    rewrite Hc, IH by exact H.
    unfold onChar; cbn [idx segments currentText isBold isItalic].
    rewrite <- app_assoc. do 2 f_equal. cbn [length]. lia.
Qed.

Lemma noStar_headIsStar s : noStar s = true -> headIsStar s = false.
Proof.
  destruct s as [|c r]; [reflexivity|]. cbn. intros H.
  apply andb_prop in H as [H _]. now apply negb_true_iff in H.
Qed.

Lemma tokenize_unmatched_bold pre rest :
  noStar pre = true -> noStar rest = true -> rest <> [] ->
  tokenize (pre ++ js "**" ++ rest)
  = (if truthy pre then [mkSpan pre (Some [])] else [])
    ++ [mkSpan rest (Some [strong])].
Proof.
  intros Hpre Hrest Hne. unfold tokenize.
  rewrite scanFrom_noStar_app by exact Hpre.
  change (js "**" ++ rest) with (cSTAR :: cSTAR :: rest).
  rewrite scanFrom_bold, scanFrom_noStar by exact Hrest.
  unfold finish, onBold, flush, initScan.
  cbn [idx segments currentText isBold isItalic app].
  destruct pre as [|c pre]; cbn [truthy segments currentText isBold isItalic app];
    destruct rest as [|d rest]; try congruence; reflexivity.
Qed.

Lemma tokenize_unmatched_italic pre rest :
  noStar pre = true -> noStar rest = true -> rest <> [] ->
  tokenize (pre ++ js "*" ++ rest)
  = (if truthy pre then [mkSpan pre (Some [])] else [])
    ++ [mkSpan rest (Some [em])].
Proof.
  intros Hpre Hrest Hne. unfold tokenize.
  rewrite scanFrom_noStar_app by exact Hpre.
  change (js "*" ++ rest) with (cSTAR :: rest).
  rewrite scanFrom_italic by now apply noStar_headIsStar.
  rewrite scanFrom_noStar by exact Hrest.
  unfold finish, onItalic, flush, initScan.
  cbn [idx segments currentText isBold isItalic app].
  destruct pre as [|c pre]; cbn [truthy segments currentText isBold isItalic app];
    destruct rest as [|d rest]; try congruence; reflexivity.
Qed.

(** ** Each toggle on its own *)

(** What a flush pushes carries the marks of the state. *)
Lemma flush_pushes st :
  exists new,
    segments (flush st) = segments st ++ new
    /\ Forall (fun sp => hasMark strong sp = isBold st
                         /\ hasMark em sp = isItalic st) new
    /\ isBold (flush st) = isBold st
    /\ isItalic (flush st) = isItalic st.
Proof.
  unfold flush. destruct (truthy (currentText st)).
  - eexists. cbn [segments isBold isItalic]. split; [reflexivity|].
    split; [|split; reflexivity].
    constructor; [|constructor]. now rewrite hasMark_strong, hasMark_em.
  - exists []. rewrite app_nil_r. repeat split. constructor.
Qed.

(** Without two asterisks in a row the bold toggle stays as it is, and
    every span pushed carries the bold mark exactly when it is on. *)
Lemma scanFrom_keeps_bold s ps :
  forall st,
    hasPair s = false ->
    exists new,
      segments (scanFrom ps s st) = segments st ++ new
      /\ Forall (fun sp => hasMark strong sp = isBold st) new
      /\ isBold (scanFrom ps s st) = isBold st.
Proof.
  revert s ps.
  apply (scan_ind (fun ps s => forall st, hasPair s = false -> _)).
  - intros ps st _. exists []. rewrite app_nil_r. repeat split. constructor.
  - intros ps r _ st H. cbn [hasPair headIsStar] in H.
    rewrite N.eqb_refl in H. discriminate H.
  - intros r Hh IH st H. cbn [hasPair] in H. apply orb_false_elim in H as [_ H].
    rewrite scanFrom_italic by exact Hh.
    destruct (flush_pushes st) as (new1 & Hs1 & Hm1 & Hb1 & _).
    destruct (IH (onItalic st) H) as (new2 & Hs2 & Hm2 & Hb2).
    change (segments (onItalic st)) with (segments (flush st)) in Hs2.
    change (isBold (onItalic st)) with (isBold (flush st)) in Hm2, Hb2.
    exists (new1 ++ new2). rewrite Hs2, Hs1, Hb2, Hb1, app_assoc.
    repeat split. apply Forall_app. split.
    + eapply Forall_impl; [|exact Hm1]. now intros sp [Hsp _].
    + eapply Forall_impl; [|exact Hm2]. intros sp Hsp. congruence.
  - intros ps c r H1 H2 IH st H. cbn [hasPair] in H.
    apply orb_false_elim in H as [_ H].
    rewrite scanFrom_char by assumption.
    destruct (IH (onChar c st) H) as (new & Hs & Hm & Hb).
    exists new. auto.
Qed.

(** Without a lone asterisk the italic toggle stays as it is, and every
    span pushed carries the italic mark exactly when it is on. *)
Lemma scanFrom_keeps_italic s ps :
  forall st,
    hasLoneStar ps s = false ->
    exists new,
      segments (scanFrom ps s st) = segments st ++ new
      /\ Forall (fun sp => hasMark em sp = isItalic st) new
      /\ isItalic (scanFrom ps s st) = isItalic st.
Proof.
  revert s ps.
  apply (scan_ind (fun ps s => forall st, hasLoneStar ps s = false -> _)).
  - intros ps st _. exists []. rewrite app_nil_r. repeat split. constructor.
  - intros ps r IH st H. cbn [hasLoneStar headIsStar] in H.
    rewrite N.eqb_refl in H. cbn [negb andb orb] in H.
    rewrite andb_false_r in H. cbn [orb] in H.
    rewrite scanFrom_bold.
    destruct (flush_pushes st) as (new1 & Hs1 & Hm1 & _ & Hi1).
    destruct (IH (onBold st) H) as (new2 & Hs2 & Hm2 & Hi2).
    change (segments (onBold st)) with (segments (flush st)) in Hs2.
    change (isItalic (onBold st)) with (isItalic (flush st)) in Hm2, Hi2.
    exists (new1 ++ new2). rewrite Hs2, Hs1, Hi2, Hi1, app_assoc.
    repeat split. apply Forall_app. split.
    + eapply Forall_impl; [|exact Hm1]. now intros sp [_ Hsp].
    + eapply Forall_impl; [|exact Hm2]. intros sp Hsp. congruence.
  - intros r Hh _ st H. cbn [hasLoneStar] in H.
    rewrite N.eqb_refl, Hh in H. discriminate H.
  - intros ps c r H1 H2 IH st H. cbn [hasLoneStar] in H.
    apply orb_false_elim in H as [_ H].
    rewrite scanFrom_char by assumption.
    destruct (IH (onChar c st) H) as (new & Hs & Hm & Hi).
    exists new. auto.
Qed.

(** The spans returned at the end of a scan that pushed [new] after
    [segs]. *)
Lemma finish_after st segs (P : PortableTextSpan -> Prop) new :
  segments st = segs ++ new ->
  Forall P new ->
  (forall sp, hasMark strong sp = isBold st /\ hasMark em sp = isItalic st ->
              P sp) ->
  finish st = [mkSpan [] None]
  \/ exists new', finish st = segs ++ new' /\ Forall P new'.
Proof.
  intros Hs Hnew HP. unfold finish.
  destruct (flush_pushes st) as (last & Hl & Hm & _ & _).
  destruct (0 <? length (segments (flush st))); [right|now left].
  exists (new ++ last). rewrite Hl, Hs, app_assoc. split; [reflexivity|].
  apply Forall_app. split; [exact Hnew|].
  eapply Forall_impl; [|exact Hm]. exact HP.
Qed.

Lemma tokenize_after_bold pre rest :
  noStar pre = true -> hasPair rest = false ->
  tokenize (pre ++ js "**" ++ rest) = [mkSpan [] None]
  \/ exists new,
       tokenize (pre ++ js "**" ++ rest)
       = (if truthy pre then [mkSpan pre (Some [])] else []) ++ new
       /\ Forall (fun sp => hasMark strong sp = true) new.
Proof.
  intros Hpre Hrest. unfold tokenize.
  rewrite scanFrom_noStar_app by exact Hpre.
  change (js "**" ++ rest) with (cSTAR :: cSTAR :: rest).
  rewrite scanFrom_bold.
  set (st1 := onBold _).
  assert (Hseg : segments st1
                 = if truthy pre then [mkSpan pre (Some [])] else []).
  { unfold st1, onBold, flush, initScan.
    cbn [idx segments currentText isBold isItalic app].
    destruct pre; reflexivity. }
  assert (Hb : isBold st1 = true).
  { unfold st1, onBold, flush, initScan.
    cbn [idx segments currentText isBold isItalic app].
    destruct pre; reflexivity. }
  destruct (scanFrom_keeps_bold rest true st1 Hrest) as (new & Hs & Hm & Hb').
  rewrite Hb in Hm, Hb'. rewrite Hseg in Hs.
  apply (finish_after _ _ (fun sp => hasMark strong sp = true) new Hs Hm).
  intros sp [Hsp _]. congruence.
Qed.

Lemma hasLoneStar_head rest :
  headIsStar rest = false -> hasLoneStar true rest = hasLoneStar false rest.
Proof.
  destruct rest as [|c r]; [reflexivity|]. cbn [headIsStar hasLoneStar].
  now intros ->.
Qed.

Lemma tokenize_after_italic pre rest :
  noStar pre = true -> headIsStar rest = false ->
  hasLoneStar true rest = false ->
  tokenize (pre ++ js "*" ++ rest) = [mkSpan [] None]
  \/ exists new,
       tokenize (pre ++ js "*" ++ rest)
       = (if truthy pre then [mkSpan pre (Some [])] else []) ++ new
       /\ Forall (fun sp => hasMark em sp = true) new.
Proof.
  intros Hpre Hhead Hrest. unfold tokenize.
  rewrite scanFrom_noStar_app by exact Hpre.
  change (js "*" ++ rest) with (cSTAR :: rest).
  rewrite scanFrom_italic by exact Hhead.
  set (st1 := onItalic _).
  assert (Hseg : segments st1
                 = if truthy pre then [mkSpan pre (Some [])] else []).
  { unfold st1, onItalic, flush, initScan.
    cbn [idx segments currentText isBold isItalic app].
    destruct pre; reflexivity. }
  assert (Hi : isItalic st1 = true).
  { unfold st1, onItalic, flush, initScan.
    cbn [idx segments currentText isBold isItalic app].
    destruct pre; reflexivity. }
  destruct (scanFrom_keeps_italic rest true st1 Hrest)
    as (new & Hs & Hm & Hi').
  rewrite Hi in Hm, Hi'. rewrite Hseg in Hs.
  apply (finish_after _ _ (fun sp => hasMark em sp = true) new Hs Hm).
  intros sp [_ Hsp]. congruence.
Qed.

(** The same to the end of the scan, the last flush included. *)
Lemma scanFrom_flush_bold s ps st :
  hasPair s = false ->
  isBold (scanFrom ps s st) = isBold st
  /\ exists new,
       segments (flush (scanFrom ps s st)) = segments st ++ new
       /\ Forall (fun sp => hasMark strong sp = isBold st) new.
Proof.
  intros Hp.
  destruct (scanFrom_keeps_bold s ps st Hp) as (new & Hs & Hm & Hb).
  split; [exact Hb|].
  destruct (flush_pushes (scanFrom ps s st)) as (last & Hl & Hlm & _ & _).
  exists (new ++ last). rewrite Hl, Hs, app_assoc. split; [reflexivity|].
  apply Forall_app. split; [exact Hm|].
  eapply Forall_impl; [|exact Hlm]. intros sp [Hsp _]. congruence.
Qed.

Lemma scanFrom_flush_italic s ps st :
  hasLoneStar ps s = false ->
  isItalic (scanFrom ps s st) = isItalic st
  /\ exists new,
       segments (flush (scanFrom ps s st)) = segments st ++ new
       /\ Forall (fun sp => hasMark em sp = isItalic st) new.
Proof.
  intros Hp.
  destruct (scanFrom_keeps_italic s ps st Hp) as (new & Hs & Hm & Hi).
  split; [exact Hi|].
  destruct (flush_pushes (scanFrom ps s st)) as (last & Hl & Hlm & _ & _).
  exists (new ++ last). rewrite Hl, Hs, app_assoc. split; [reflexivity|].
  apply Forall_app. split; [exact Hm|].
  eapply Forall_impl; [|exact Hlm]. intros sp [_ Hsp]. congruence.
Qed.

Lemma flush_isBold st : isBold (flush st) = isBold st.
Proof. unfold flush. now destruct (truthy (currentText st)). Qed.

Lemma flush_isItalic st : isItalic (flush st) = isItalic st.
Proof. unfold flush. now destruct (truthy (currentText st)). Qed.

(** C6. The text "**unterminated" is tokenized into the single span
    "unterminated" with the bold mark.  In general a pair of asterisks, or
    a lone asterisk, with no asterisk before or after it yields the text
    after it as a last span with the bold, respectively the italic, mark;
    and from any state of the loop, when no asterisk remains to be read,
    the loop ends (no error) with both toggles as they are.  Markers of
    the other kind do not disturb a toggle: after a pair of asterisks that
    no later pair closes, every span carries the bold mark, whatever lone
    asterisks follow; after a lone asterisk that no later lone asterisk
    closes, every span carries the italic mark, whatever pairs follow.
    From any state of the loop the scan ends (no error); when no pair of
    asterisks remains to be read the bold toggle is kept to the end and
    every span pushed from there on, the last flush included, carries the
    bold mark exactly when the toggle is on, and likewise for lone
    asterisks and the italic toggle.  A pair of asterisks read in any
    state, with no pair after it, flips the bold toggle for the rest of
    the scan, and a lone asterisk with no lone asterisk after it does so
    for the italic toggle. *)
Theorem unmatched_marker :
  processBoldAndEmphasis (js "**unterminated")
  = Some [mkSpan (js "unterminated") (Some [strong])]
  /\ (forall pre rest : jsstring,
         noStar pre = true -> noStar rest = true -> rest <> [] ->
         processBoldAndEmphasis (pre ++ js "**" ++ rest)
         = Some ((if truthy pre then [mkSpan pre (Some [])] else [])
                 ++ [mkSpan rest (Some [strong])])
         /\ processBoldAndEmphasis (pre ++ js "*" ++ rest)
            = Some ((if truthy pre then [mkSpan pre (Some [])] else [])
                    ++ [mkSpan rest (Some [em])]))
  /\ (forall (text : jsstring) (st : ScanState) (n : nat),
         idx st = Z.of_nat n -> n <= length text ->
         noStar (skipn n text) = true ->
         exists st',
           scanLoop (length text - n) text st = Some st'
           /\ isBold st' = isBold st /\ isItalic st' = isItalic st)
  /\ (forall pre rest : jsstring,
         noStar pre = true -> hasPair rest = false ->
         exists spans,
           processBoldAndEmphasis (pre ++ js "**" ++ rest) = Some spans
           /\ (spans = [mkSpan [] None]
               \/ exists new,
                    spans
                    = (if truthy pre then [mkSpan pre (Some [])] else [])
                      ++ new
                    /\ Forall (fun sp => hasMark strong sp = true) new))
  /\ (forall pre rest : jsstring,
         noStar pre = true -> headIsStar rest = false ->
         hasLoneStar true rest = false ->
         exists spans,
           processBoldAndEmphasis (pre ++ js "*" ++ rest) = Some spans
           /\ (spans = [mkSpan [] None]
               \/ exists new,
                    spans
                    = (if truthy pre then [mkSpan pre (Some [])] else [])
                      ++ new
                    /\ Forall (fun sp => hasMark em sp = true) new))
  /\ (forall (text : jsstring) (st : ScanState) (n : nat),
         idx st = Z.of_nat n -> n <= length text ->
         exists st',
           scanLoop (length text - n) text st = Some st'
           /\ (hasPair (skipn n text) = false ->
               isBold st' = isBold st
               /\ exists new,
                    segments (flush st') = segments st ++ new
                    /\ Forall (fun sp => hasMark strong sp = isBold st) new)
           /\ (hasLoneStar (isStarAt text (idx st - 1)) (skipn n text) = false ->
               isItalic st' = isItalic st
               /\ exists new,
                    segments (flush st') = segments st ++ new
                    /\ Forall (fun sp => hasMark em sp = isItalic st) new))
  /\ (forall (text rest : jsstring) (st : ScanState) (n : nat),
         idx st = Z.of_nat n -> n <= length text ->
         skipn n text = js "**" ++ rest ->
         hasPair rest = false ->
         exists st',
           scanLoop (length text - n) text st = Some st'
           /\ isBold st' = negb (isBold st)
           /\ exists new,
                segments (flush st') = segments (flush st) ++ new
                /\ Forall (fun sp => hasMark strong sp = negb (isBold st)) new)
  /\ (forall (text rest : jsstring) (st : ScanState) (n : nat),
         idx st = Z.of_nat n -> n <= length text ->
         isStarAt text (idx st - 1) = false ->
         skipn n text = js "*" ++ rest ->
         headIsStar rest = false ->
         hasLoneStar true rest = false ->
         exists st',
           scanLoop (length text - n) text st = Some st'
           /\ isItalic st' = negb (isItalic st)
           /\ exists new,
                segments (flush st') = segments (flush st) ++ new
                /\ Forall (fun sp => hasMark em sp = negb (isItalic st)) new).
Proof.
  split; [reflexivity|].
  split; [|split; [|split; [|split; [|split; [|split]]]]].
  - intros pre rest Hpre Hrest Hne. rewrite !processBoldAndEmphasis_tokenize.
    split; f_equal.
    + now apply tokenize_unmatched_bold.
    + now apply tokenize_unmatched_italic.
  - intros text st n Hidx Hn Hns.
    rewrite (scanLoop_scanFrom _ text st n) by (auto; lia).
    rewrite scanFrom_noStar by exact Hns.
    eexists. split; [reflexivity|]. split; reflexivity.
  - intros pre rest Hpre Hrest. eexists.
    split; [apply processBoldAndEmphasis_tokenize|].
    now apply tokenize_after_bold.
  - intros pre rest Hpre Hhead Hrest. eexists.
    split; [apply processBoldAndEmphasis_tokenize|].
    now apply tokenize_after_italic.
  - intros text st n Hidx Hn.
    rewrite (scanLoop_scanFrom _ text st n) by (auto; lia).
    eexists. split; [reflexivity|]. split; intros Hp.
    + now apply scanFrom_flush_bold.
    + now apply scanFrom_flush_italic.
  - intros text rest st n Hidx Hn Hskip Hrest.
    rewrite (scanLoop_scanFrom _ text st n) by (auto; lia).
    eexists. split; [reflexivity|]. rewrite Hskip.
    change (js "**" ++ rest) with (cSTAR :: cSTAR :: rest).
    rewrite scanFrom_bold.
    destruct (scanFrom_flush_bold rest true (onBold st) Hrest)
      as (Hb & new & Hs & Hm).
    change (isBold (onBold st)) with (negb (isBold (flush st))) in Hb, Hm.
    change (segments (onBold st)) with (segments (flush st)) in Hs.
    rewrite flush_isBold in Hb, Hm. split; [exact Hb|].
    exists new. split; assumption.
  - intros text rest st n Hidx Hn Hprev Hskip Hhead Hrest.
    rewrite (scanLoop_scanFrom _ text st n) by (auto; lia).
    eexists. split; [reflexivity|]. rewrite Hskip, Hprev.
    change (js "*" ++ rest) with (cSTAR :: rest).
    rewrite scanFrom_italic by exact Hhead.
    destruct (scanFrom_flush_italic rest true (onItalic st) Hrest)
      as (Hi & new & Hs & Hm).
    change (isItalic (onItalic st)) with (negb (isItalic (flush st))) in Hi, Hm.
    change (segments (onItalic st)) with (segments (flush st)) in Hs.
    rewrite flush_isItalic in Hi, Hm. split; [exact Hi|].
    exists new. split; assumption.
Qed.

Lemma unmatched_marker_witness :
  (processBoldAndEmphasis (js "so " ++ js "**" ++ js "it goes")
   = Some ([mkSpan (js "so ") (Some [])] ++ [mkSpan (js "it goes") (Some [strong])])
   /\ processBoldAndEmphasis (js "so " ++ js "*" ++ js "it goes")
      = Some ([mkSpan (js "so ") (Some [])] ++ [mkSpan (js "it goes") (Some [em])]))
  /\ (exists st',
        scanLoop (length (js "**ab") - 2) (js "**ab") (mkScan 2 [] [] true false)
        = Some st'
        /\ isBold st' = true /\ isItalic st' = false)
  /\ (exists spans,
        processBoldAndEmphasis (js "" ++ js "**" ++ js "a *b") = Some spans
        /\ (spans = [mkSpan [] None]
            \/ exists new,
                 spans = [] ++ new
                 /\ Forall (fun sp => hasMark strong sp = true) new))
  /\ (exists spans,
        processBoldAndEmphasis (js "" ++ js "*" ++ js "a **b") = Some spans
        /\ (spans = [mkSpan [] None]
            \/ exists new,
                 spans = [] ++ new
                 /\ Forall (fun sp => hasMark em sp = true) new))
  /\ (exists st',
        scanLoop (length (js "**a *b") - 2) (js "**a *b")
                 (mkScan 2 [] [] true false)
        = Some st'
        /\ isBold st' = true
        /\ exists new,
             segments (flush st') = [] ++ new
             /\ Forall (fun sp => hasMark strong sp = true) new)
  /\ (exists st',
        scanLoop (length (js "x **a *b") - 2) (js "x **a *b")
                 (mkScan 2 [] (js "x ") false false)
        = Some st'
        /\ isBold st' = true
        /\ exists new,
             segments (flush st') = [mkSpan (js "x ") (Some [])] ++ new
             /\ Forall (fun sp => hasMark strong sp = true) new)
  /\ (exists st',
        scanLoop (length (js "x *a **b") - 2) (js "x *a **b")
                 (mkScan 2 [] (js "x ") false false)
        = Some st'
        /\ isItalic st' = true
        /\ exists new,
             segments (flush st') = [mkSpan (js "x ") (Some [])] ++ new
             /\ Forall (fun sp => hasMark em sp = true) new).
Proof.
  destruct unmatched_marker
    as (_ & Hgen & Hkeep & Hbold & Hital & Heach & Hopen & Hopen').
  split; [|split; [|split; [|split; [|split; [|split]]]]].
  - apply (Hgen (js "so ") (js "it goes")); [reflexivity|reflexivity|discriminate].
  - apply (Hkeep (js "**ab") (mkScan 2 [] [] true false) 2);
      [reflexivity|simpl; lia|reflexivity].
  - apply (Hbold (js "") (js "a *b")); reflexivity.
  - apply (Hital (js "") (js "a **b")); reflexivity.
  - destruct (Heach (js "**a *b") (mkScan 2 [] [] true false) 2)
      as (st' & Hrun & Hb & _); [reflexivity|simpl; lia|].
    exists st'. split; [exact Hrun|]. apply Hb. reflexivity.
  - apply (Hopen (js "x **a *b") (js "a *b") (mkScan 2 [] (js "x ") false false) 2);
      [reflexivity|simpl; lia|reflexivity|reflexivity].
  - apply (Hopen' (js "x *a **b") (js "a **b") (mkScan 2 [] (js "x ") false false) 2);
      [reflexivity|simpl; lia|reflexivity|reflexivity|reflexivity|reflexivity].
Defined.

(** ** Bullet lists *)

Lemma matchBullet_space plus c s :
  isSpace c = true ->
  matchBullet plus (c :: s) = option_map S (matchBullet plus s).
Proof.
  intros Hc. unfold matchBullet. cbn [takeWhile]. rewrite Hc.
  cbn [length skipn].
  destruct (skipn (length (takeWhile isSpace s)) s) as [|m [|sp r]];
    try reflexivity.
  destruct (_ && _); reflexivity.
Qed.

Lemma matchBullet_marker plus c s :
  isSpace c = false -> matchBullet plus (c :: s) <> None ->
  ((c =? cDASH) || (c =? cSTAR))%N = true.
Proof.
  intros Hc. unfold matchBullet. cbn [takeWhile]. rewrite Hc.
  cbn [length skipn]. destruct s as [|sp r]; [congruence|].
  destruct ((c =? cDASH) || (c =? cSTAR))%N; [reflexivity|].
  cbn [andb]. congruence.
Qed.

(** A match on a text is a match on every extension of it. *)
Lemma test_matchBullet_app : forall a b,
  test (matchBullet false) a = true -> test (matchBullet false) (a ++ b) = true.
Proof.
  unfold test. induction a as [|c a IH]; intros b H; [discriminate|].
  cbn [app]. destruct (isSpace c) eqn:Hc.
  - rewrite matchBullet_space in * by exact Hc.
    destruct (matchBullet false a) eqn:Ha; [|discriminate].
    specialize (IH b eq_refl).
    destruct (matchBullet false (a ++ b)); [reflexivity|discriminate].
  - revert H. unfold matchBullet. cbn [takeWhile]. rewrite Hc.
    cbn [length skipn]. destruct a as [|sp r]; [discriminate|].
    cbn [app]. destruct (_ && _); [reflexivity|discriminate].
Qed.

Lemma firstLine_prefix p : exists rest, p = firstLine p ++ rest.
Proof. eexists. apply takeWhile_dropWhile. Qed.

(** A text that matches the bullet pattern starts with whitespace, a
    hyphen or an asterisk. *)
Lemma test_matchBullet_head p :
  test (matchBullet false) p = true ->
  exists c r, p = c :: r
              /\ (isSpace c || (c =? cDASH) || (c =? cSTAR))%N = true.
Proof.
  unfold test. destruct p as [|c r]; [discriminate|]. intros H.
  exists c, r. split; [reflexivity|].
  destruct (isSpace c) eqn:Hc; [reflexivity|].
  cbn [orb]. apply (matchBullet_marker false c r Hc).
  destruct (matchBullet false (c :: r)); congruence.
Qed.

Lemma startsWith_head_neq x pat c r :
  (x =? c)%N = false -> startsWith (x :: pat) (c :: r) = false.
Proof. intros H. cbn [startsWith]. now rewrite H. Qed.

Lemma matchPseudoHeading_head d c r :
  (c =? 72)%N = false -> (c =? 104)%N = false ->
  test (matchPseudoHeading d) (c :: r) = false.
Proof.
  intros H1 H2. unfold test, matchPseudoHeading.
  destruct r as [|d' [|col r]]; try reflexivity.
  now rewrite H1, H2.
Qed.

(** None of the heading and quote rules applies to a bullet paragraph. *)
Lemma bullet_paragraph_rules p :
  test (matchBullet false) p = true ->
  startsWith (js "# ") p = false
  /\ isHeading (js "## ") 50 p = false
  /\ isHeading (js "### ") 51 p = false
  /\ isHeading (js "#### ") 52 p = false
  /\ startsWith (js "> ") p || startsWith (js "&gt; ") p = false.
Proof.
  intros H. destruct (test_matchBullet_head p H) as (c & r & -> & Hc).
  assert (H35 : (35 =? c)%N = false) by (apply N.eqb_neq; intros <-; discriminate Hc).
  assert (H62 : (62 =? c)%N = false) by (apply N.eqb_neq; intros <-; discriminate Hc).
  assert (H38 : (38 =? c)%N = false) by (apply N.eqb_neq; intros <-; discriminate Hc).
  assert (H72 : (c =? 72)%N = false) by (apply N.eqb_neq; intros ->; discriminate Hc).
  assert (H104 : (c =? 104)%N = false) by (apply N.eqb_neq; intros ->; discriminate Hc).
  unfold isHeading.
  rewrite !(matchPseudoHeading_head _ c r H72 H104).
  change (js "# ") with (35 :: js " ")%N.
  change (js "## ") with (35 :: js "# ")%N.
  change (js "### ") with (35 :: js "## ")%N.
  change (js "#### ") with (35 :: js "### ")%N.
  change (js "> ") with (62 :: js " ")%N.
  change (js "&gt; ") with (38 :: js "gt; ")%N.
  rewrite !(startsWith_head_neq 35 _ c r H35).
  rewrite (startsWith_head_neq 62 _ c r H62).
  rewrite (startsWith_head_neq 38 _ c r H38).
  repeat split.
Qed.

(** C7. The unit "- one\n- two\n- three" yields exactly three blocks, each
    a bullet list item of level 1 holding its line without the marker.  In
    general a paragraph unit whose first line matches the bullet pattern
    yields, in order, one such block for each of its lines that matches
    the pattern, tokenized from the line with its marker prefix stripped,
    and nothing for the other lines. *)
Theorem list_expansion :
  (forall random : nat -> nat,
      exists doc,
        run (markdownToPortableText random
               (js "- one" ++ nl ++ js "- two" ++ nl ++ js "- three"))
        = Some doc
        /\ map eraseKey doc
           = [(normal, Some bullet, Some 1%Z, [mkSpan (js "one") (Some [])]);
              (normal, Some bullet, Some 1%Z, [mkSpan (js "two") (Some [])]);
              (normal, Some bullet, Some 1%Z, [mkSpan (js "three") (Some [])])])
  /\ (forall (random : nat -> nat) (paragraph : jsstring) (k : nat),
         test (matchBullet false) (firstLine paragraph) = true ->
         exists bs k',
           blockOfParagraph random paragraph k = Some (inr bs, k')
           /\ Forall2
                (fun line b =>
                   style b = normal /\ listItem b = Some bullet
                   /\ level b = Some 1%Z
                   /\ processBoldAndEmphasis (stripMatch (matchBullet true) line)
                      = Some (children b))
                (filter (test (matchBullet false)) (split nl paragraph)) bs).
Proof.
  split.
  - intros random.
    destruct (run_document random
                (js "- one" ++ nl ++ js "- two" ++ nl ++ js "- three"))
      as (doc & Hrun & Hdoc).
    exists doc. split; [exact Hrun|]. rewrite Hdoc. reflexivity.
  - intros random paragraph k Hfirst.
    assert (Hp : test (matchBullet false) paragraph = true).
    { destruct (firstLine_prefix paragraph) as [rest Hrest].
      rewrite Hrest. now apply test_matchBullet_app. }
    destruct (bullet_paragraph_rules paragraph Hp) as (R1 & R2 & R3 & R4 & R5).
    unfold blockOfParagraph. rewrite R1, R2, R3, R4, R5, Hp.
    destruct (mapM_run
                (fun item => makeBlock random normal (Some bullet) (Some 1%Z)
                               (stripMatch (matchBullet true) item))
                (fun line b =>
                   style b = normal /\ listItem b = Some bullet
                   /\ level b = Some 1%Z
                   /\ processBoldAndEmphasis (stripMatch (matchBullet true) line)
                      = Some (children b)))
      with (l := filter (test (matchBullet false)) (split nl paragraph))
           (k := k) as (bs & k' & Hrun & HR).
    + intros line k0.
      destruct (makeBlock_run random normal (Some bullet) (Some 1%Z)
                  (stripMatch (matchBullet true) line) k0) as [key Hkey].
      eexists _, _. split; [exact Hkey|]. cbn.
      repeat split. apply processBoldAndEmphasis_tokenize.
    + exists bs, k'. split; [|exact HR].
      unfold bind. rewrite Hrun. reflexivity.
Qed.

Lemma list_expansion_witness :
  exists bs k',
    blockOfParagraph (fun k => k)
      (js "- one" ++ nl ++ js "note" ++ nl ++ js "* two") 0
    = Some (inr bs, k')
    /\ Forall2
         (fun line b =>
            style b = normal /\ listItem b = Some bullet
            /\ level b = Some 1%Z
            /\ processBoldAndEmphasis (stripMatch (matchBullet true) line)
               = Some (children b))
         [js "- one"; js "* two"] bs.
Proof.
  apply (proj2 list_expansion (fun k => k)
           (js "- one" ++ nl ++ js "note" ++ nl ++ js "* two") 0).
  reflexivity.
Defined.

(** ** The pseudo-heading rewrite *)

Lemma replaceAll_from_nil m k : replaceAll_from m k [] = [].
Proof. reflexivity. Qed.

Lemma lazyUntilStars_noStar : forall content rest,
  noStar content = true -> noLineTerminator content = true ->
  lazyUntilStars (content ++ cSTAR :: cSTAR :: rest) = Some content.
Proof.
  induction content as [|c content IH]; intros rest Hs Hl; [reflexivity|].
  cbn [noStar noLineTerminator forallb] in Hs, Hl.
  apply andb_prop in Hs as [Hc Hs]. apply andb_prop in Hl as [Hlc Hl].
  apply negb_true_iff in Hc. apply negb_true_iff in Hlc.
  cbn [app lazyUntilStars startsWith].
  rewrite N.eqb_sym, Hc, Hlc. cbn [andb].
  now rewrite (IH rest Hs Hl).
Qed.

Lemma matchBoldHeading_head level r :
  matchBoldHeading (cSTAR :: cSTAR :: 72 :: level :: cCOLON :: r)%N
  = if ((49 <=? level) && (level <=? 54))%N then
      match lazyUntilStars r with
      | Some content =>
          Some (5 + length content + 2,
                nlnl ++ js "H" ++ [level] ++ js ":" ++ content ++ nlnl)
      | None => None
      end
    else None.
Proof.
  unfold matchBoldHeading.
  replace (startsWith (js "**H") _) with true by reflexivity.
  cbn [skipn]. rewrite N.eqb_refl, andb_true_r. reflexivity.
Qed.

Lemma replaceAll_boldHeading level content :
  (49 <= level <= 54)%N ->
  noStar content = true -> noLineTerminator content = true ->
  replaceAll matchBoldHeading
    (js "**H" ++ [level] ++ js ":" ++ content ++ js "**")
  = nlnl ++ js "H" ++ [level] ++ js ":" ++ content ++ nlnl.
Proof.
  intros [Hlo Hhi] Hs Hl. unfold replaceAll.
  change (js "**H" ++ [level] ++ js ":" ++ content ++ js "**")
    with (cSTAR :: (cSTAR :: 72 :: level :: cCOLON
                          :: content ++ cSTAR :: cSTAR :: []))%N.
  rewrite replaceAll_from_cons, matchBoldHeading_head.
  apply N.leb_le in Hlo. apply N.leb_le in Hhi.
  rewrite Hlo, Hhi. cbn [andb].
  rewrite lazyUntilStars_noStar by assumption.
  rewrite skipn_all2.
  - rewrite replaceAll_from_nil, app_nil_r. reflexivity.
  - cbn [length]. rewrite length_app. cbn [length]. lia.
Qed.

(** C8. Preprocessing rewrites "**H2:Benefits**" to the bare line
    "H2:Benefits" between blank lines, and the conversion yields a single
    heading 2 block whose only span holds "Benefits".  In general a
    pseudo-heading in bold markers, two asterisks, H, a digit from 1 to 6,
    a colon, a text without asterisk or line terminator and two asterisks,
    is rewritten to H, the digit, the colon and the text between two pairs
    of newlines. *)
Theorem pseudo_heading_rewrite :
  cleanMarkdown (js "**H2:Benefits**") = nlnl ++ js "H2:Benefits" ++ nlnl
  /\ (forall random : nat -> nat,
         exists doc,
           run (markdownToPortableText random (js "**H2:Benefits**")) = Some doc
           /\ map eraseKey doc
              = [(h2, None, None, [mkSpan (js "Benefits") (Some [])])])
  /\ (forall (level : N) (content : jsstring),
         (49 <= level <= 54)%N ->
         noStar content = true -> noLineTerminator content = true ->
         replaceAll matchBoldHeading
           (js "**H" ++ [level] ++ js ":" ++ content ++ js "**")
         = nlnl ++ js "H" ++ [level] ++ js ":" ++ content ++ nlnl).
Proof.
  split; [reflexivity|]. split.
  - intros random.
    destruct (run_document random (js "**H2:Benefits**"))
      as (doc & Hrun & Hdoc).
    exists doc. split; [exact Hrun|]. rewrite Hdoc. reflexivity.
  - exact replaceAll_boldHeading.
Qed.

Lemma pseudo_heading_rewrite_witness :
  replaceAll matchBoldHeading
    (js "**H" ++ [51%N] ++ js ":" ++ js "Why it matters" ++ js "**")
  = nlnl ++ js "H" ++ [51%N] ++ js ":" ++ js "Why it matters" ++ nlnl.
Proof.
  apply (proj2 (proj2 pseudo_heading_rewrite) 51%N (js "Why it matters"));
    [split; discriminate|reflexivity|reflexivity].
Defined.

(** ** Slugs *)

Lemma replaceAll_from_Forall m (P Q : N -> Prop) :
  (forall s len repl, m s = Some (len, repl) -> Forall Q repl) ->
  (forall c r, m (c :: r) = None -> P c -> Q c) ->
  forall s k, Forall P s -> Forall Q (replaceAll_from m k s).
Proof.
  intros Hrepl Hkeep. induction s as [|c r IH]; intros k HP; [constructor|].
  inversion HP as [|? ? Hc Hr]; subst. cbn [replaceAll_from].
  destruct k as [|k]; [|now apply IH].
  destruct (m (c :: r)) as [[len repl]|] eqn:Hm.
  - apply Forall_app. split; [eapply Hrepl; eauto|now apply IH].
  - constructor; [eapply Hkeep; eauto|now apply IH].
Qed.

Lemma matchRun_None f c r : matchRun f (c :: r) = None -> f c = false.
Proof. unfold matchRun. cbn [takeWhile]. destruct (f c); [discriminate|auto]. Qed.

Lemma matchRun_Some f s len repl :
  matchRun f s = Some (len, repl) ->
  repl = [cDASH] /\ len = length (takeWhile f s).
Proof.
  unfold matchRun. destruct (takeWhile f s); [discriminate|].
  intros H; inversion H; auto.
Qed.

Lemma skipn_takeWhile f s : skipn (length (takeWhile f s)) s = dropWhile f s.
Proof.
  induction s as [|c r IH]; [reflexivity|]. simpl.
  destruct (f c); [exact IH|reflexivity].
Qed.

Lemma length_dropWhile f s : length (dropWhile f s) <= length s.
Proof.
  induction s as [|c r IH]; simpl; [lia|]. destruct (f c); simpl; lia.
Qed.

Lemma headIsDash_dropWhile s : headIsDash (dropWhile (N.eqb cDASH) s) = false.
Proof.
  induction s as [|c r IH]; [reflexivity|]. cbn [dropWhile].
  destruct (N.eqb_spec cDASH c) as [|Hne]; [exact IH|].
  cbn [headIsDash]. apply N.eqb_neq. congruence.
Qed.

Lemma collapse_hyphens n : forall s,
  length s <= n ->
  noDoubleHyphen (replaceAll_from (matchRun (N.eqb cDASH)) 0 s) = true
  /\ (headIsDash s = false ->
      headIsDash (replaceAll_from (matchRun (N.eqb cDASH)) 0 s) = false).
Proof.
  induction n as [|n IH]; intros [|c r] Hlen; simpl in Hlen; try lia;
    try (split; reflexivity).
  rewrite replaceAll_from_cons.
  destruct (matchRun (N.eqb cDASH) (c :: r)) as [[len repl]|] eqn:Hm.
  - destruct (matchRun_Some _ _ _ _ Hm) as [-> ->].
    assert (Hc : (cDASH =? c)%N = true).
    { destruct (cDASH =? c)%N eqn:E; [reflexivity|].
      unfold matchRun in Hm. cbn [takeWhile] in Hm. rewrite E in Hm.
      discriminate. }
    cbn [takeWhile]. rewrite Hc. cbn [length]. rewrite Nat.sub_succ, Nat.sub_0_r.
    rewrite skipn_takeWhile.
    destruct (IH (dropWhile (N.eqb cDASH) r)) as [Hnd Hhd].
    { pose proof (length_dropWhile (N.eqb cDASH) r). lia. }
    specialize (Hhd (headIsDash_dropWhile r)).
    split.
    + cbn [app noDoubleHyphen]. rewrite Hhd, Hnd, andb_false_r. reflexivity.
    + cbn [headIsDash]. rewrite N.eqb_sym, Hc. discriminate.
  - apply matchRun_None in Hm. rewrite N.eqb_sym in Hm.
    destruct (IH r) as [Hnd _]; [lia|].
    split.
    + cbn [noDoubleHyphen]. rewrite Hm, Hnd. reflexivity.
    + intros _. exact Hm.
Qed.

Lemma slugChar_of_kept c :
  isUpper c = false ->
  isWord c || isSpace c || (c =? cDASH)%N = true ->
  isSpace c = false ->
  slugChar c = true.
Proof.
  unfold isWord, slugChar. intros Hu Hk Hs. rewrite Hu, Hs in Hk.
  rewrite !orb_false_r in Hk. rewrite <- Hk.
  now rewrite <- !orb_assoc.
Qed.

Lemma slugChar_not_space c : slugChar c = true -> c <> 32%N.
Proof. intros H ->. discriminate H. Qed.

Lemma slugChar_not_upper c : slugChar c = true -> isUpper c = false.
Proof.
  unfold slugChar, isLower, isDigit, isUpper, cUNDERSCORE, cDASH. intros H.
  apply andb_false_iff.
  destruct (N.leb_spec 65 c) as [Hlo|]; [|now left].
  destruct (N.leb_spec c 90) as [Hhi|]; [|now right]. exfalso.
  repeat (apply orb_prop in H as [H|H]);
    try (apply andb_prop in H as [H1 H2];
         apply N.leb_le in H1; apply N.leb_le in H2; lia);
    apply N.eqb_eq in H; lia.
Qed.

(** C10. Provided lower-casing leaves no uppercase ASCII letter, every
    code unit of a slug is a lowercase ASCII letter, a digit, an underscore
    or a hyphen; in particular a slug holds no space and no uppercase
    letter, and it holds no two consecutive hyphens. *)
Theorem slug_characters (toLowerCase : jsstring -> jsstring) :
  (forall s, Forall (fun c => isUpper c = false) (toLowerCase s)) ->
  forall title : jsstring,
    Forall (fun c => slugChar c = true) (createSlug toLowerCase title)
    /\ ~ In 32%N (createSlug toLowerCase title)
    /\ Forall (fun c => isUpper c = false) (createSlug toLowerCase title)
    /\ noDoubleHyphen (createSlug toLowerCase title) = true.
Proof.
  intros Hlower title.
  assert (Hchars : Forall (fun c => slugChar c = true)
                          (createSlug toLowerCase title)).
  { unfold createSlug, replaceAll.
    apply (replaceAll_from_Forall _ (fun c => slugChar c = true)).
    { intros s len repl Hm. apply matchRun_Some in Hm as [-> _].
      constructor; [reflexivity|constructor]. }
    { auto. }
    apply (replaceAll_from_Forall _
             (fun c => isUpper c = false
                       /\ isWord c || isSpace c || (c =? cDASH)%N = true)).
    { intros s len repl Hm. apply matchRun_Some in Hm as [-> _].
      constructor; [reflexivity|constructor]. }
    { intros c r Hm [Hu Hk]. apply matchRun_None in Hm.
      now apply slugChar_of_kept. }
    apply (replaceAll_from_Forall _ (fun c => isUpper c = false)).
    { intros s len repl Hm. unfold matchSpecial in Hm.
      destruct s as [|c r]; [discriminate|].
      destruct (_ || _); [discriminate|]. inversion Hm. constructor. }
    { intros c r Hm Hu. split; [exact Hu|].
      unfold matchSpecial in Hm.
      destruct (isWord c || isSpace c || (c =? cDASH)%N);
        [reflexivity|discriminate]. }
    apply Hlower. }
  split; [exact Hchars|]. split; [|split].
  - intros Hin. rewrite Forall_forall in Hchars.
    now apply (slugChar_not_space _ (Hchars _ Hin)).
  - eapply Forall_impl; [|exact Hchars]. apply slugChar_not_upper.
  - unfold createSlug at 1. unfold replaceAll at 1.
    now apply (collapse_hyphens _ _ (Nat.le_refl _)).
Qed.

Lemma asciiLower_not_upper (s : jsstring) :
  Forall (fun c => isUpper c = false) (map asciiLower s).
Proof.
  apply Forall_forall. intros c Hc. apply in_map_iff in Hc as (x & <- & _).
  unfold asciiLower. destruct (isUpper x) eqn:Hx; [|exact Hx].
  unfold isUpper in *. apply andb_prop in Hx as [H1 H2].
  apply N.leb_le in H1. apply N.leb_le in H2.
  apply andb_false_iff. right. apply N.leb_gt. lia.
Qed.

Lemma slug_characters_witness :
  Forall (fun c => slugChar c = true)
         (createSlug (map asciiLower) (js "Hello,  World -- 2nd_Ed! "))
  /\ ~ In 32%N (createSlug (map asciiLower) (js "Hello,  World -- 2nd_Ed! "))
  /\ Forall (fun c => isUpper c = false)
            (createSlug (map asciiLower) (js "Hello,  World -- 2nd_Ed! "))
  /\ noDoubleHyphen (createSlug (map asciiLower) (js "Hello,  World -- 2nd_Ed! "))
     = true.
Proof.
  apply (slug_characters (map asciiLower) asciiLower_not_upper
           (js "Hello,  World -- 2nd_Ed! ")).
Defined.

(** * Further properties *)

(** ** The spans of the tokenizer *)

Lemma canonicalMarks_marksOf b i : canonicalMarks (Some (marksOf b i)).
Proof. unfold canonicalMarks. destruct b, i; cbn; tauto. Qed.

Lemma flush_proper st :
  Forall properSpan (segments st) -> Forall properSpan (segments (flush st)).
Proof.
  intros H. unfold flush. destruct (currentText st) as [|c cur] eqn:Hc;
    cbn [truthy]; [exact H|].
  cbn [segments]. apply Forall_app. split; [exact H|].
  constructor; [|constructor]. split; cbn; [discriminate|].
  apply canonicalMarks_marksOf.
Qed.

Lemma scanFrom_proper s ps :
  forall st, Forall properSpan (segments st) ->
             Forall properSpan (segments (scanFrom ps s st)).
Proof.
  revert s ps. apply (scan_ind (fun ps s => forall st, _ -> _)).
  - auto.
  - intros ps r IH st H. rewrite scanFrom_bold. apply IH.
    unfold onBold; cbn [segments]. now apply flush_proper.
  - intros r Hh IH st H. rewrite scanFrom_italic by exact Hh. apply IH.
    unfold onItalic; cbn [segments]. now apply flush_proper.
  - intros ps c r H1 H2 IH st H. rewrite scanFrom_char by assumption.
    apply IH. exact H.
Qed.

(** X1. [processBoldAndEmphasis] returns either the single placeholder
    span (empty text, no [marks] field) or spans that all have a non-empty
    text and a [marks] array that is one of [], [strong], [em] and
    [strong, em]: no mark is repeated and the order is fixed. *)
Theorem spans_proper (t : jsstring) :
  exists spans,
    processBoldAndEmphasis t = Some spans
    /\ (spans = [mkSpan [] None] \/ Forall properSpan spans).
Proof.
  exists (tokenize t). split; [apply processBoldAndEmphasis_tokenize|].
  unfold tokenize, finish.
  destruct (0 <? length _); [right|now left].
  apply flush_proper, scanFrom_proper. constructor.
Qed.

Lemma scanFrom_noStar_app_any : forall pre s ps st,
  noStar pre = true -> pre <> [] ->
  scanFrom ps (pre ++ s) st
  = scanFrom false s
      (mkScan (idx st + Z.of_nat (length pre)) (segments st)
              (currentText st ++ pre) (isBold st) (isItalic st)).
Proof.
  intros [|c pre] s ps st H Hne; [congruence|].
  cbn [noStar forallb] in H. apply andb_prop in H as [Hc H].
  apply negb_true_iff in Hc.
  cbn [app]. rewrite scanFrom_char by now rewrite Hc.
  rewrite Hc. fold (noStar pre) in H.
  rewrite scanFrom_noStar_app by exact H.
  unfold onChar; cbn [idx segments currentText isBold isItalic].
  rewrite <- app_assoc. do 2 f_equal. cbn [length]. lia.
Qed.

(** X2. A text without asterisks that is not empty is tokenized into one
    span that holds the whole text and carries no mark. *)
Theorem plain_text_single_span (t : jsstring) :
  noStar t = true -> t <> [] ->
  processBoldAndEmphasis t = Some [mkSpan t (Some [])].
Proof.
  intros Hs Hne. rewrite processBoldAndEmphasis_tokenize. f_equal.
  unfold tokenize. rewrite scanFrom_noStar by exact Hs.
  unfold finish, flush, initScan. cbn [currentText app].
  destruct t; [congruence|reflexivity].
Qed.

Lemma plain_text_single_span_witness :
  processBoldAndEmphasis (js "plain text, no markers")
  = Some [mkSpan (js "plain text, no markers") (Some [])].
Proof.
  apply plain_text_single_span; [reflexivity|discriminate].
Defined.

Lemma finish_spans n segs cur b i :
  finish (mkScan n segs cur b i) =
  match segs ++ spanOf cur (marksOf b i) with
  | [] => [mkSpan [] None]
  | l => l
  end.
Proof.
  unfold finish, flush, spanOf. cbn [currentText segments isBold isItalic].
  destruct cur; cbn [truthy segments].
  - rewrite app_nil_r. now destruct segs.
  - destruct segs; reflexivity.
Qed.

Lemma flush_spans n segs cur b i :
  segments (flush (mkScan n segs cur b i)) = segs ++ spanOf cur (marksOf b i)
  /\ currentText (flush (mkScan n segs cur b i)) = []
  /\ isBold (flush (mkScan n segs cur b i)) = b
  /\ isItalic (flush (mkScan n segs cur b i)) = i.
Proof.
  unfold flush, spanOf. cbn [currentText segments isBold isItalic].
  destruct cur; cbn [truthy segments currentText isBold isItalic];
    rewrite ?app_nil_r; auto.
Qed.

Lemma headIsStar_noStar_app mid x :
  noStar mid = true -> mid <> [] -> headIsStar (mid ++ x) = false.
Proof.
  intros H Hne. destruct mid as [|c mid]; [congruence|].
  now apply noStar_headIsStar in H.
Qed.

Lemma tokenize_pair (marker : jsstring) (m : Mark) pre mid post :
  (marker = js "**" /\ m = strong) \/ (marker = js "*" /\ m = em) ->
  noStar pre = true -> noStar mid = true -> noStar post = true ->
  mid <> [] ->
  tokenize (pre ++ marker ++ mid ++ marker ++ post)
  = spanOf pre [] ++ [mkSpan mid (Some [m])] ++ spanOf post [].
Proof.
  intros Hm Hpre Hmid Hpost Hne. unfold tokenize.
  rewrite scanFrom_noStar_app by exact Hpre.
  destruct Hm as [[-> ->]|[-> ->]].
  - change (js "**" ++ mid ++ js "**" ++ post)
      with (cSTAR :: cSTAR :: mid ++ cSTAR :: cSTAR :: post).
    rewrite scanFrom_bold.
    rewrite scanFrom_noStar_app_any by assumption.
    rewrite scanFrom_bold, scanFrom_noStar by exact Hpost.
    unfold onBold, initScan. cbn [idx segments currentText isBold isItalic app].
    repeat match goal with
    | |- context [flush (mkScan ?n ?s ?c ?b ?i)] =>
        let H := fresh in
        destruct (flush_spans n s c b i) as (-> & -> & -> & ->)
    end.
    rewrite finish_spans. cbn [app negb marksOf].
    unfold spanOf at 2. destruct mid as [|d mid]; [congruence|].
    cbn [truthy]. rewrite <- app_assoc. cbn [app].
    destruct (spanOf pre []); reflexivity.
  - change (js "*" ++ mid ++ js "*" ++ post)
      with (cSTAR :: mid ++ cSTAR :: post).
    rewrite scanFrom_italic by now apply headIsStar_noStar_app.
    rewrite scanFrom_noStar_app_any by assumption.
    rewrite scanFrom_italic by now apply noStar_headIsStar.
    rewrite scanFrom_noStar by exact Hpost.
    unfold onItalic, initScan. cbn [idx segments currentText isBold isItalic app].
    repeat match goal with
    | |- context [flush (mkScan ?n ?s ?c ?b ?i)] =>
        let H := fresh in
        destruct (flush_spans n s c b i) as (-> & -> & -> & ->)
    end.
    rewrite finish_spans. cbn [app negb marksOf].
    unfold spanOf at 2. destruct mid as [|d mid]; [congruence|].
    cbn [truthy]. rewrite <- app_assoc. cbn [app].
    destruct (spanOf pre []); reflexivity.
Qed.

(** X3. A matched pair of markers with text in between and no other
    asterisk around: [pre**mid**post] is tokenized into [pre] without marks
    (if not empty), [mid] with the bold mark alone and [post] without marks
    (if not empty); [pre*mid*post] likewise with the italic mark. *)
Theorem matched_pair_spans (pre mid post : jsstring) :
  noStar pre = true -> noStar mid = true -> noStar post = true ->
  mid <> [] ->
  processBoldAndEmphasis (pre ++ js "**" ++ mid ++ js "**" ++ post)
  = Some (spanOf pre [] ++ [mkSpan mid (Some [strong])] ++ spanOf post [])
  /\ processBoldAndEmphasis (pre ++ js "*" ++ mid ++ js "*" ++ post)
     = Some (spanOf pre [] ++ [mkSpan mid (Some [em])] ++ spanOf post []).
Proof.
  intros Hpre Hmid Hpost Hne. rewrite !processBoldAndEmphasis_tokenize.
  split; f_equal; apply tokenize_pair; auto.
Qed.

Lemma matched_pair_spans_witness :
  processBoldAndEmphasis (js "see " ++ js "**" ++ js "this" ++ js "**" ++ [])
  = Some (spanOf (js "see ") [] ++ [mkSpan (js "this") (Some [strong])]
          ++ spanOf [] [])
  /\ processBoldAndEmphasis (js "see " ++ js "*" ++ js "this" ++ js "*" ++ [])
     = Some (spanOf (js "see ") [] ++ [mkSpan (js "this") (Some [em])]
             ++ spanOf [] []).
Proof.
  apply matched_pair_spans; [reflexivity|reflexivity|reflexivity|discriminate].
Defined.

(** ** Keys *)

Lemma generateKey_loop_keyAt random n : forall result k,
  generateKey_loop random n result k
  = Some (result ++ keyAt random k n, k + n).
Proof.
  induction n as [|n IH]; intros result k.
  - cbn. unfold ret. now rewrite app_nil_r, Nat.add_0_r.
  - cbn [generateKey_loop]. unfold bind, draw. rewrite IH.
    unfold keyAt. cbn [seq flat_map]. rewrite <- app_assoc.
    do 2 f_equal. lia.
Qed.

Lemma chars_alnum : Forall (fun c => isAlnum c = true) chars.
Proof. repeat constructor. Qed.

Lemma charAt_chars d :
  d < length chars ->
  exists c, charAt chars d = [c] /\ isAlnum c = true.
Proof.
  intros Hd. unfold charAt.
  destruct (nth_error chars d) as [c|] eqn:Hc.
  - exists c. split; [reflexivity|].
    pose proof chars_alnum as H. rewrite Forall_forall in H.
    apply H. now apply nth_error_In in Hc.
  - apply nth_error_None in Hc. lia.
Qed.

Lemma keyAt_alnum random k n :
  drawsInRange random ->
  length (keyAt random k n) = n
  /\ Forall (fun c => isAlnum c = true) (keyAt random k n).
Proof.
  intros Hr. unfold keyAt. revert k.
  induction n as [|n IH]; intros k; [split; [reflexivity|constructor]|].
  cbn [seq flat_map]. destruct (charAt_chars (random k) (Hr k)) as (c & -> & Hc).
  destruct (IH (S k)) as [Hlen Hall]. split.
  - cbn [app length]. now rewrite Hlen.
  - constructor; assumption.
Qed.

(** X4. [generateKey(length)] started after [k] draws makes exactly
    [length] draws and returns the characters of [chars] they select, in
    order.  When every draw lies below [chars.length], as those of
    [Math.floor(Math.random() * chars.length)] do, the key has exactly
    [length] characters, each an ASCII letter or digit. *)
Theorem generateKey_alphanumeric (random : nat -> nat) (n k : nat) :
  generateKey random n k = Some (keyAt random k n, k + n)
  /\ (drawsInRange random ->
      length (keyAt random k n) = n
      /\ Forall (fun c => isAlnum c = true) (keyAt random k n)).
Proof.
  split.
  - unfold generateKey. now rewrite generateKey_loop_keyAt.
  - apply keyAt_alnum.
Qed.

Lemma generateKey_alphanumeric_witness :
  length (keyAt (fun j => (17 * j + 5) mod 62) 0 12) = 12
  /\ Forall (fun c => isAlnum c = true)
            (keyAt (fun j => (17 * j + 5) mod 62) 0 12).
Proof.
  apply (proj2 (generateKey_alphanumeric (fun j => (17 * j + 5) mod 62) 12 0)).
  intros j. apply Nat.mod_upper_bound. discriminate.
Defined.

Lemma keysFrom_succ random k n :
  keysFrom random k (S n)
  = keyAt random k defaultKeyLength
    :: keysFrom random (k + defaultKeyLength) n.
Proof.
  unfold keysFrom. cbn [seq map]. f_equal; [f_equal; lia|].
  rewrite <- seq_shift, map_map. apply map_ext. intros i. f_equal. lia.
Qed.

Lemma keysFrom_app random n : forall k m,
  keysFrom random k (n + m)
  = keysFrom random k n ++ keysFrom random (k + defaultKeyLength * n) m.
Proof.
  induction n as [|n IH]; intros k m.
  - cbn [Nat.add]. rewrite Nat.mul_0_r, Nat.add_0_r. reflexivity.
  - cbn [Nat.add]. rewrite !keysFrom_succ, IH. cbn [app]. do 3 f_equal. lia.
Qed.

Section KeyedRuns.

Variable random : nat -> nat.

Lemma makeBlock_exact st li lv content k :
  makeBlock random st li lv content k
  = Some (mkBlock (keyAt random k defaultKeyLength) st li lv (tokenize content),
          k + defaultKeyLength).
Proof.
  unfold makeBlock, bind, generateKey.
  rewrite generateKey_loop_keyAt. cbn [app]. unfold lift.
  now rewrite processBoldAndEmphasis_tokenize.
Qed.

Lemma mapM_makeBlock_keys st li lv (g : jsstring -> jsstring) items :
  forall k, exists bs,
    mapM (fun item => makeBlock random st li lv (g item)) items k
    = Some (bs, k + defaultKeyLength * length bs)
    /\ map _key bs = keysFrom random k (length bs).
Proof.
  induction items as [|item items IH]; intros k.
  - exists []. cbn. unfold ret. split; [f_equal; f_equal; lia|reflexivity].
  - destruct (IH (k + defaultKeyLength)) as (bs & Hrun & Hkeys).
    eexists (_ :: bs). cbn [mapM]. unfold bind at 1.
    rewrite makeBlock_exact. unfold bind at 1. rewrite Hrun. unfold ret.
    split.
    + cbn [length]. do 2 f_equal. lia.
    + cbn [map length _key]. now rewrite keysFrom_succ, Hkeys.
Qed.

Lemma blockOfParagraph_keys paragraph k :
  exists x,
    blockOfParagraph random paragraph k
    = Some (x, k + defaultKeyLength * length (flatOne x))
    /\ map _key (flatOne x) = keysFrom random k (length (flatOne x)).
Proof.
  unfold blockOfParagraph.
  repeat match goal with
  | |- context [if ?c then _ else _] => destruct c
  end;
  match goal with
  | |- context [mapM _ ?items] =>
      unfold bind;
      match goal with
      | |- context [makeBlock random ?st ?li ?lv (?g _)] =>
          destruct (mapM_makeBlock_keys st li lv g items k)
            as (bs & Hrun & Hkeys)
      end;
      exists (inr bs); rewrite Hrun; split; [reflexivity|exact Hkeys]
  | |- context [makeBlock random ?st ?li ?lv ?content] =>
      unfold bind; rewrite makeBlock_exact;
      eexists (inl _); split;
      [unfold ret; cbn [flatOne length]; do 2 f_equal; lia
      |cbn [flatOne map length _key]; rewrite keysFrom_succ; reflexivity]
  end.
Qed.

Lemma mapM_blockOfParagraph_keys ps :
  forall k, exists xs,
    mapM (blockOfParagraph random) ps k
    = Some (xs, k + defaultKeyLength * length (flat xs))
    /\ map _key (flat xs) = keysFrom random k (length (flat xs)).
Proof.
  induction ps as [|p ps IH]; intros k.
  - exists []. cbn. unfold ret. split; [do 2 f_equal; lia|reflexivity].
  - destruct (blockOfParagraph_keys p k) as (x & Hx & Hkx).
    destruct (IH (k + defaultKeyLength * length (flatOne x)))
      as (xs & Hxs & Hkxs).
    exists (x :: xs). cbn [mapM]. unfold bind at 1. rewrite Hx.
    unfold bind at 1. rewrite Hxs. unfold ret.
    change (flat (x :: xs)) with (flatOne x ++ flat xs).
    rewrite length_app, map_app, keysFrom_app, Hkx, Hkxs.
    split; [do 2 f_equal; lia|reflexivity].
Qed.

End KeyedRuns.

(** X5. A conversion makes exactly twelve draws for each block it returns,
    and the key of the block at position [i] is built from the draws
    [12 i] to [12 i + 11]: keys depend on the position of a block and on
    the draws only.  When every draw lies below [chars.length], every key
    has exactly twelve characters, each an ASCII letter or digit. *)
Theorem document_keys (random : nat -> nat) (markdown : jsstring) :
  exists doc,
    markdownToPortableText random markdown 0
    = Some (doc, defaultKeyLength * length doc)
    /\ map _key doc = keysFrom random 0 (length doc)
    /\ (drawsInRange random ->
        Forall (fun b => length (_key b) = defaultKeyLength
                         /\ Forall (fun c => isAlnum c = true) (_key b))
               doc).
Proof.
  unfold markdownToPortableText. fold (paragraphsOf markdown).
  destruct (mapM_blockOfParagraph_keys random (paragraphsOf markdown) 0)
    as (xs & Hrun & Hkeys).
  exists (flat xs). unfold bind. rewrite Hrun. unfold ret.
  split; [reflexivity|]. split; [exact Hkeys|].
  intros Hr. apply Forall_forall. intros b Hb.
  apply (in_map _key) in Hb. rewrite Hkeys in Hb.
  unfold keysFrom in Hb. apply in_map_iff in Hb as (i & <- & _).
  now apply keyAt_alnum.
Qed.

Lemma document_keys_witness :
  exists doc,
    markdownToPortableText (fun j => (17 * j + 5) mod 62)
      (js "# Title" ++ nlnl ++ js "- one" ++ nl ++ js "- two") 0
    = Some (doc, defaultKeyLength * length doc)
    /\ map _key doc = keysFrom (fun j => (17 * j + 5) mod 62) 0 (length doc)
    /\ Forall (fun b => length (_key b) = defaultKeyLength
                        /\ Forall (fun c => isAlnum c = true) (_key b))
              doc.
Proof.
  destruct (document_keys (fun j => (17 * j + 5) mod 62)
              (js "# Title" ++ nlnl ++ js "- one" ++ nl ++ js "- two"))
    as (doc & Hrun & Hkeys & Hall).
  exists doc. split; [exact Hrun|]. split; [exact Hkeys|].
  apply Hall. intros j. apply Nat.mod_upper_bound. discriminate.
Defined.

(** ** Numbered lists *)

Lemma dropWhile_app_stop f x b :
  dropWhile f x <> [] ->
  takeWhile f (x ++ b) = takeWhile f x
  /\ dropWhile f (x ++ b) = dropWhile f x ++ b.
Proof.
  induction x as [|c x IH]; intros H; [now elim H|].
  cbn [app takeWhile dropWhile] in *. destruct (f c); [|split; reflexivity].
  destruct (IH H) as [-> ->]. split; reflexivity.
Qed.

Lemma matchNumbered_dropWhile plus s :
  matchNumbered plus s
  = let s1 := dropWhile isSpace s in
    match takeWhile isDigit s1, dropWhile isDigit s1 with
    | _ :: _, dot :: sp :: r =>
        if (dot =? cDOT)%N && isSpace sp
        then Some (length (takeWhile isSpace s)
                   + length (takeWhile isDigit s1) + 2
                   + (if plus then length (takeWhile isSpace r) else 0))
        else None
    | _, _ => None
    end.
Proof.
  unfold matchNumbered. cbv zeta.
  set (ws := takeWhile isSpace s).
  assert (H1 : skipn (length ws) s = dropWhile isSpace s)
    by apply skipn_takeWhile.
  rewrite H1.
  set (ds := takeWhile isDigit (dropWhile isSpace s)).
  assert (H2 : skipn (length ws + length ds) s
               = dropWhile isDigit (dropWhile isSpace s)).
  { rewrite Nat.add_comm, <- skipn_skipn, H1. apply skipn_takeWhile. }
  clearbody ds ws. destruct ds as [|x xs]; [reflexivity|].
  rewrite H2. reflexivity.
Qed.

Lemma matchBullet_dropWhile plus s :
  matchBullet plus s
  = match dropWhile isSpace s with
    | m :: sp :: r =>
        if ((m =? cDASH) || (m =? cSTAR))%N && isSpace sp
        then Some (length (takeWhile isSpace s) + 2
                   + (if plus then length (takeWhile isSpace r) else 0))
        else None
    | _ => None
    end.
Proof. unfold matchBullet. cbv zeta. now rewrite skipn_takeWhile. Qed.

(** What a match of the numbered pattern looks like. *)
Lemma test_matchNumbered_shape s :
  test (matchNumbered false) s = true ->
  exists d ds dot sp r,
    dropWhile isSpace s = d :: ds
    /\ isDigit d = true
    /\ dropWhile isDigit (d :: ds) = dot :: sp :: r
    /\ ((dot =? cDOT)%N && isSpace sp = true).
Proof.
  unfold test. rewrite matchNumbered_dropWhile. cbv zeta.
  destruct (dropWhile isSpace s) as [|d ds] eqn:Hs1; [discriminate|].
  destruct (takeWhile isDigit (d :: ds)) as [|x xs] eqn:Htw; [discriminate|].
  destruct (dropWhile isDigit (d :: ds)) as [|dot [|sp r]] eqn:Hdw;
    try discriminate.
  destruct ((dot =? cDOT)%N && isSpace sp) eqn:Hc; [|discriminate].
  intros _. exists d, ds, dot, sp, r. repeat split; auto.
  cbn [takeWhile] in Htw. destruct (isDigit d); [reflexivity|discriminate].
Qed.

Lemma test_matchNumbered_app a b :
  test (matchNumbered false) a = true ->
  test (matchNumbered false) (a ++ b) = true.
Proof.
  intros H.
  destruct (test_matchNumbered_shape a H)
    as (d & ds & dot & sp & r & Hs1 & Hd & Hdw & Hc).
  unfold test. rewrite matchNumbered_dropWhile. cbv zeta.
  destruct (dropWhile_app_stop isSpace a b) as [_ ->]; [congruence|].
  rewrite Hs1.
  destruct (dropWhile_app_stop isDigit (d :: ds) b) as [-> ->]; [congruence|].
  rewrite Hdw. cbn [takeWhile app]. rewrite Hd, Hc. reflexivity.
Qed.

Lemma digit_not_marker d :
  isDigit d = true -> ((d =? cDASH) || (d =? cSTAR))%N = false.
Proof.
  unfold isDigit, cDASH, cSTAR. intros H. apply andb_prop in H as [H1 H2].
  apply N.leb_le in H1. apply orb_false_iff.
  split; apply N.eqb_neq; lia.
Qed.

(** A numbered paragraph does not take the bullet rule. *)
Lemma numbered_not_bullet p :
  test (matchNumbered false) p = true -> test (matchBullet false) p = false.
Proof.
  intros H.
  destruct (test_matchNumbered_shape p H)
    as (d & ds & dot & sp & r & Hs1 & Hd & _ & _).
  unfold test. rewrite matchBullet_dropWhile, Hs1.
  destruct ds as [|x ds]; [reflexivity|].
  now rewrite (digit_not_marker d Hd).
Qed.

Lemma dropWhile_head f (s : jsstring) c r :
  dropWhile f s = c :: r ->
  exists c0 r0, s = c0 :: r0 /\ (f c0 = true \/ c0 = c).
Proof.
  destruct s as [|c0 r0]; [discriminate|]. cbn [dropWhile].
  intros H. exists c0, r0. split; [reflexivity|].
  destruct (f c0); [now left|right; congruence].
Qed.

(** None of the heading and quote rules applies to a paragraph that
    starts with whitespace or a digit. *)
Lemma space_or_digit_rules c r :
  isSpace c || isDigit c = true ->
  startsWith (js "# ") (c :: r) = false
  /\ isHeading (js "## ") 50 (c :: r) = false
  /\ isHeading (js "### ") 51 (c :: r) = false
  /\ isHeading (js "#### ") 52 (c :: r) = false
  /\ startsWith (js "> ") (c :: r) || startsWith (js "&gt; ") (c :: r) = false.
Proof.
  intros Hc.
  assert (H35 : (35 =? c)%N = false) by (apply N.eqb_neq; intros <-; discriminate Hc).
  assert (H62 : (62 =? c)%N = false) by (apply N.eqb_neq; intros <-; discriminate Hc).
  assert (H38 : (38 =? c)%N = false) by (apply N.eqb_neq; intros <-; discriminate Hc).
  assert (H72 : (c =? 72)%N = false) by (apply N.eqb_neq; intros ->; discriminate Hc).
  assert (H104 : (c =? 104)%N = false) by (apply N.eqb_neq; intros ->; discriminate Hc).
  unfold isHeading.
  rewrite !(matchPseudoHeading_head _ c r H72 H104).
  change (js "# ") with (35 :: js " ")%N.
  change (js "## ") with (35 :: js "# ")%N.
  change (js "### ") with (35 :: js "## ")%N.
  change (js "#### ") with (35 :: js "### ")%N.
  change (js "> ") with (62 :: js " ")%N.
  change (js "&gt; ") with (38 :: js "gt; ")%N.
  rewrite !(startsWith_head_neq 35 _ c r H35).
  rewrite (startsWith_head_neq 62 _ c r H62).
  rewrite (startsWith_head_neq 38 _ c r H38).
  repeat split.
Qed.

(** X6. A paragraph unit whose first line matches the numbered-list
    pattern (optional whitespace, digits, a dot, whitespace) yields, in
    order, one block for each of its lines that matches the pattern: a
    normal-style numbered list item of level 1, tokenized from the line
    with its marker prefix stripped.  The other lines of the unit yield
    nothing. *)
Theorem numbered_list_expansion
    (random : nat -> nat) (paragraph : jsstring) (k : nat) :
  test (matchNumbered false) (firstLine paragraph) = true ->
  exists bs k',
    blockOfParagraph random paragraph k = Some (inr bs, k')
    /\ Forall2
         (fun line b =>
            style b = normal /\ listItem b = Some number
            /\ level b = Some 1%Z
            /\ processBoldAndEmphasis (stripMatch (matchNumbered true) line)
               = Some (children b))
         (filter (test (matchNumbered false)) (split nl paragraph)) bs.
Proof.
  intros Hfirst.
  assert (Hp : test (matchNumbered false) paragraph = true).
  { destruct (firstLine_prefix paragraph) as [rest Hrest].
    rewrite Hrest. now apply test_matchNumbered_app. }
  pose proof (numbered_not_bullet paragraph Hp) as Hnb.
  destruct (test_matchNumbered_shape paragraph Hp)
    as (d & ds & _ & _ & _ & Hs1 & Hd & _ & _).
  destruct (dropWhile_head _ _ _ _ Hs1) as (c & r & -> & Hc).
  assert (Hc' : isSpace c || isDigit c = true).
  { destruct Hc as [->| ->]; [reflexivity|]. rewrite Hd. apply orb_true_r. }
  destruct (space_or_digit_rules c r Hc') as (R1 & R2 & R3 & R4 & R5).
  unfold blockOfParagraph. rewrite R1, R2, R3, R4, R5, Hnb, Hp.
  destruct (mapM_run
              (fun item => makeBlock random normal (Some number) (Some 1%Z)
                             (stripMatch (matchNumbered true) item))
              (fun line b =>
                 style b = normal /\ listItem b = Some number
                 /\ level b = Some 1%Z
                 /\ processBoldAndEmphasis (stripMatch (matchNumbered true) line)
                    = Some (children b)))
    with (l := filter (test (matchNumbered false)) (split nl (c :: r)))
         (k := k) as (bs & k' & Hrun & HR).
  - intros line k0. rewrite makeBlock_exact.
    eexists _, _. split; [reflexivity|]. cbn.
    repeat split. apply processBoldAndEmphasis_tokenize.
  - exists bs, k'. split; [|exact HR].
    unfold bind. rewrite Hrun. reflexivity.
Qed.

Lemma numbered_list_expansion_witness :
  exists bs k',
    blockOfParagraph (fun k => k)
      (js "1. one" ++ nl ++ js "note" ++ nl ++ js " 12.  two") 0
    = Some (inr bs, k')
    /\ Forall2
         (fun line b =>
            style b = normal /\ listItem b = Some number
            /\ level b = Some 1%Z
            /\ processBoldAndEmphasis (stripMatch (matchNumbered true) line)
               = Some (children b))
         [js "1. one"; js " 12.  two"] bs.
Proof.
  apply (numbered_list_expansion (fun k => k)
           (js "1. one" ++ nl ++ js "note" ++ nl ++ js " 12.  two") 0).
  reflexivity.
Defined.

(** ** Blank lines *)

Lemma collapseFrom_saturated b : forall k k',
  2 <= k -> 2 <= k' -> collapseFrom k b = collapseFrom k' b.
Proof.
  induction b as [|c b IH]; intros k k' Hk Hk'; [reflexivity|].
  cbn [collapseFrom]. destruct (c =? cNL)%N; [|reflexivity].
  destruct (Nat.ltb_spec k 2); [lia|]. destruct (Nat.ltb_spec k' 2); [lia|].
  apply IH; lia.
Qed.

Lemma collapseFrom_reset k b :
  headIsNewline b = false -> collapseFrom k b = collapseFrom 0 b.
Proof.
  destruct b as [|c b]; [reflexivity|]. cbn [headIsNewline collapseFrom].
  now intros ->.
Qed.

Lemma collapseFrom_run n b : forall j,
  collapseFrom j (repeat cNL n ++ b)
  = repeat cNL (Nat.min n (2 - j)) ++ collapseFrom (j + n) b.
Proof.
  induction n as [|n IH]; intros j.
  - cbn [repeat app Nat.min]. now rewrite Nat.add_0_r.
  - cbn [repeat app collapseFrom]. rewrite N.eqb_refl, IH.
    replace (S j + n) with (j + S n) by lia.
    destruct (Nat.ltb_spec j 2).
    + replace (2 - j) with (S (2 - S j)) by lia. reflexivity.
    + replace (2 - j) with 0 by lia. replace (2 - S j) with 0 by lia.
      now rewrite !Nat.min_0_r.
Qed.

Lemma collapseFrom_app a z : forall k,
  collapseFrom k (a ++ z)
  = collapseFrom k a ++ collapseFrom (trailingNewlines k a) z.
Proof.
  induction a as [|c a IH]; intros k; [reflexivity|].
  cbn [app collapseFrom trailingNewlines].
  destruct (c =? cNL)%N; [destruct (k <? 2)|]; rewrite IH; reflexivity.
Qed.

(** Two newlines or more in a row come out the same. *)
Lemma collapseFrom_blank a b n :
  2 <= n ->
  collapseFrom 0 (a ++ repeat cNL n ++ b) = collapseFrom 0 (a ++ nlnl ++ b).
Proof.
  intros Hn. rewrite (collapseFrom_app a (repeat cNL n ++ b)).
  rewrite (collapseFrom_app a (nlnl ++ b)). f_equal.
  change nlnl with (repeat cNL 2). rewrite !collapseFrom_run.
  f_equal.
  - f_equal. lia.
  - apply collapseFrom_saturated; lia.
Qed.

Lemma takeWhile_newlines n dw :
  headIsNewline dw = false ->
  takeWhile (N.eqb cNL) (repeat cNL n ++ dw) = repeat cNL n.
Proof.
  intros Hd. induction n as [|n IH].
  - destruct dw as [|c dw]; [reflexivity|].
    cbn [repeat app takeWhile headIsNewline] in *.
    rewrite N.eqb_sym in Hd. now rewrite Hd.
  - cbn [repeat app takeWhile]. rewrite N.eqb_refl. now f_equal.
Qed.

Lemma newline_run_split s :
  exists n dw, s = repeat cNL n ++ dw /\ headIsNewline dw = false.
Proof.
  induction s as [|c s IH]; [now exists 0, []|].
  destruct (N.eqb_spec c cNL) as [->|Hne].
  - destruct IH as (n & dw & -> & Hd). now exists (S n), dw.
  - exists 0, (c :: s). split; [reflexivity|]. now apply N.eqb_neq.
Qed.

Lemma matchNewlines_run n dw :
  headIsNewline dw = false ->
  matchNewlines (repeat cNL n ++ dw)
  = if 3 <=? n then Some (n, nlnl) else None.
Proof.
  intros Hd. unfold matchNewlines.
  now rewrite takeWhile_newlines, repeat_length.
Qed.

Lemma skipn_repeat_app {A} (x : A) n l : skipn n (repeat x n ++ l) = l.
Proof. induction n; [reflexivity|assumption]. Qed.

Lemma replaceAll_newlines_run n dw :
  headIsNewline dw = false ->
  replaceAll_from matchNewlines 0 (repeat cNL n ++ dw)
  = repeat cNL (Nat.min n 2) ++ replaceAll_from matchNewlines 0 dw.
Proof.
  intros Hd.
  pose proof (matchNewlines_run 1 dw Hd) as H1. cbn [repeat app Nat.leb] in H1.
  pose proof (matchNewlines_run 2 dw Hd) as H2. cbn [repeat app Nat.leb] in H2.
  destruct n as [|[|[|n]]].
  - reflexivity.
  - cbn [repeat app Nat.min]. now rewrite replaceAll_from_cons, H1.
  - cbn [repeat app Nat.min].
    now rewrite replaceAll_from_cons, H2, replaceAll_from_cons, H1.
  - pose proof (matchNewlines_run (S (S (S n))) dw Hd) as H3.
    cbn [repeat app Nat.leb] in H3. cbn [repeat app Nat.min].
    rewrite replaceAll_from_cons, H3.
    rewrite Nat.sub_succ, Nat.sub_0_r.
    change (cNL :: cNL :: repeat cNL n ++ dw)
      with (repeat cNL (S (S n)) ++ dw).
    now rewrite skipn_repeat_app.
Qed.

(** The global replacement keeps the first two newlines of every run. *)
Lemma replaceAll_newlines_collapse s :
  replaceAll matchNewlines s = collapseFrom 0 s.
Proof.
  unfold replaceAll.
  assert (H : forall n s, length s <= n ->
                          replaceAll_from matchNewlines 0 s = collapseFrom 0 s).
  { clear s. induction n as [|n IH]; intros [|c r] Hlen; simpl in Hlen;
      try reflexivity; try lia.
    destruct (N.eqb_spec c cNL) as [->|Hne].
    - destruct (newline_run_split r) as (m & dw & -> & Hd).
      change (cNL :: repeat cNL m ++ dw) with (repeat cNL (S m) ++ dw).
      rewrite replaceAll_newlines_run by exact Hd.
      rewrite collapseFrom_run.
      rewrite Nat.sub_0_r. f_equal.
      rewrite collapseFrom_reset by exact Hd. apply IH.
      rewrite length_app in Hlen. lia.
    - apply N.eqb_neq in Hne.
      pose proof (matchNewlines_run 0 (c :: r) Hne) as H0.
      cbn [repeat app Nat.leb] in H0.
      rewrite replaceAll_from_cons, H0.
      cbn [collapseFrom]. rewrite Hne.
      f_equal. apply IH. lia. }
  now apply (H (length s)).
Qed.

(** *** The heading rewrite does not reach across a newline *)

Lemma startsWith_app_newline pat : forall a z,
  Forall (fun x => (x =? cNL)%N = false) pat ->
  startsWith pat (a ++ cNL :: z) = startsWith pat a.
Proof.
  induction pat as [|x pat IH]; intros a z Hpat; [reflexivity|].
  inversion Hpat as [|? ? Hx Hpat']; subst.
  destruct a as [|c a]; cbn [app startsWith].
  - now rewrite Hx.
  - now rewrite IH.
Qed.

Lemma lazyUntilStars_app_newline z : forall r,
  lazyUntilStars (r ++ cNL :: z) = lazyUntilStars r.
Proof.
  induction r as [|c r IH]; [reflexivity|].
  cbn [app lazyUntilStars].
  change (c :: r ++ cNL :: z) with ((c :: r) ++ cNL :: z).
  rewrite startsWith_app_newline by (repeat constructor).
  now rewrite IH.
Qed.

Lemma matchBoldHeading_app_newline a z :
  matchBoldHeading (a ++ cNL :: z) = matchBoldHeading a.
Proof.
  unfold matchBoldHeading.
  rewrite startsWith_app_newline by (repeat constructor).
  destruct (startsWith (js "**H") a) eqn:Hp; [|reflexivity].
  apply startsWith_app in Hp.
  set (rest := skipn (length (js "**H")) a) in Hp. clearbody rest. subst a.
  rewrite <- app_assoc. cbn [js map list_ascii_of_string app skipn].
  destruct rest as [|level [|colon r]]; cbn [app].
  - now destruct z.
  - change (cNL =? cCOLON)%N with false. now rewrite andb_false_r.
  - now rewrite lazyUntilStars_app_newline.
Qed.

Lemma lazyUntilStars_length : forall r content,
  lazyUntilStars r = Some content -> length content + 2 <= length r.
Proof.
  induction r as [|c r IH]; intros content H; [discriminate|].
  cbn [lazyUntilStars] in H.
  destruct (startsWith [cSTAR; cSTAR] (c :: r)) eqn:Hs.
  { inversion H; subst. apply startsWith_app in Hs. rewrite Hs.
    cbn. lia. }
  destruct (isLineTerminator c); [discriminate|].
  destruct (lazyUntilStars r) as [content'|] eqn:Hr; [|discriminate].
  inversion H; subst. specialize (IH _ eq_refl). cbn [length]. lia.
Qed.

Lemma matchBoldHeading_length s len repl :
  matchBoldHeading s = Some (len, repl) -> 1 <= len <= length s.
Proof.
  unfold matchBoldHeading.
  destruct (startsWith (js "**H") s) eqn:Hp; [|discriminate].
  apply startsWith_app in Hp.
  destruct (skipn 3 s) as [|level [|colon r]] eqn:Hskip; try discriminate.
  destruct (_ && _ && _); [|discriminate].
  destruct (lazyUntilStars r) as [content|] eqn:Hr; [|discriminate].
  intros H. inversion H; subst len repl.
  apply lazyUntilStars_length in Hr.
  change (length (js "**H")) with 3 in Hp. rewrite Hskip in Hp.
  rewrite Hp. cbn [length app js map list_ascii_of_string]. lia.
Qed.

Lemma replaceAll_headings_newline z n : forall a,
  length a <= n ->
  replaceAll_from matchBoldHeading 0 (a ++ cNL :: z)
  = replaceAll_from matchBoldHeading 0 a
    ++ cNL :: replaceAll_from matchBoldHeading 0 z.
Proof.
  induction n as [|n IH]; intros [|c a] Hlen; simpl in Hlen; try lia.
  - cbn [app]. now rewrite replaceAll_from_cons.
  - cbn [app]. now rewrite replaceAll_from_cons.
  - change ((c :: a) ++ cNL :: z) with (c :: (a ++ cNL :: z)).
    rewrite !replaceAll_from_cons.
    change (c :: (a ++ cNL :: z)) with ((c :: a) ++ cNL :: z).
    rewrite matchBoldHeading_app_newline.
    destruct (matchBoldHeading (c :: a)) as [[len repl]|] eqn:Hm.
    + apply matchBoldHeading_length in Hm. cbn [length] in Hm.
      rewrite skipn_app.
      replace (len - 1 - length a) with 0 by lia. cbn [skipn].
      rewrite IH, <- app_assoc; [reflexivity|].
      pose proof (length_skipn_le (len - 1) a). lia.
    + cbn [app]. f_equal. apply IH. lia.
Qed.

Lemma replaceAll_headings_blank b n : forall a,
  replaceAll matchBoldHeading (a ++ repeat cNL (S n) ++ b)
  = replaceAll matchBoldHeading a ++ repeat cNL (S n)
    ++ replaceAll matchBoldHeading b.
Proof.
  unfold replaceAll. induction n as [|n IH]; intros a.
  - cbn [repeat app].
    now apply (replaceAll_headings_newline b (length a)).
  - change (repeat cNL (S (S n)) ++ b) with (cNL :: (repeat cNL (S n) ++ b)).
    rewrite (replaceAll_headings_newline _ (length a)) by lia.
    pose proof (IH []) as H0. cbn [app replaceAll_from] in H0.
    rewrite H0. reflexivity.
Qed.

(** X7. Two newlines or more between two pieces of text come to the same:
    for every [a], [b] and [n >= 2], preprocessing [a], [n] newlines and
    [b] gives what it gives for [a], two newlines and [b], and so does the
    whole conversion, keys included. *)
Theorem blank_lines_collapse (a b : jsstring) (n : nat) :
  2 <= n ->
  cleanMarkdown (a ++ repeat cNL n ++ b) = cleanMarkdown (a ++ nlnl ++ b)
  /\ forall (random : nat -> nat) (k : nat),
       markdownToPortableText random (a ++ repeat cNL n ++ b) k
       = markdownToPortableText random (a ++ nlnl ++ b) k.
Proof.
  intros Hn.
  assert (Hclean : cleanMarkdown (a ++ repeat cNL n ++ b)
                   = cleanMarkdown (a ++ nlnl ++ b)).
  { unfold cleanMarkdown. rewrite !replaceAll_newlines_collapse.
    destruct n as [|n]; [lia|].
    change nlnl with (repeat cNL 2).
    rewrite (replaceAll_headings_blank b n a).
    rewrite (replaceAll_headings_blank b 1 a).
    apply collapseFrom_blank. lia. }
  split; [exact Hclean|].
  intros random k. unfold markdownToPortableText. now rewrite Hclean.
Qed.

Lemma blank_lines_collapse_witness :
  cleanMarkdown (js "# T" ++ repeat cNL 4 ++ js "text")
  = cleanMarkdown (js "# T" ++ nlnl ++ js "text")
  /\ forall (random : nat -> nat) (k : nat),
       markdownToPortableText random (js "# T" ++ repeat cNL 4 ++ js "text") k
       = markdownToPortableText random (js "# T" ++ nlnl ++ js "text") k.
Proof.
  apply (blank_lines_collapse (js "# T") (js "text") 4). repeat constructor.
Defined.

Lemma tripleFree_collapse s : forall k,
  tripleFree (Nat.min k 2) (collapseFrom k s) = true.
Proof.
  induction s as [|c s IH]; intros k; [reflexivity|].
  cbn [collapseFrom]. destruct (c =? cNL)%N eqn:Hc.
  - destruct (Nat.ltb_spec k 2).
    + cbn [tripleFree]. rewrite Hc.
      replace (Nat.min k 2) with k by lia.
      specialize (IH (S k)). replace (Nat.min (S k) 2) with (S k) in IH by lia.
      rewrite IH, andb_true_r. apply Nat.ltb_lt. lia.
    + specialize (IH (S k)). replace (Nat.min (S k) 2) with 2 in IH by lia.
      now replace (Nat.min k 2) with 2 by lia.
  - cbn [tripleFree]. rewrite Hc. apply (IH 0).
Qed.

Lemma tripleFree_no_triple s : forall a k b,
  tripleFree k s = true -> s <> a ++ [cNL; cNL; cNL] ++ b.
Proof.
  intros a. revert s. induction a as [|x a IH]; intros s k b H Hs.
  - subst s. cbn [app tripleFree] in H. rewrite !N.eqb_refl in H.
    apply andb_prop in H as [_ H]. apply andb_prop in H as [_ H].
    apply andb_prop in H as [H _]. apply Nat.ltb_lt in H. lia.
  - subst s. cbn [app tripleFree] in H.
    destruct (x =? cNL)%N.
    + apply andb_prop in H as [_ H]. now apply (IH _ _ b H).
    + now apply (IH _ _ b H).
Qed.

Lemma threeNewlines_substring s :
  threeNewlines s = true -> substring [cNL; cNL; cNL] s.
Proof.
  induction s as [|c s IH]; [discriminate|]. cbn [threeNewlines].
  intros H. apply orb_prop in H as [H|H].
  - apply startsWith_app in H. exists [], (skipn 3 (c :: s)). exact H.
  - destruct (IH H) as (a & b & ->). now exists (c :: a), b.
Qed.

(** X8. After preprocessing no three consecutive newlines are left,
    whatever the input. *)
Theorem cleaned_no_triple_newline (markdown : jsstring) :
  threeNewlines (cleanMarkdown markdown) = false.
Proof.
  destruct (threeNewlines (cleanMarkdown markdown)) eqn:H; [|reflexivity].
  apply threeNewlines_substring in H as (a & b & H).
  unfold cleanMarkdown in H. rewrite replaceAll_newlines_collapse in H.
  now elim (tripleFree_no_triple _ a 0 b (tripleFree_collapse _ 0) H).
Qed.

(** ** Keywords *)

Lemma dropWhile_idem f (s : jsstring) :
  dropWhile f (dropWhile f s) = dropWhile f s.
Proof.
  induction s as [|c s IH]; [reflexivity|]. cbn [dropWhile].
  destruct (f c) eqn:Hc; [exact IH|]. cbn [dropWhile]. now rewrite Hc.
Qed.

Lemma dropWhile_head_false f (s : jsstring) c r :
  dropWhile f s = c :: r -> f c = false.
Proof.
  induction s as [|x s IH]; [discriminate|]. cbn [dropWhile].
  destruct (f x) eqn:Hx; [exact IH|]. intros H. now inversion H; subst.
Qed.

Lemma trim_idem (s : jsstring) : trim (trim s) = trim s.
Proof.
  unfold trim. set (u := dropWhile isSpace s).
  set (v := dropWhile isSpace (rev u)).
  assert (Hu : u = rev v ++ rev (takeWhile isSpace (rev u))).
  { rewrite <- rev_app_distr. unfold v.
    rewrite <- takeWhile_dropWhile. now rewrite rev_involutive. }
  assert (H1 : dropWhile isSpace (rev v) = rev v).
  { destruct (rev v) as [|x t] eqn:Ht; [reflexivity|].
    cbn [dropWhile]. cbn [app] in Hu.
    unfold u in Hu. now rewrite (dropWhile_head_false _ _ _ _ Hu). }
  rewrite H1, rev_involutive. unfold v at 1. now rewrite dropWhile_idem.
Qed.

Lemma split_char_pieces c s : forall cur,
  ~ In c cur ->
  Forall (fun piece => ~ In c piece) (split_from [c] 0 cur s).
Proof.
  induction s as [|x s IH]; intros cur Hcur.
  - cbn. now constructor.
  - cbn [split_from startsWith length Nat.sub]. rewrite andb_true_r.
    destruct (N.eqb_spec c x) as [->|Hne].
    + constructor; [exact Hcur|]. apply IH. intros [].
    + apply IH. intros Hin. apply in_app_or in Hin as [Hin|[->|[]]]; auto.
Qed.

Lemma In_substring (t s : jsstring) x : substring t s -> In x t -> In x s.
Proof.
  intros (a & b & ->) H. apply in_or_app. right. apply in_or_app. now left.
Qed.

Lemma truthy_nonempty (s : jsstring) : truthy s = true -> s <> [].
Proof. destruct s; [discriminate|congruence]. Qed.

(** X9. [extractKeywords] returns nothing for a missing or empty string,
    and every keyword it returns is not empty, holds no comma and has no
    whitespace at either end. *)
Theorem extractKeywords_clean :
  extractKeywords None = []
  /\ extractKeywords (Some []) = []
  /\ forall keywordsString,
       Forall cleanKeyword (extractKeywords keywordsString).
Proof.
  split; [reflexivity|]. split; [reflexivity|].
  intros [s|]; [|constructor]. unfold extractKeywords.
  destruct (negb (truthy s)); [constructor|].
  apply Forall_forall. intros k Hk.
  apply filter_In in Hk as [Hk Hne].
  apply in_map_iff in Hk as (piece & <- & Hpiece).
  repeat split.
  - now apply truthy_nonempty.
  - intros Hin. apply (In_substring _ _ _ (substring_trim piece)) in Hin.
    pose proof (split_char_pieces cCOMMA s [] (fun H => H)) as Hall.
    rewrite Forall_forall in Hall. exact (Hall _ Hpiece Hin).
  - apply trim_idem.
Qed.

Lemma split_comma_last k : forall cur,
  ~ In cCOMMA k -> split_from [cCOMMA] 0 cur k = [cur ++ k].
Proof.
  induction k as [|x k IH]; intros cur Hk.
  - cbn. now rewrite app_nil_r.
  - cbn [split_from startsWith]. rewrite andb_true_r.
    destruct (N.eqb_spec cCOMMA x) as [Heq|Hne]; [elim Hk; left; now symmetry|].
    rewrite IH, <- app_assoc; [reflexivity|].
    intros Hin. apply Hk. now right.
Qed.

Lemma split_comma_piece k rest : forall cur,
  ~ In cCOMMA k ->
  split_from [cCOMMA] 0 cur (k ++ cCOMMA :: rest)
  = (cur ++ k) :: split_from [cCOMMA] 0 [] rest.
Proof.
  induction k as [|x k IH]; intros cur Hk.
  - cbn [app split_from startsWith length Nat.sub].
    rewrite N.eqb_refl. cbn [andb]. now rewrite app_nil_r.
  - cbn [app split_from startsWith]. rewrite andb_true_r.
    destruct (N.eqb_spec cCOMMA x) as [Heq|Hne]; [elim Hk; left; now symmetry|].
    rewrite IH, <- app_assoc; [reflexivity|].
    intros Hin. apply Hk. now right.
Qed.

Lemma split_join ks : forall k cur,
  Forall cleanKeyword (k :: ks) ->
  split_from [cCOMMA] 0 cur (join (js ", ") (k :: ks))
  = (cur ++ k) :: map (fun k' => 32%N :: k') ks.
Proof.
  induction ks as [|k2 ks IH]; intros k cur Hall.
  - inversion Hall as [|? ? (_ & Hk & _) _]; subst.
    cbn [join map]. now apply split_comma_last.
  - inversion Hall as [|? ? (_ & Hk & _) Hrest]; subst.
    change (join (js ", ") (k :: k2 :: ks))
      with (k ++ cCOMMA :: 32%N :: join (js ", ") (k2 :: ks)).
    rewrite split_comma_piece by exact Hk. f_equal.
    change (32%N :: join (js ", ") (k2 :: ks))
      with ([32%N] ++ join (js ", ") (k2 :: ks)).
    assert (Hsp : forall s, split_from [cCOMMA] 0 [] ([32%N] ++ s)
                            = split_from [cCOMMA] 0 [32%N] s) by reflexivity.
    rewrite Hsp, IH by exact Hrest. reflexivity.
Qed.

(** X10. Joining clean keywords with [', '], as the pipeline does when it
    prints them, and extracting them again gives the keywords back. *)
Theorem extractKeywords_join (ks : list jsstring) :
  Forall cleanKeyword ks ->
  extractKeywords (Some (join (js ", ") ks)) = ks.
Proof.
  intros Hall. destruct ks as [|k ks]; [reflexivity|].
  unfold extractKeywords.
  assert (Hne : truthy (join (js ", ") (k :: ks)) = true).
  { inversion Hall as [|? ? (Hk & _) _]; subst.
    destruct k; [congruence|]. now destruct ks. }
  rewrite Hne. cbn [negb]. unfold split. rewrite split_join by exact Hall.
  cbn [app map filter].
  inversion Hall as [|? ? (Hk & _ & Htrim) Hrest]; subst.
  rewrite Htrim. destruct k as [|x k]; [congruence|]. cbn [truthy]. f_equal.
  clear -Hrest. induction Hrest as [|k' ks' (Hk' & _ & Htrim') _ IH];
    [reflexivity|].
  cbn [map filter]. rewrite trim_space by reflexivity. rewrite Htrim'.
  destruct k' as [|x k']; [congruence|]. cbn [truthy]. now f_equal.
Qed.

Lemma extractKeywords_join_witness :
  extractKeywords (Some (join (js ", ") [js "seo"; js "blog post"; js "ai"]))
  = [js "seo"; js "blog post"; js "ai"].
Proof.
  apply extractKeywords_join.
  repeat constructor; try discriminate;
    intros H; repeat (destruct H as [H|H]; [discriminate H|]); exact H.
Defined.

(** ** Retries *)

Section RetryProperties.

Context {T E Num : Type}.
Variable timesOneAndHalf : Num -> Num.
Variable fn : nat -> T + E.

(** The loop from a state on, when the next [j] calls throw. *)
Lemma retryLoop_failures maxRetries j : forall fuel st,
  (forall i, i < j -> thrownAt fn (calls st + i) <> None) ->
  (attempt st + Z.of_nat j <= maxRetries + 1)%Z ->
  j <= fuel ->
  retryLoop timesOneAndHalf fn fuel maxRetries st
  = retryLoop timesOneAndHalf fn (fuel - j) maxRetries
      (mkRetry (attempt st + Z.of_nat j) (calls st + j)
               (Nat.iter j timesOneAndHalf (delay st))
               (match j with
                | O => lastError st
                | S j' => thrownAt fn (calls st + j')
                end)
               (waits st ++ backoff timesOneAndHalf j (delay st))).
Proof.
  induction j as [|j IH]; intros fuel st Hfail Hmax Hfuel.
  - destruct st. cbn [attempt calls delay lastError waits Nat.iter backoff].
    now rewrite Z.add_0_r, Nat.add_0_r, Nat.sub_0_r, app_nil_r.
  - destruct fuel as [|fuel]; [lia|].
    pose proof (Hfail 0 (Nat.lt_0_succ j)) as H0.
    rewrite Nat.add_0_r in H0. unfold thrownAt in H0.
    destruct (fn (calls st)) as [v|err] eqn:Herr; [congruence|].
    cbn [retryLoop]. destruct (Z.leb_spec (attempt st) maxRetries); [|lia].
    rewrite Herr, IH; cbn [attempt calls delay lastError waits].
    + rewrite Nat.sub_succ, <- app_assoc, Nat.iter_succ_r. cbn [app backoff].
      f_equal. f_equal; try lia.
      destruct j as [|j].
      * rewrite Nat.add_0_r. unfold thrownAt. now rewrite Herr.
      * f_equal. lia.
    + intros i Hi. replace (S (calls st) + i) with (calls st + S i) by lia.
      apply Hfail. lia.
    + lia.
    + lia.
Qed.

Lemma failsWith_thrownAt errs i :
  failsWith fn errs -> i < length errs ->
  thrownAt fn i = nth_error errs i /\ thrownAt fn i <> None.
Proof.
  intros Hf Hi. destruct (nth_error errs i) as [e|] eqn:He.
  - unfold thrownAt. rewrite (Hf i e He). split; congruence.
  - apply nth_error_None in He. lia.
Qed.

Lemma nth_error_last {A} (l : list A) :
  match length l with
  | O => None
  | S n => nth_error l n
  end = hd_error (rev l).
Proof.
  destruct l as [|a l] using rev_ind; [reflexivity|].
  rewrite length_app, rev_app_distr. cbn [length app rev hd_error].
  rewrite Nat.add_1_r. rewrite nth_error_app2 by lia.
  now rewrite Nat.sub_diag.
Qed.

(** X11. When the first calls of [fn] throw and the next one, still within
    [maxRetries] attempts, resolves to a value, [fetchWithRetry] returns
    that value.  It has then made one call more than there were failures
    and no call after the success, and it has waited once after each
    failure, for the delay it was given and then 1.5 times the delay
    before, in this order. *)
Theorem fetchWithRetry_success
    (maxRetries : Z) (delay0 : Num) (errs : list E) (value : T) :
  failsWith fn errs ->
  fn (length errs) = inl value ->
  (Z.of_nat (length errs) < maxRetries)%Z ->
  exists st,
    fetchWithRetry timesOneAndHalf fn maxRetries delay0
    = Some (Returned value, st)
    /\ calls st = S (length errs)
    /\ waits st = backoff timesOneAndHalf (length errs) delay0.
Proof.
  intros Hf Hv Hmax. unfold fetchWithRetry.
  rewrite (retryLoop_failures maxRetries (length errs));
    cbn [attempt calls delay lastError waits]; try lia.
  - destruct (Z.to_nat maxRetries - length errs) as [|fuel] eqn:Hfuel; [lia|].
    cbn [retryLoop attempt calls].
    destruct (Z.leb_spec (1 + Z.of_nat (length errs)) maxRetries); [|lia].
    cbn [Nat.add]. rewrite Hv.
    eexists. split; [reflexivity|]. split; reflexivity.
  - intros i Hi. now apply (failsWith_thrownAt errs).
Qed.

(** X12. When [fn] throws at each of the [maxRetries] attempts,
    [fetchWithRetry] throws what the last attempt threw, after exactly
    [maxRetries] calls and as many waits, the last of them after the last
    failure.  With [maxRetries <= 0] it makes no call and no wait and
    throws [lastError] unassigned, that is [undefined]. *)
Theorem fetchWithRetry_exhausted
    (maxRetries : Z) (delay0 : Num) (errs : list E) :
  failsWith fn errs ->
  length errs = Z.to_nat maxRetries ->
  exists st,
    fetchWithRetry timesOneAndHalf fn maxRetries delay0
    = Some (Thrown (hd_error (rev errs)), st)
    /\ calls st = length errs
    /\ waits st = backoff timesOneAndHalf (length errs) delay0.
Proof.
  intros Hf Hlen. unfold fetchWithRetry.
  destruct errs as [|e0 errs0] eqn:Herrs.
  { rewrite <- Hlen. cbn [retryLoop attempt length].
    destruct (Z.leb_spec 1 maxRetries); [cbn [length] in Hlen; lia|].
    eexists. split; [reflexivity|]. split; reflexivity. }
  rewrite <- Herrs in *. assert (Hpos : 0 < length errs) by (subst; cbn; lia).
  clear Herrs e0 errs0.
  rewrite (retryLoop_failures maxRetries (length errs));
    cbn [attempt calls delay lastError waits]; try lia.
  - rewrite <- Hlen, Nat.sub_diag. cbn [retryLoop attempt].
    destruct (Z.leb_spec (1 + Z.of_nat (length errs)) maxRetries); [lia|].
    cbn [lastError].
    assert (Hlast : match length errs with
                    | O => None
                    | S j' => thrownAt fn (0 + j')
                    end = hd_error (rev errs)).
    { rewrite <- nth_error_last.
      destruct (length errs) as [|n] eqn:Hn; [reflexivity|].
      apply (failsWith_thrownAt errs); [exact Hf|lia]. }
    rewrite Hlast.
    eexists. split; [reflexivity|]. split; reflexivity.
  - intros i Hi. now apply (failsWith_thrownAt errs).
Qed.

End RetryProperties.

Lemma fetchWithRetry_success_witness :
  exists st,
    fetchWithRetry (fun d => d * 3 / 2)
      (fun k => if k <? 2 then inr (500 + k) else inl 7) 3%Z 2000
    = Some (Returned 7, st)
    /\ calls st = 3
    /\ waits st = [2000; 3000].
Proof.
  apply (fetchWithRetry_success (fun d => d * 3 / 2)
           (fun k => if k <? 2 then inr (500 + k) else inl 7)
           3%Z 2000 [500; 501] 7).
  - intros [|[|i]] e H; cbn in H; try now inversion H.
    now destruct i.
  - reflexivity.
  - reflexivity.
Defined.

Lemma fetchWithRetry_exhausted_witness :
  exists st,
    fetchWithRetry (fun d => d * 3 / 2)
      (fun k => inr (500 + k) : nat + nat) 3%Z 2000
    = Some (Thrown (Some 502), st)
    /\ calls st = 3
    /\ waits st = [2000; 3000; 4500].
Proof.
  apply (fetchWithRetry_exhausted (fun d => d * 3 / 2)
           (fun k => inr (500 + k) : nat + nat) 3%Z 2000 [500; 501; 502]).
  - intros [|[|[|i]]] e H; cbn in H; try now inversion H.
    now destruct i.
  - reflexivity.
Defined.

(** ** Document IDs *)

Lemma truthyOpt_nonempty o :
  truthyOpt o = true -> exists s, o = Some s /\ s <> [].
Proof.
  destruct o as [s|]; [|discriminate]. intros H. exists s.
  split; [reflexivity|]. now apply truthy_nonempty.
Qed.

(** Case analysis on a run of [documentIdOf]. *)
Ltac documentId_cases H :=
  unfold documentIdOf, bind, generateKey, ret in H;
  repeat match type of H with
  | context [generateKey_loop _ _ _ _] => rewrite generateKey_loop_keyAt in H
  | context [match ?x with _ => _ end] => destruct x eqn:?
  end;
  inversion H; subst; clear H.

Lemma documentIdOf_total random slug result k :
  exists r k', documentIdOf random slug result k = Some (r, k').
Proof.
  unfold documentIdOf, bind, generateKey, ret.
  repeat match goal with
  | |- context [generateKey_loop _ _ _ _] => rewrite generateKey_loop_keyAt
  | |- context [match ?x with _ => _ end] => destruct x eqn:?
  end; eauto.
Qed.

Lemma documentIdOf_nonempty random slug result k i k' :
  documentIdOf random slug result k = Some (inl i, k') -> i <> [].
Proof.
  intros H. documentId_cases H; try discriminate;
    repeat match goal with
    | H : truthyOpt _ = true |- _ =>
        apply truthyOpt_nonempty in H as (? & ? & ?)
    end; congruence.
Qed.

Lemma documentIdOf_error random slug result k message k' :
  documentIdOf random slug result k = Some (inr message, k') ->
  (results result = None \/ results result = Some [])
  /\ truthyOpt (transactionId result) = false.
Proof.
  intros H. documentId_cases H; auto.
Qed.

Lemma documentIdOf_no_result random slug result k :
  results result = None \/ results result = Some [] ->
  truthyOpt (transactionId result) = false ->
  exists message, documentIdOf random slug result k = Some (inr message, k).
Proof.
  intros Hres Ht. unfold documentIdOf, ret.
  destruct Hres as [-> | ->]; rewrite Ht; eauto.
Qed.

Lemma documentIdOf_given_id random slug result k first rest i :
  results result = Some (first :: rest) ->
  res_id first = Some i -> i <> [] ->
  documentIdOf random slug result k = Some (inl i, k).
Proof.
  intros Hres Hid Hne. unfold documentIdOf, ret. rewrite Hres, Hid.
  destruct i; [congruence|reflexivity].
Qed.

Lemma documentIdOf_made_up random slug result k first rest i k' :
  results result = Some (first :: rest) ->
  truthyOpt (res_id first) = false ->
  match document first with Some d => truthyOpt d | None => false end = false ->
  documentIdOf random slug result k = Some (inl i, k') ->
  startsWith (js "post.") i = true /\ k' = k + 8.
Proof.
  intros Hres Hid Hdoc H. unfold documentIdOf in H.
  rewrite Hres, Hid, Hdoc in H.
  destruct (jsstring_eqb _ _); unfold bind, generateKey, ret in H;
    rewrite generateKey_loop_keyAt in H; inversion H; subst;
    split; reflexivity.
Qed.

(** X13. The response handling of [publishToSanity] always ends; it
    fails exactly when the response has no first result and no transaction
    ID, and a document ID it returns is never empty.  The [id] of the first
    result, when it has one that is not empty, is returned as it is,
    without any random draw; an ID made up for a first result without [id]
    and without document [_id] starts with "post." and takes eight
    draws. *)
Theorem documentIdOf_cases
    (random : nat -> nat) (slug : jsstring) (result : SanityMutationResponse)
    (k : nat) :
  (exists r k', documentIdOf random slug result k = Some (r, k'))
  /\ ((exists message k',
          documentIdOf random slug result k = Some (inr message, k'))
      <-> (results result = None \/ results result = Some [])
          /\ truthyOpt (transactionId result) = false)
  /\ (forall i k',
         documentIdOf random slug result k = Some (inl i, k') -> i <> [])
  /\ (forall first rest i,
         results result = Some (first :: rest) ->
         res_id first = Some i -> i <> [] ->
         documentIdOf random slug result k = Some (inl i, k))
  /\ (forall first rest i k',
         results result = Some (first :: rest) ->
         truthyOpt (res_id first) = false ->
         match document first with
         | Some d => truthyOpt d
         | None => false
         end = false ->
         documentIdOf random slug result k = Some (inl i, k') ->
         startsWith (js "post.") i = true /\ k' = k + 8).
Proof.
  split; [apply documentIdOf_total|]. split; [|split; [|split]].
  - split.
    + intros (message & k' & H). now apply documentIdOf_error in H.
    + intros [Hres Ht].
      destruct (documentIdOf_no_result random slug result k Hres Ht) as [m Hm].
      now exists m, k.
  - intros i k'. apply documentIdOf_nonempty.
  - intros first rest i. apply documentIdOf_given_id.
  - intros first rest i k'. apply documentIdOf_made_up.
Qed.

Lemma documentIdOf_cases_witness :
  documentIdOf (fun j => j) (js "my-post")
    (mkResponse None (Some [mkResult (Some (js "abc")) (js "create") None])) 0
  = Some (inl (js "abc"), 0)
  /\ forall i k',
       documentIdOf (fun j => j) (js "my-post")
         (mkResponse None (Some [mkResult None (js "create") None])) 0
       = Some (inl i, k') ->
       startsWith (js "post.") i = true /\ k' = 0 + 8.
Proof.
  split.
  - destruct (documentIdOf_cases (fun j => j) (js "my-post")
                (mkResponse None
                   (Some [mkResult (Some (js "abc")) (js "create") None])) 0)
      as (_ & _ & _ & H & _).
    apply (H (mkResult (Some (js "abc")) (js "create") None) [] (js "abc"));
      [reflexivity|reflexivity|discriminate].
  - intros i k'.
    destruct (documentIdOf_cases (fun j => j) (js "my-post")
                (mkResponse None (Some [mkResult None (js "create") None])) 0)
      as (_ & _ & _ & _ & H).
    apply (H (mkResult None (js "create") None) [] i k'); reflexivity.
Defined.

(** ** Image file names *)

Lemma replaceAll_notAlnum s :
  replaceAll matchNotAlnum s = map sanitizeChar s.
Proof.
  unfold replaceAll. induction s as [|c s IH]; [reflexivity|].
  rewrite replaceAll_from_cons. unfold matchNotAlnum at 1.
  cbn [map]. unfold sanitizeChar at 1.
  destruct (isAlnum c); cbn [Nat.sub skipn app]; now rewrite IH.
Qed.

(** X14. The file name sent with an uploaded image is the alt text with
    every code unit that is no ASCII letter or digit replaced by an
    underscore, followed by ".jpg": it is four longer than the alt text,
    holds nothing but ASCII letters, digits, underscores and the dot of
    the extension (no line break in particular), and an alt text of
    letters and digits is kept as it is. *)
Theorem imageFilename_safe (altText : jsstring) :
  imageFilename altText = map sanitizeChar altText ++ js ".jpg"
  /\ length (imageFilename altText) = length altText + 4
  /\ Forall (fun c => isAlnum c || (c =? cUNDERSCORE)%N || (c =? cDOT)%N = true)
            (imageFilename altText)
  /\ (Forall (fun c => isAlnum c = true) altText ->
      imageFilename altText = altText ++ js ".jpg").
Proof.
  unfold imageFilename. rewrite replaceAll_notAlnum.
  split; [reflexivity|]. split; [|split].
  - rewrite length_app, length_map. reflexivity.
  - apply Forall_app. split; [|repeat constructor].
    apply Forall_forall. intros c Hc. apply in_map_iff in Hc as (x & <- & _).
    unfold sanitizeChar. destruct (isAlnum x) eqn:Hx; [now rewrite Hx|].
    reflexivity.
  - intros Hall. f_equal. induction Hall as [|c s Hc _ IH]; [reflexivity|].
    cbn [map]. unfold sanitizeChar at 1. now rewrite Hc, IH.
Qed.

Lemma imageFilename_safe_witness :
  imageFilename (js "Hero2024") = js "Hero2024" ++ js ".jpg".
Proof.
  apply (proj2 (proj2 (proj2 (imageFilename_safe (js "Hero2024"))))).
  repeat constructor.
Defined.

(** ** Slugs of slugs *)

Ltac bools_to_props :=
  unfold slugChar, isWord, isSpace, isLower, isUpper, isDigit,
    cUNDERSCORE, cDASH in *;
  rewrite ?orb_true_iff, ?andb_true_iff, ?orb_false_iff, ?andb_false_iff,
    ?N.leb_le, ?N.leb_gt, ?N.eqb_eq, ?N.eqb_neq in *.

Lemma slugChar_kept c :
  slugChar c = true -> isWord c || isSpace c || (c =? cDASH)%N = true.
Proof.
  unfold slugChar, isWord. intros H.
  destruct (isLower c), (isDigit c), (c =? cUNDERSCORE)%N, (c =? cDASH)%N;
    try discriminate; rewrite ?orb_true_r; reflexivity.
Qed.

Lemma slugChar_no_space c : slugChar c = true -> isSpace c = false.
Proof.
  intros H. destruct (isSpace c) eqn:Hs; [|reflexivity]. exfalso.
  bools_to_props. lia.
Qed.

Lemma replaceAll_special_id s :
  Forall (fun c => slugChar c = true) s -> replaceAll matchSpecial s = s.
Proof.
  unfold replaceAll. induction 1 as [|c s Hc _ IH]; [reflexivity|].
  rewrite replaceAll_from_cons. unfold matchSpecial at 1.
  rewrite (slugChar_kept c Hc). now rewrite IH.
Qed.

Lemma replaceAll_spaces_id s :
  Forall (fun c => slugChar c = true) s ->
  replaceAll (matchRun isSpace) s = s.
Proof.
  unfold replaceAll. induction 1 as [|c s Hc _ IH]; [reflexivity|].
  rewrite replaceAll_from_cons. unfold matchRun at 1. cbn [takeWhile].
  rewrite (slugChar_no_space c Hc). now rewrite IH.
Qed.

Lemma takeWhile_head_false f (s : jsstring) :
  match s with c :: _ => f c | [] => false end = false -> takeWhile f s = [].
Proof. destruct s as [|c s]; [reflexivity|]. cbn. now intros ->. Qed.

Lemma replaceAll_hyphens_id s :
  noDoubleHyphen s = true -> replaceAll (matchRun (N.eqb cDASH)) s = s.
Proof.
  unfold replaceAll. induction s as [|c s IH]; intros H; [reflexivity|].
  cbn [noDoubleHyphen] in H. apply andb_prop in H as [Hc Hs].
  apply negb_true_iff in Hc.
  rewrite replaceAll_from_cons. unfold matchRun at 1. cbn [takeWhile].
  rewrite N.eqb_sym. destruct (c =? cDASH)%N eqn:Hd.
  - cbn [andb] in Hc. rewrite takeWhile_head_false.
    + cbn [length Nat.sub skipn app]. apply N.eqb_eq in Hd. subst c.
      now rewrite IH.
    + destruct s as [|x s]; [reflexivity|]. cbn [headIsDash] in Hc.
      now rewrite N.eqb_sym.
  - now rewrite IH.
Qed.

(** X15. [createSlug] leaves a slug as it is: applied to one of its own
    results it returns it unchanged, provided lower-casing leaves no
    uppercase ASCII letter and does not change a string of lowercase ASCII
    letters, digits, underscores and hyphens. *)
Theorem createSlug_idempotent (toLowerCase : jsstring -> jsstring) :
  (forall s, Forall (fun c => isUpper c = false) (toLowerCase s)) ->
  (forall s, Forall (fun c => slugChar c = true) s -> toLowerCase s = s) ->
  forall title : jsstring,
    createSlug toLowerCase (createSlug toLowerCase title)
    = createSlug toLowerCase title.
Proof.
  intros Hupper Hfix title.
  assert (Hchars : Forall (fun c => slugChar c = true)
                          (createSlug toLowerCase title)).
  { unfold createSlug, replaceAll.
    apply (replaceAll_from_Forall _ (fun c => slugChar c = true)).
    { intros s len repl Hm. apply matchRun_Some in Hm as [-> _].
      constructor; [reflexivity|constructor]. }
    { auto. }
    apply (replaceAll_from_Forall _
             (fun c => isUpper c = false
                       /\ isWord c || isSpace c || (c =? cDASH)%N = true)).
    { intros s len repl Hm. apply matchRun_Some in Hm as [-> _].
      constructor; [reflexivity|constructor]. }
    { intros c r Hm [Hu Hk]. apply matchRun_None in Hm.
      now apply slugChar_of_kept. }
    apply (replaceAll_from_Forall _ (fun c => isUpper c = false)).
    { intros s len repl Hm. unfold matchSpecial in Hm.
      destruct s as [|c r]; [discriminate|].
      destruct (_ || _); [discriminate|]. inversion Hm. constructor. }
    { intros c r Hm Hu. split; [exact Hu|].
      unfold matchSpecial in Hm.
      destruct (isWord c || isSpace c || (c =? cDASH)%N);
        [reflexivity|discriminate]. }
    apply Hupper. }
  assert (Hhyph : noDoubleHyphen (createSlug toLowerCase title) = true).
  { unfold createSlug at 1. unfold replaceAll at 1.
    now apply (collapse_hyphens _ _ (Nat.le_refl _)). }
  set (slug := createSlug toLowerCase title) in *.
  unfold createSlug at 1.
  rewrite (Hfix slug Hchars), replaceAll_special_id, replaceAll_spaces_id
    by exact Hchars.
  now apply replaceAll_hyphens_id.
Qed.

Lemma asciiLower_fixes_slugs (s : jsstring) :
  Forall (fun c => slugChar c = true) s -> map asciiLower s = s.
Proof.
  induction 1 as [|c s Hc _ IH]; [reflexivity|]. cbn [map].
  unfold asciiLower at 1. now rewrite (slugChar_not_upper c Hc), IH.
Qed.

Lemma createSlug_idempotent_witness :
  createSlug (map asciiLower)
    (createSlug (map asciiLower) (js "Hello,  World -- 2nd_Ed! "))
  = createSlug (map asciiLower) (js "Hello,  World -- 2nd_Ed! ").
Proof.
  apply (createSlug_idempotent (map asciiLower) asciiLower_not_upper
           asciiLower_fixes_slugs).
Defined.

(** ** Hash headings *)

Lemma blockSources_hashParagraph n t :
  1 <= n ->
  blockSources (hashParagraph n t)
  = [(fst (hashHeading n t), None, None, snd (hashHeading n t))].
Proof.
  intros Hn. destruct n as [|[|[|[|[|n]]]]]; try lia; reflexivity.
Qed.

(** X16. A paragraph unit made of [n >= 1] hashes, a space and a text
    yields exactly one block, no list item: a heading of level [n] for [n]
    up to 4, tokenized from the text as it is for level 1 and from the
    trimmed text for levels 2 to 4; with five hashes or more it is a normal
    paragraph tokenized from the whole unit, hashes included. *)
Theorem hash_heading_levels
    (random : nat -> nat) (n : nat) (t : jsstring) (k : nat) :
  1 <= n ->
  exists x b,
    blockOfParagraph random (hashParagraph n t) k
    = Some (x, k + defaultKeyLength)
    /\ flatOne x = [b]
    /\ style b = fst (hashHeading n t)
    /\ listItem b = None /\ level b = None
    /\ processBoldAndEmphasis (snd (hashHeading n t)) = Some (children b).
Proof.
  intros Hn.
  destruct (blockOfParagraph_keys random (hashParagraph n t) k)
    as (x & Hrun & _).
  destruct (blockOfParagraph_run random (hashParagraph n t) k)
    as (x' & k' & Hrun' & Hshape).
  rewrite Hrun in Hrun'. inversion Hrun'; subst x' k'. clear Hrun'.
  rewrite blockSources_hashParagraph in Hshape by exact Hn.
  destruct (flatOne x) as [|b [|b' l]] eqn:Hx; try discriminate Hshape.
  exists x, b. rewrite Hrun, Hx. cbn [length]. rewrite Nat.mul_1_r.
  split; [reflexivity|]. split; [reflexivity|].
  cbn [map tokenizeSource] in Hshape. inversion Hshape as [Hb].
  rewrite processBoldAndEmphasis_tokenize. repeat split; congruence.
Qed.

Lemma hash_heading_levels_witness :
  exists x b,
    blockOfParagraph (fun j => j) (hashParagraph 5 (js "Deep ")) 0
    = Some (x, 0 + defaultKeyLength)
    /\ flatOne x = [b]
    /\ style b = normal
    /\ listItem b = None /\ level b = None
    /\ processBoldAndEmphasis (js "##### Deep ") = Some (children b).
Proof.
  apply (hash_heading_levels (fun j => j) 5 (js "Deep ") 0). repeat constructor.
Defined.

(** ** Pseudo-headings of every level *)

Lemma noLineTerminator_noNewline s :
  noLineTerminator s = true -> noNewline s = true.
Proof.
  unfold noLineTerminator, noNewline. intros H.
  rewrite forallb_forall in *. intros c Hc. specialize (H c Hc).
  apply negb_true_iff in H. apply negb_true_iff.
  unfold isLineTerminator in H. apply orb_false_elim in H as [H _].
  apply orb_false_elim in H as [H _]. apply orb_false_elim in H as [H _].
  exact H.
Qed.

Lemma collapseFrom_noNewline x z : forall k,
  noNewline x = true ->
  collapseFrom k (x ++ z)
  = x ++ collapseFrom (match x with [] => k | _ => 0 end) z.
Proof.
  induction x as [|c x IH]; intros k H; [reflexivity|].
  cbn [noNewline forallb] in H. apply andb_prop in H as [Hc H].
  apply negb_true_iff in Hc. cbn [app collapseFrom]. rewrite Hc.
  rewrite (IH 0 H). now destruct x.
Qed.

Lemma split_noNewline x rest : forall cur,
  noNewline x = true ->
  split_from nlnl 0 cur (x ++ cNL :: cNL :: rest)
  = (cur ++ x) :: split_from nlnl 0 [] rest.
Proof.
  induction x as [|c x IH]; intros cur H.
  - cbn [app]. rewrite app_nil_r.
    cbn [split_from startsWith nlnl length Nat.sub].
    rewrite !N.eqb_refl. cbn [andb]. destruct rest; reflexivity.
  - cbn [noNewline forallb] in H. apply andb_prop in H as [Hc H].
    apply negb_true_iff in Hc. cbn [app split_from startsWith nlnl].
    rewrite N.eqb_sym, Hc. cbn [andb].
    rewrite (IH _ H), <- app_assoc. reflexivity.
Qed.

Lemma trim_nonempty c s : isSpace c = false -> truthy (trim (c :: s)) = true.
Proof.
  intros Hc. unfold trim. cbn [dropWhile]. rewrite Hc.
  cbn [rev].
  assert (H : forall x, dropWhile isSpace (x ++ [c]) <> []).
  { induction x as [|y x IH]; cbn [app dropWhile].
    - rewrite Hc. discriminate.
    - destruct (isSpace y); [exact IH|discriminate]. }
  specialize (H (rev s)).
  destruct (dropWhile isSpace (rev s ++ [c])) as [|y l]; [congruence|].
  cbn [rev]. now destruct (rev l).
Qed.

Lemma pseudoHeadingLine_sources d content :
  (49 <= d <= 54)%N ->
  blockSources (pseudoHeadingLine d content)
  = [(fst (pseudoHeading d content), None, None,
      snd (pseudoHeading d content))].
Proof.
  intros Hd.
  assert (H : (d = 49 \/ d = 50 \/ d = 51 \/ d = 52 \/ d = 53 \/ d = 54)%N)
    by lia.
  destruct H as [->|[->|[->|[->|[->| ->]]]]]; reflexivity.
Qed.

Lemma paragraphsOf_boldPseudoHeading d content :
  (49 <= d <= 54)%N ->
  noStar content = true -> noLineTerminator content = true ->
  paragraphsOf (boldPseudoHeading d content) = [pseudoHeadingLine d content].
Proof.
  intros Hd Hs Hl. unfold paragraphsOf, cleanMarkdown, boldPseudoHeading.
  rewrite replaceAll_boldHeading by assumption.
  rewrite replaceAll_newlines_collapse.
  assert (Hline : noNewline (pseudoHeadingLine d content) = true).
  { unfold pseudoHeadingLine.
    cbn [js map list_ascii_of_string app noNewline forallb].
    apply noLineTerminator_noNewline in Hl. fold (noNewline content).
    rewrite Hl.
    replace (d =? cNL)%N with false
      by (symmetry; apply N.eqb_neq; unfold cNL; lia).
    reflexivity. }
  change (nlnl ++ js "H" ++ [d] ++ js ":" ++ content ++ nlnl)
    with (cNL :: cNL :: (pseudoHeadingLine d content ++ nlnl)).
  cbn [collapseFrom]. rewrite N.eqb_refl. cbn [Nat.ltb Nat.leb].
  rewrite collapseFrom_noNewline by exact Hline.
  assert (Hhead : match pseudoHeadingLine d content with
                  | [] => 2 | _ => 0 end = 0) by reflexivity.
  rewrite Hhead.
  change (collapseFrom 0 nlnl) with nlnl.
  unfold split. cbn [split_from startsWith nlnl length Nat.sub].
  rewrite !N.eqb_refl. cbn [andb].
  change (pseudoHeadingLine d content ++ nlnl)
    with (pseudoHeadingLine d content ++ cNL :: cNL :: []).
  rewrite split_noNewline by exact Hline.
  cbn [app split_from filter].
  change (truthy (trim [])) with false. cbn iota.
  assert (Ht : truthy (trim (pseudoHeadingLine d content)) = true)
    by now apply trim_nonempty.
  now rewrite Ht.
Qed.

(** X17. A heading written in bold markers, [**H<d>:<content>**] with a digit
    [d] from 1 to 6 and a content without asterisk or line terminator, is
    converted to exactly one block.  For the digits 2, 3 and 4 it is a
    heading of that level holding the trimmed content; for 1, 5 and 6 it
    is a normal paragraph that holds the rewritten line [H<d>:<content>],
    marker included. *)
Theorem pseudo_heading_levels
    (random : nat -> nat) (d : N) (content : jsstring) :
  (49 <= d <= 54)%N ->
  noStar content = true -> noLineTerminator content = true ->
  exists b,
    run (markdownToPortableText random (boldPseudoHeading d content))
    = Some [b]
    /\ style b = fst (pseudoHeading d content)
    /\ listItem b = None /\ level b = None
    /\ processBoldAndEmphasis (snd (pseudoHeading d content))
       = Some (children b).
Proof.
  intros Hd Hs Hl.
  destruct (run_document random (boldPseudoHeading d content))
    as (doc & Hrun & Hdoc).
  rewrite paragraphsOf_boldPseudoHeading in Hdoc by assumption.
  cbn [flat_map] in Hdoc. rewrite app_nil_r in Hdoc.
  rewrite pseudoHeadingLine_sources in Hdoc by exact Hd.
  destruct doc as [|b [|b' doc]]; try discriminate Hdoc.
  exists b. split; [exact Hrun|].
  cbn [map tokenizeSource] in Hdoc. inversion Hdoc as [Hb].
  rewrite processBoldAndEmphasis_tokenize. repeat split; congruence.
Qed.

Lemma pseudo_heading_levels_witness :
  exists b,
    run (markdownToPortableText (fun j => j)
           (boldPseudoHeading 49 (js "Main title")))
    = Some [b]
    /\ style b = normal
    /\ listItem b = None /\ level b = None
    /\ processBoldAndEmphasis (js "H1:Main title") = Some (children b).
Proof.
  apply (pseudo_heading_levels (fun j => j) 49%N (js "Main title"));
    [split; discriminate|reflexivity|reflexivity].
Defined.

(** ** Quotes *)

Lemma no_heading_rules c r :
  (35 =? c)%N = false -> (c =? 72)%N = false -> (c =? 104)%N = false ->
  startsWith (js "# ") (c :: r) = false
  /\ isHeading (js "## ") 50 (c :: r) = false
  /\ isHeading (js "### ") 51 (c :: r) = false
  /\ isHeading (js "#### ") 52 (c :: r) = false.
Proof.
  intros H35 H72 H104. unfold isHeading.
  rewrite !(matchPseudoHeading_head _ c r H72 H104).
  change (js "# ") with (35 :: js " ")%N.
  change (js "## ") with (35 :: js "# ")%N.
  change (js "### ") with (35 :: js "## ")%N.
  change (js "#### ") with (35 :: js "### ")%N.
  rewrite !(startsWith_head_neq 35 _ c r H35). repeat split.
Qed.

Lemma blockOfParagraph_quote random t k :
  blockOfParagraph random (js "> " ++ t) k
  = bind (makeBlock random blockquote None None (trim t))
         (fun b => ret (inl b)) k
  /\ blockOfParagraph random (js "&gt; " ++ t) k
     = bind (makeBlock random blockquote None None (trim t))
            (fun b => ret (inl b)) k.
Proof.
  split.
  - change (js "> " ++ t) with (62 :: 32 :: t)%N.
    destruct (no_heading_rules 62 (32 :: t)%N eq_refl eq_refl eq_refl)
      as (R1 & R2 & R3 & R4).
    unfold blockOfParagraph. rewrite R1, R2, R3, R4.
    replace (startsWith (js "> ") (62 :: 32 :: t)%N) with true by reflexivity.
    cbn [orb].
    replace (stripQuoteMarker (62 :: 32 :: t)%N) with (32 :: t)%N
      by reflexivity.
    now rewrite trim_space.
  - change (js "&gt; " ++ t) with (38 :: 103 :: 116 :: 59 :: 32 :: t)%N.
    destruct (no_heading_rules 38 (103 :: 116 :: 59 :: 32 :: t)%N
                eq_refl eq_refl eq_refl) as (R1 & R2 & R3 & R4).
    unfold blockOfParagraph. rewrite R1, R2, R3, R4.
    replace (startsWith (js "> ") (38 :: 103 :: 116 :: 59 :: 32 :: t)%N)
      with false by reflexivity.
    replace (startsWith (js "&gt; ") (38 :: 103 :: 116 :: 59 :: 32 :: t)%N)
      with true by reflexivity.
    cbn [orb].
    replace (stripQuoteMarker (38 :: 103 :: 116 :: 59 :: 32 :: t)%N)
      with (32 :: t)%N by reflexivity.
    now rewrite trim_space.
Qed.

(** X18. A unit that starts with the escaped marker ["&gt; "] is converted
    exactly as the unit with the plain marker ["> "] and the same text,
    whatever the text: to one quote block, no list item, tokenized from
    the trimmed text. *)
Theorem escaped_quote_marker (random : nat -> nat) (t : jsstring) (k : nat) :
  blockOfParagraph random (js "&gt; " ++ t) k
  = blockOfParagraph random (js "> " ++ t) k
  /\ exists b,
       blockOfParagraph random (js "> " ++ t) k
       = Some (inl b, k + defaultKeyLength)
       /\ style b = blockquote
       /\ listItem b = None /\ level b = None
       /\ processBoldAndEmphasis (trim t) = Some (children b).
Proof.
  destruct (blockOfParagraph_quote random t k) as [Hplain Hescaped].
  split; [congruence|].
  rewrite Hplain. unfold bind. rewrite makeBlock_exact. unfold ret.
  eexists. split; [reflexivity|]. cbn [style listItem level children].
  repeat split. apply processBoldAndEmphasis_tokenize.
Qed.

(** ** List units without list lines *)

(** X19. A unit whose first line is a bare list marker, a hyphen or an
    asterisk directly followed by the line break, takes the bullet rule
    (the line break counts as the whitespace after the marker), but the
    marker line itself is no list line: when none of the following lines
    is one either, the unit yields no block at all and makes no draw, and
    its text is lost. *)
Theorem bare_marker_unit_dropped
    (random : nat -> nat) (m : N) (rest : jsstring) (k : nat) :
  m = cDASH \/ m = cSTAR ->
  filter (test (matchBullet false)) (split nl rest) = [] ->
  blockOfParagraph random (m :: cNL :: rest) k = Some (inr [], k).
Proof.
  intros Hm Hrest.
  assert (Hp : test (matchBullet false) (m :: cNL :: rest) = true)
    by (destruct Hm as [-> | ->]; reflexivity).
  destruct (bullet_paragraph_rules _ Hp) as (R1 & R2 & R3 & R4 & R5).
  unfold blockOfParagraph. rewrite R1, R2, R3, R4, R5, Hp.
  assert (Hsplit : split nl (m :: cNL :: rest) = [m] :: split nl rest)
    by (destruct Hm as [-> | ->]; reflexivity).
  rewrite Hsplit. cbn [filter].
  replace (test (matchBullet false) [m]) with false
    by (destruct Hm as [-> | ->]; reflexivity).
  rewrite Hrest. reflexivity.
Qed.

Lemma bare_marker_unit_dropped_witness :
  blockOfParagraph (fun j => j)
    (cDASH :: cNL :: js "the text of the item") 0
  = Some (inr [], 0).
Proof.
  apply (bare_marker_unit_dropped (fun j => j) cDASH
           (js "the text of the item") 0);
    [now left|reflexivity].
Defined.
